(** * Setwise backend: staged podcast pipeline, agenda planner and job store

    A shallow embedding of the parts of [backend/pipeline.py],
    [backend/modules/planner.py], [backend/modules/generator.py] and
    [backend/job_store.py] that the properties below talk about.

    Conventions.
    - A Python [str] is a list of Unicode code points ([list N]); literals
      are written with [lit] (ASCII) or as explicit code points (kana/kanji).
    - A Python [int] is a [Z]; a [float] that only ever holds a ratio of two
      counters is an exact rational ([Q]). Where an [int] of any size goes
      through a float ([int((a + b) / 2)] in the pipeline's budgets), the
      rounding to 53 bits and the [OverflowError] are written out.
    - A [dict] used as a map is a [gmap]; an absent key and a [None] value
      are both [None] of an [option] where the code reads them with
      [d.get(k) or default].
    - An exception is an explicit error constructor of the result type. *)

From Stdlib Require Import ZArith QArith Qround Lia DecimalString.
From stdpp Require Import strings gmap list sorting.

#[local] Set Warnings "-register-all".
#[local] Open Scope Z_scope.

(** ** Python strings *)

Definition char := N.
Definition str := list char.

Fixpoint lit (s : string) : str :=
  match s with
  | EmptyString => []
  | String a s' => Ascii.N_of_ascii a :: lit s'
  end.
Arguments lit s%_string.

(** [str.isspace] for one code point (the set used by [str.strip] and by
    [\s] in a [re] pattern over [str]). *)
Definition is_space (c : char) : bool :=
  ((9 <=? c) && (c <=? 13) || (28 <=? c) && (c <=? 32)
   || (c =? 133) || (c =? 160) || (c =? 5760)
   || (8192 <=? c) && (c <=? 8202)
   || (c =? 8232) || (c =? 8233) || (c =? 8239) || (c =? 8287)
   || (c =? 12288))%N.

Fixpoint lstrip (s : str) : str :=
  match s with
  | c :: s' => if is_space c then lstrip s' else s
  | [] => []
  end.

Definition rstrip (s : str) : str := rev (lstrip (rev s)).
Definition strip (s : str) : str := rstrip (lstrip s).

(** Truthiness of a [str]. *)
Definition nonempty (s : str) : bool :=
  match s with [] => false | _ => true end.

(** [sep.join(parts)]. *)
Fixpoint join (sep : str) (parts : list str) : str :=
  match parts with
  | [] => []
  | [p] => p
  | p :: rest => p ++ sep ++ join sep rest
  end.

(** ** Python values stored in metrics and results *)

Inductive pyval :=
| PNone
| PBool (b : bool)
| PInt (z : Z)
| PStr (s : str)
| PList (l : list pyval)
| PDict (d : gmap str pyval).

(** [d.update(other)]: keys of [other] win, the remaining keys of [d] stay. *)
Definition dict_update {V} (d other : gmap str V) : gmap str V := other ∪ d.

(** ** Python slices and suffix tests *)

(** [l[:k]] and [l[k:]] for any integer [k]: a negative bound counts from
    the end and is clipped at the start of the list. *)
Definition py_take {A} (k : Z) (l : list A) : list A :=
  if decide (0 <= k) then take (Z.to_nat k) l
  else take (length l - Z.to_nat (- k)) l.

Definition py_drop {A} (k : Z) (l : list A) : list A :=
  if decide (0 <= k) then drop (Z.to_nat k) l
  else drop (length l - Z.to_nat (- k)) l.

(** [s.endswith(suffix)]. *)
Definition endswith (s suffix : str) : bool := bool_decide (suffix `suffix_of` s).

(** [s.endswith((a, b, ...))]. *)
Definition endswith_any (s : str) (suffixes : list str) : bool :=
  existsb (endswith s) suffixes.

(** A string without white space at either end: a fixed point of [strip]. *)
Definition trimmed (s : str) : Prop :=
  (forall c rest, s = c :: rest -> is_space c = false) ∧
  (forall c, last s = Some c -> is_space c = false).

(** * job_store.py *)

Module JobStore.

Record JobRecord := {
  job_id : str;
  status : str;
  stage : str;
  created_at : Z;
  updated_at : Z;
  topic : str;
  error : option str;
  result : option (gmap str pyval);
  metrics : gmap str pyval
}.

(** The keyword arguments of [update]; [None] is the default of each. *)
Record update_args := {
  a_status : option str;
  a_stage : option str;
  a_error : option str;
  a_result : option (gmap str pyval);
  a_metrics : option (gmap str pyval)
}.

Definition no_args : update_args :=
  {| a_status := None; a_stage := None; a_error := None;
     a_result := None; a_metrics := None |}.

(** [InMemoryJobStore.create]: [now] is the value of [utc_now()]. *)
Definition new_record (now : Z) (jid topic : str) : JobRecord :=
  {| job_id := jid; status := lit "queued"; stage := lit "queued";
     created_at := now; updated_at := now; topic := topic;
     error := None; result := None; metrics := ∅ |}.

Definition create (now : Z) (jid topic : str) (jobs : gmap str JobRecord)
  : gmap str JobRecord * JobRecord :=
  let r := new_record now jid topic in (<[jid := r]> jobs, r).

Definition get (jid : str) (jobs : gmap str JobRecord) : option JobRecord :=
  jobs !! jid.

Definition set_status (s : str) (r : JobRecord) : JobRecord :=
  {| job_id := job_id r; status := s; stage := stage r;
     created_at := created_at r; updated_at := updated_at r;
     topic := topic r; error := error r; result := result r;
     metrics := metrics r |}.

Definition set_stage (s : str) (r : JobRecord) : JobRecord :=
  {| job_id := job_id r; status := status r; stage := s;
     created_at := created_at r; updated_at := updated_at r;
     topic := topic r; error := error r; result := result r;
     metrics := metrics r |}.

Definition set_error (e : str) (r : JobRecord) : JobRecord :=
  {| job_id := job_id r; status := status r; stage := stage r;
     created_at := created_at r; updated_at := updated_at r;
     topic := topic r; error := Some e; result := result r;
     metrics := metrics r |}.

Definition set_result (x : gmap str pyval) (r : JobRecord) : JobRecord :=
  {| job_id := job_id r; status := status r; stage := stage r;
     created_at := created_at r; updated_at := updated_at r;
     topic := topic r; error := error r; result := Some x;
     metrics := metrics r |}.

(** [record.metrics.update(metrics)]. *)
Definition merge_metrics (m : gmap str pyval) (r : JobRecord) : JobRecord :=
  {| job_id := job_id r; status := status r; stage := stage r;
     created_at := created_at r; updated_at := updated_at r;
     topic := topic r; error := error r; result := result r;
     metrics := dict_update (metrics r) m |}.

Definition set_updated_at (now : Z) (r : JobRecord) : JobRecord :=
  {| job_id := job_id r; status := status r; stage := stage r;
     created_at := created_at r; updated_at := now;
     topic := topic r; error := error r; result := result r;
     metrics := metrics r |}.

(** [if x is not None: record.x = x]. *)
Definition if_given {A} (write : A -> JobRecord -> JobRecord) (arg : option A)
    (r : JobRecord) : JobRecord :=
  match arg with
  | Some x => write x r
  | None => r
  end.

(** The body of [update] once [record = self._jobs[job_id]] is bound: the
    five guarded writes in the order of the source, then [updated_at]. *)
Definition update_record (now : Z) (a : update_args) (r : JobRecord) : JobRecord :=
  let r := if_given set_status (a_status a) r in
  let r := if_given set_stage (a_stage a) r in
  let r := if_given set_error (a_error a) r in
  let r := if_given set_result (a_result a) r in
  let r := if_given merge_metrics (a_metrics a) r in
  set_updated_at now r.

(** [InMemoryJobStore.update]: [None] is the [KeyError] of
    [self._jobs[job_id]]; otherwise the new store and the returned record. *)
Definition update (now : Z) (jid : str) (a : update_args)
    (jobs : gmap str JobRecord) : option (gmap str JobRecord * JobRecord) :=
  match jobs !! jid with
  | None => None
  | Some r => let r' := update_record now a r in Some (<[jid := r']> jobs, r')
  end.

(** A caller issuing a series of [update] calls; a call that raises leaves
    the store as it was. *)
Record call := { c_now : Z; c_job : str; c_args : update_args }.

Definition apply_call (jobs : gmap str JobRecord) (c : call) : gmap str JobRecord :=
  match update (c_now c) (c_job c) (c_args c) jobs with
  | Some (jobs', _) => jobs'
  | None => jobs
  end.

Definition apply_calls (cs : list call) (jobs : gmap str JobRecord)
  : gmap str JobRecord := foldl apply_call jobs cs.

(** What "deep merge" of two mappings means: nested mappings under a common
    key are merged recursively, any other value of the update replaces the
    old one. [depth] bounds the nesting that is followed. This is the
    reading of the interface description, kept apart from [dict_update]. *)
Fixpoint deep_merge (depth : nat) (old upd : gmap str pyval) : gmap str pyval :=
  union_with
    (fun o u =>
       match depth, o, u with
       | S d, PDict od, PDict ud => Some (PDict (deep_merge d od ud))
       | _, _, _ => Some u
       end)
    old upd.

(** The stored value survives an argument that is left out. *)
Definition keep {A} (old : option A) (arg : option A) : option A :=
  match arg with Some x => Some x | None => old end.

(** Records and metrics used in the examples. *)
Definition nested_old : gmap str pyval :=
  {[ lit "progress" := PDict {[ lit "total_sections" := PInt 8 ]} ]}.
Definition nested_upd : gmap str pyval :=
  {[ lit "progress" := PDict {[ lit "synthesized_sections" := PInt 1 ]} ]}.
Definition nested_job : JobRecord :=
  {| job_id := lit "j1"; status := lit "running"; stage := lit "searching";
     created_at := 0; updated_at := 0; topic := lit "AI";
     error := None; result := None; metrics := nested_old |}.
Definition failed_job : JobRecord :=
  {| job_id := lit "j1"; status := lit "failed"; stage := lit "failed";
     created_at := 0; updated_at := 5; topic := lit "AI";
     error := Some (lit "Job timed out after 900s"); result := None; metrics := ∅ |}.

(** ** InMemoryEventStore *)

Definition event := gmap str pyval.

Definition add (e : event) (events : list event) : list event := events ++ [e].

(** [e.get("user_id") == user_id] for a [str] [user_id]. *)
Definition user_is (user_id : str) (e : event) : bool :=
  match e !! lit "user_id" with
  | Some (PStr s) => bool_decide (s = user_id)
  | _ => false
  end.

Definition list_by_user (user_id : str) (events : list event) : list event :=
  filter (fun e => user_is user_id e = true) events.

(** [self._events[-limit:]]. *)
Definition list_all (limit : Z) (events : list event) : list event :=
  py_drop (- limit) events.

(** [Storage.list_user_events] without Firestore:
    [self.events.list_by_user(user_id)[-limit:]]. *)
Definition list_user_events (user_id : str) (limit : Z) (events : list event)
  : list event :=
  py_drop (- limit) (list_by_user user_id events).

(** ** InMemoryEpisodeStore and InMemoryUserStore *)

(** Truthiness of a dict: [d if d else None]. *)
Definition if_truthy {V} (d : gmap str V) : option (gmap str V) :=
  if decide (size d = 0%nat) then None else Some d.

Definition episode_upsert (episode_id : str) (episode : gmap str pyval)
    (episodes : gmap str (gmap str pyval)) : gmap str (gmap str pyval) :=
  <[episode_id := episode]> episodes.

Definition episode_get (episode_id : str) (episodes : gmap str (gmap str pyval))
  : option (gmap str pyval) :=
  match episodes !! episode_id with
  | Some episode => if_truthy episode
  | None => None
  end.

(** [old = self._users.get(user_id) or {}; merged = {**old, **profile}]. *)
Definition user_upsert (user_id : str) (profile : gmap str pyval)
    (users : gmap str (gmap str pyval))
  : gmap str (gmap str pyval) * gmap str pyval :=
  let old := default ∅ (users !! user_id) in
  let merged := dict_update old profile in
  (<[user_id := merged]> users, merged).

Definition user_get (user_id : str) (users : gmap str (gmap str pyval))
  : option (gmap str pyval) :=
  match users !! user_id with
  | Some profile => if_truthy profile
  | None => None
  end.

End JobStore.

(** * modules/planner.py *)

Module Planner.

Record node := { id : str; title : str; role : str; note : str }.
Record edge := { from : str; to : str }.

#[global] Instance node_eq_dec : EqDecision node.
Proof. solve_decision. Defined.
#[global] Instance edge_eq_dec : EqDecision edge.
Proof. solve_decision. Defined.

(** An element of the model's ["nodes"] array: anything that is not an
    object, or an object whose fields are read with [.get]. Each field holds
    [str(v)] of the value, and [[]] when the key is absent or the value is
    falsy ([None], [""], [0]). *)
Inductive raw_node :=
| RawNotDict
| RawNode (rid rtitle rrole rnote : str).

Inductive raw_edge :=
| RawEdgeNotDict
| RawEdge (rfrom rto : str).

(** The parsed model answer; [None] where the key is absent or its value is
    not a list. *)
Record raw_agenda := {
  raw_nodes : option (list raw_node);
  raw_edges : option (list raw_edge)
}.

Record chapter := { chapter_id : str; ch_title : str; node_ids : list str }.

Record agenda := {
  ag_topic : str;
  nodes : list node;
  edges : list edge;
  ordered_node_ids : list str;
  chapters : list chapter
}.

Inductive exn := KeyError (k : str).

Inductive outcome (A : Type) :=
| Returns (a : A)
| Raises (e : exn)
| OutOfFuel.
Arguments Returns {A} a.
Arguments Raises {A} e.
Arguments OutOfFuel {A}.

Definition str_of_nat (n : nat) : str :=
  lit (DecimalString.NilZero.string_of_uint (Nat.to_uint n)).

(** [f"n{k}"] and [f"c{k}"]. *)
Definition n_id (k : nat) : str := lit "n" ++ str_of_nat k.
Definition c_id (k : nat) : str := lit "c" ++ str_of_nat k.

Definition min_nodes : nat := 5.
Definition max_nodes : nat := 7.

(** The five [pad_templates] as (title, role), for a topic. *)
Definition pad_templates (topic : str) : list (str * str) :=
  [ (topic ++ [12398; 32972; 26223]%N, lit "premise");
    (topic ++ [12398; 20027; 12394; 35201; 22240]%N, lit "cause");
    (topic ++ [12398; 24433; 38911]%N, lit "effect");
    ([23455; 21209; 12391; 12398; 20877; 35413; 20385]%N, lit "reframe");
    ([21453; 23550; 35542; 12392; 21046; 32004]%N, lit "conflict") ].

(** The nodes of the [if not nodes:] branch. *)
Definition fallback_nodes (topic : str) : list node :=
  [ {| id := lit "n1"; title := topic ++ [12398; 32972; 26223]%N;
       role := lit "premise"; note := [] |};
    {| id := lit "n2"; title := topic ++ [12398; 20027; 12394; 35201; 22240]%N;
       role := lit "cause"; note := [] |};
    {| id := lit "n3"; title := topic ++ [12398; 24433; 38911]%N;
       role := lit "effect"; note := [] |};
    {| id := lit "n4"; title := [23455; 21209; 12391; 12398; 20877; 35413; 20385]%N;
       role := lit "reframe"; note := [] |} ].

Definition fallback_edges : list edge :=
  [ {| from := lit "n1"; to := lit "n2" |};
    {| from := lit "n2"; to := lit "n3" |};
    {| from := lit "n3"; to := lit "n4" |} ].

(** ** topological_order *)

(** The first loop: [graph[src].append(dst)], [indeg[dst] = indeg.get(dst, 0) + 1],
    [indeg.setdefault(src, 0)]. *)
Definition add_edge (st : gmap str (list str) * gmap str Z) (e : edge)
  : gmap str (list str) * gmap str Z :=
  let '(graph, indeg) := st in
  let graph1 := <[from e := default [] (graph !! from e) ++ [to e]]> graph in
  let indeg1 := <[to e := default 0 (indeg !! to e) + 1]> indeg in
  let indeg2 := match indeg1 !! from e with
                | Some _ => indeg1
                | None => <[from e := 0]> indeg1
                end in
  (graph1, indeg2).

(** [{nid: 0 for nid in node_ids}]. *)
Definition init_indeg (ids : list str) : gmap str Z :=
  foldl (fun m nid => <[nid := 0]> m) ∅ ids.

(** The [for nxt in graph.get(cur, [])] loop: [indeg[nxt] -= 1] raises
    [KeyError] on an absent key. *)
Fixpoint relax (nxts : list str) (indeg : gmap str Z) (q : list str)
  : outcome (gmap str Z * list str) :=
  match nxts with
  | [] => Returns (indeg, q)
  | nxt :: rest =>
      match indeg !! nxt with
      | None => Raises (KeyError nxt)
      | Some d =>
          let indeg' := <[nxt := d - 1]> indeg in
          relax rest indeg' (if decide (d - 1 = 0) then q ++ [nxt] else q)
      end
  end.

(** The [while q:] loop; one unit of fuel per [popleft]. *)
Fixpoint kahn (fuel : nat) (graph : gmap str (list str)) (indeg : gmap str Z)
    (q ordered : list str) : outcome (list str) :=
  match q with
  | [] => Returns ordered
  | cur :: q' =>
      match fuel with
      | O => OutOfFuel
      | S fuel' =>
          match relax (default [] (graph !! cur)) indeg q' with
          | Returns (indeg', q'') => kahn fuel' graph indeg' q'' (ordered ++ [cur])
          | Raises e => Raises e
          | OutOfFuel => OutOfFuel
          end
      end
  end.

Definition topological_order (nodes : list node) (edges : list edge)
  : outcome (list str) :=
  let node_ids := map id nodes in
  let '(graph, indeg) := foldl add_edge (∅, init_indeg node_ids) edges in
  let q := filter (fun nid => default 0 (indeg !! nid) = 0) node_ids in
  match kahn (length node_ids + length edges) graph indeg q [] with
  | Returns ordered =>
      if decide (length ordered ≠ length node_ids) then Returns node_ids
      else Returns ordered
  | Raises e => Raises e
  | OutOfFuel => OutOfFuel
  end.

(** ** _build_chapters_from_ordered_nodes *)

Fixpoint chunks_of_2 {A} (l : list A) : list (list A) :=
  match l with
  | a :: b :: rest => [a; b] :: chunks_of_2 rest
  | [a] => [[a]]
  | [] => []
  end.

(** [if len(chunks) >= 2 and len(chunks[-1]) == 1: chunks[-2].extend(chunks[-1]); chunks.pop()]. *)
Fixpoint merge_trailing {A} (chunks : list (list A)) : list (list A) :=
  match chunks with
  | [c; [x]] => [c ++ [x]]
  | c :: rest => c :: merge_trailing rest
  | [] => []
  end.

Definition build_chapter (i : nat) (chunk : list node) : chapter :=
  let idx := S i in
  let ids := map id (filter (fun n => id n ≠ []) chunk) in
  let titles := map (fun n => strip (title n)) (filter (fun n => title n ≠ []) chunk) in
  let label := [31532%N] ++ str_of_nat idx ++ [31456%N] in
  let joined := join (lit " / ") (filter (fun t => t ≠ []) (take 2 titles)) in
  let title_seed := if nonempty joined then joined else label in
  {| chapter_id := c_id idx;
     ch_title := label ++ lit ": " ++ title_seed;
     node_ids := ids |}.

Definition _build_chapters_from_ordered_nodes (nodes : list node)
    (ordered_ids : list str) : list chapter :=
  let by_id : gmap str node := foldl (fun m n => <[id n := n]> m) ∅ nodes in
  let ordered := omap (fun nid => by_id !! nid) ordered_ids in
  let ordered := match ordered with [] => nodes | _ => ordered end in
  imap build_chapter (merge_trailing (chunks_of_2 ordered)).

(** ** _normalize_agenda *)

Section Normalize.
(** [str.lower], which only the [role] field goes through. *)
Variable lower : str -> str.

Definition clean_node (idx : nat) (n : raw_node) : option node :=
  match n with
  | RawNotDict => None
  | RawNode rid rtitle rrole rnote =>
      let node_id := if nonempty rid then rid else n_id (idx + 1) in
      let title := strip rtitle in
      let role := lower (strip (if nonempty rrole then rrole else lit "point")) in
      let note := strip rnote in
      if nonempty title
      then Some {| id := node_id; title := title; role := role; note := note |}
      else None
  end.

(** The padding loop over [pad_templates]. *)
Fixpoint pad (tpls : list (str * str)) (nodes : list node)
    (existing_titles : gset str) (next_id : nat) : list node :=
  match tpls with
  | [] => nodes
  | tpl :: rest =>
      if decide (min_nodes ≤ length nodes)%nat then nodes
      else if decide (tpl.1 ∈ existing_titles) then pad rest nodes existing_titles next_id
      else pad rest
             (nodes ++ [ {| id := n_id next_id; title := tpl.1;
                            role := tpl.2; note := [] |} ])
             ({[ tpl.1 ]} ∪ existing_titles) (S next_id)
  end.

Definition clean_edge (node_ids : gset str) (e : raw_edge) : option edge :=
  match e with
  | RawEdgeNotDict => None
  | RawEdge rfrom rto =>
      let src := strip rfrom in
      let dst := strip rto in
      if decide (src ∈ node_ids ∧ dst ∈ node_ids ∧ src ≠ dst)
      then Some {| from := src; to := dst |}
      else None
  end.

Definition _normalize_agenda (ag : raw_agenda) (topic : str) : outcome agenda :=
  let nodes_raw := default [] (raw_nodes ag) in
  let edges_raw := default [] (raw_edges ag) in
  let nodes := omap (fun x => x) (imap clean_node nodes_raw) in
  let nodes := if decide (max_nodes < length nodes)%nat
               then take max_nodes nodes else nodes in
  let nodes := if decide (length nodes < min_nodes)%nat
               then pad (pad_templates topic) nodes
                        (list_to_set (map title nodes)) (length nodes + 1)
               else nodes in
  let node_ids : gset str := list_to_set (map id nodes) in
  let edges := omap (clean_edge node_ids) edges_raw in
  let '(nodes, edges) := match nodes with
                         | [] => (fallback_nodes topic, fallback_edges)
                         | _ => (nodes, edges)
                         end in
  match topological_order nodes edges with
  | Returns ordered_ids =>
      Returns {| ag_topic := topic; nodes := nodes; edges := edges;
                 ordered_node_ids := ordered_ids;
                 chapters := _build_chapters_from_ordered_nodes nodes ordered_ids |}
  | Raises e => Raises e
  | OutOfFuel => OutOfFuel
  end.

End Normalize.

(** An edge list is cyclic when some node reaches itself along edges. *)
Inductive path (es : list edge) : str -> str -> Prop :=
| path_one u v : {| from := u; to := v |} ∈ es -> path es u v
| path_step u v w : {| from := u; to := v |} ∈ es -> path es v w -> path es u w.

Definition cyclic (es : list edge) : Prop := exists v, path es v v.

(** Both endpoints known, no self-loop: what [clean_edge] lets through. *)
Definition filtered (ns : list node) (es : list edge) : Prop :=
  forall e, e ∈ es -> from e ∈ map id ns ∧ to e ∈ map id ns ∧ from e ≠ to e.

(** A candidate that survives [clean_node]: an object with a title that is
    not blank. *)
Definition usable (n : raw_node) : bool :=
  match n with
  | RawNotDict => false
  | RawNode _ rtitle _ _ => nonempty (strip rtitle)
  end.

(** The five padding templates as nodes [n1 .. n5]. *)
Definition template_nodes (topic : str) : list node :=
  imap (fun i tpl => {| id := n_id (S i); title := tpl.1; role := tpl.2; note := [] |})
       (pad_templates topic).

(** *** Specification-side views of the state of [topological_order] *)

(** Sum of the positive in-degrees: the measure that bounds the queue loop. *)
Definition potential (indeg : gmap str Z) : nat :=
  map_fold (fun _ d acc => (Z.to_nat d + acc)%nat) 0%nat indeg.

(** Successors of [u], in edge order: the value of [graph[u]]. *)
Definition graph_of (es : list edge) (u : str) : list str :=
  map to (filter (fun e => from e = u) es).

Definition occurrences (v : str) (l : list str) : nat :=
  length (filter (fun x => x = v) l).

(** In-edges of [v] whose source has not been emitted yet. *)
Definition remaining (es : list edge) (ordered : list str) (v : str) : nat :=
  length (filter (fun e => to e = v ∧ from e ∉ ordered) es).

(** Every edge into an emitted node starts at a node emitted earlier. *)
Definition topo_sorted (es : list edge) (l : list str) : Prop :=
  forall l1 x l2 e, l = l1 ++ x :: l2 -> e ∈ es -> to e = x -> from e ∈ l1.

(** ASCII-only stand-in for [str.lower], used to run examples. *)
Definition ascii_lower (s : str) : str :=
  map (fun c => if ((65 <=? c) && (c <=? 90))%N then (c + 32)%N else c) s.

(** The in-degree of every key counts the in-edges whose source is not
    emitted yet, plus the decrements still pending in the inner loop. *)
Definition counted (es : list edge) (indeg : gmap str Z)
    (ordered pending : list str) : Prop :=
  forall v, default 0 (indeg !! v)
            = Z.of_nat (remaining es ordered v + occurrences v pending).

(** Queued and emitted nodes have in-degree 0. *)
Definition settled (indeg : gmap str Z) (l : list str) : Prop :=
  forall v, v ∈ l -> default 0 (indeg !! v) = 0.

(** The ids of the five padding templates. *)
Definition template_ids : list str := map n_id [1; 2; 3; 4; 5]%nat.

(** Model answers without a usable node: one that names edges between the
    ids that the padding will hand out, and one that does not. *)
Definition unusable_nodes_with_edges : raw_agenda :=
  {| raw_nodes := Some [RawNotDict; RawNode (lit "n1") (lit " ") [] []];
     raw_edges := Some [ RawEdge (lit "n2") (lit "n1");
                         RawEdge (lit "n9") (lit "n1") ] |}.

Definition unusable_nodes_only : raw_agenda :=
  {| raw_nodes := Some [RawNotDict; RawNode (lit "n1") (lit " ") [] []];
     raw_edges := Some [RawEdgeNotDict; RawEdge (lit "n9") (lit "n1")] |}.

(** A model answer whose first node has a blank title. *)
Definition dropped_first_node : raw_agenda :=
  {| raw_nodes := Some [ RawNode (lit "n1") (lit "  ") (lit "premise") [];
                         RawNode (lit "n2") (lit "Market") (lit "cause") [];
                         RawNode (lit "n3") (lit "Policy") (lit "effect") [] ];
     raw_edges := Some [ RawEdge (lit "n3") (lit "n5");
                         RawEdge (lit "n5") (lit "n4");
                         RawEdge (lit "n4") (lit "n5") ] |}.

(** Consecutive entries of a walk are joined by an edge. *)
Fixpoint linked (es : list edge) (w : list str) : Prop :=
  match w with
  | u :: w' =>
      match w' with
      | v :: _ => {| from := u; to := v |} ∈ es ∧ linked es w'
      | [] => True
      end
  | [] => True
  end.

(** A node of [ids] that is neither queued nor emitted still has a positive
    in-degree. *)
Definition waiting (ids : list str) (indeg : gmap str Z) (seen : list str) : Prop :=
  forall v, v ∈ ids -> v ∉ seen -> default 0 (indeg !! v) ≠ 0.

(** Two nodes and two edges that leave the node set. *)
Definition stray_nodes : list node :=
  [ {| id := lit "a"; title := lit "A"; role := lit "cause"; note := [] |};
    {| id := lit "b"; title := lit "B"; role := lit "effect"; note := [] |} ].
Definition stray_edges : list edge :=
  [ {| from := lit "a"; to := lit "x" |}; {| from := lit "y"; to := lit "b" |} ].

(** The usable nodes of a model answer, as [clean_node] returns them. *)
Definition cleaned (lower : str -> str) (ag : raw_agenda) : list node :=
  omap (fun x => x) (imap (clean_node lower) (default [] (raw_nodes ag))).

(** A node appended by the padding loop: template [t] under a generated id. *)
Definition padded_from (topic : str) (n : node) : Prop :=
  exists k t, t ∈ pad_templates topic ∧
    n = {| id := n_id k; title := t.1; role := t.2; note := [] |}.

(** ** _truncate *)

Definition _truncate (value : str) (max_len : Z) : str :=
  let s := strip value in
  if decide (Z.of_nat (length s) <= max_len) then s
  else rstrip (py_take max_len s) ++ lit "...".

(** ** run_pre_research *)

(** One item of a search stream. [i_href], [i_url] and [i_body] hold
    [str(v)] of the value, and [[]] when the key is absent or the value is
    falsy; [i_title] and [i_source] are [None] when the key is absent. *)
Record search_item := {
  i_href : str;
  i_url : str;
  i_title : option pyval;
  i_body : str;
  i_source : option pyval
}.

Record research_item := {
  r_query : str;
  r_title : pyval;
  r_url : str;
  r_snippet : str;
  r_source : pyval
}.

Definition queries (topic : str) : list str :=
  [ topic ++ [32; 12392; 12399]%N;
    topic ++ [32; 21407; 22240; 32; 32080; 26524]%N;
    topic ++ [32; 12513; 12522; 12483; 12488; 32; 12487; 12513; 12522; 12483; 12488]%N;
    topic ++ [32; 26368; 26032]%N ].

Section PreResearch.
Variable max_results : Z.

(** The [for item in stream] loop. [stream] holds the items the stream
    yields before it ends or raises; the flag tells that the function
    returned from inside the loop. *)
Fixpoint scan_stream (q : str) (stream : list search_item)
    (collected : list research_item) (seen_urls : gset str)
  : list research_item * gset str * bool :=
  match stream with
  | [] => (collected, seen_urls, false)
  | item :: rest =>
      let url := strip (if nonempty (i_href item) then i_href item else i_url item) in
      if decide (url = [] ∨ url ∈ seen_urls)
      then scan_stream q rest collected seen_urls
      else
        let seen_urls := {[ url ]} ∪ seen_urls in
        let collected :=
          collected ++ [ {| r_query := q;
                            r_title := default (PStr []) (i_title item);
                            r_url := url;
                            r_snippet := _truncate (i_body item) 800;
                            r_source := default (PStr (lit "web")) (i_source item) |} ] in
        if decide (max_results <= Z.of_nat (length collected))
        then (collected, seen_urls, true)
        else scan_stream q rest collected seen_urls
  end.

(** The [for q in queries] loop. *)
Fixpoint scan_queries (text : str -> list search_item) (qs : list str)
    (collected : list research_item) (seen_urls : gset str)
  : list research_item * bool :=
  match qs with
  | [] => (collected, false)
  | q :: rest =>
      let '(collected, seen_urls, returned) :=
        scan_stream q (text q) collected seen_urls in
      if returned then (collected, true)
      else scan_queries text rest collected seen_urls
  end.

End PreResearch.

(** [ddgs] is [None] when [DDGS()] raises; otherwise its [text] method, as
    a function of the query, the region and [max_results]. *)
Definition run_pre_research (ddgs : option (str -> str -> Z -> list search_item))
    (topic region : str) (max_results : Z) : list research_item :=
  let per_query_cap := Z.max 1 (Z.min max_results 5) in
  match ddgs with
  | None => py_take max_results []
  | Some text =>
      let '(collected, returned) :=
        scan_queries max_results (fun q => text q region per_query_cap)
          (queries topic) [] ∅ in
      if returned then collected else py_take max_results collected
  end.

(** What the loops keep true of [collected]. *)
Definition well_formed_item (topic : str) (x : research_item) : Prop :=
  r_url x ≠ [] ∧ trimmed (r_url x) ∧ r_query x ∈ queries topic ∧
  (length (r_snippet x) <= 803)%nat.

(** [collected] at any point of the loops: distinct urls, well-formed items. *)
Definition collected_ok (topic : str) (collected : list research_item) : Prop :=
  NoDup (map r_url collected) ∧ Forall (well_formed_item topic) collected.

(** [collected] and [seen_urls] while the loops go on: the set holds the
    urls collected, and the cap has not been reached. *)
Definition still_open (max_results : Z) (collected : list research_item)
    (seen : gset str) : Prop :=
  seen = list_to_set (map r_url collected) ∧
  (collected = [] ∨ Z.of_nat (length collected) < max_results).

End Planner.

(** * modules/generator.py *)

Module Generator.

(** A script item: the dict [{"speaker": .., "text": ..}], to which the
    pipeline later adds the timing keys. An absent key and a [None] or zero
    value are read alike by [int(d.get(k, 0) or 0)]. *)
Record line := {
  speaker : str;
  text : str;
  start_ms : option Z;
  end_ms : option Z;
  global_start_ms : option Z;
  global_end_ms : option Z
}.

#[global] Instance line_eq_dec : EqDecision line.
Proof. solve_decision. Defined.

Definition mk_line (speaker text : str) : line :=
  {| speaker := speaker; text := text; start_ms := None; end_ms := None;
     global_start_ms := None; global_end_ms := None |}.

(** [_script_text]: the texts joined by a newline. *)
Definition _script_text (script : list line) : str :=
  join [10%N] (map text script).

(** [re.sub(r"\s+", " ", s)]: [in_ws] tells that the previous code point was
    white space, so that a run yields one blank. *)
Fixpoint collapse_ws (in_ws : bool) (s : str) : str :=
  match s with
  | [] => []
  | c :: s' =>
      if is_space c
      then (if in_ws then collapse_ws true s' else 32%N :: collapse_ws true s')
      else c :: collapse_ws false s'
  end.

Definition _normalize_point_text (t : str) : str := collapse_ws false (strip t).

(** [_char_ngrams]. *)
Definition _char_ngrams (t : str) (n : nat) : gset str :=
  let s := _normalize_point_text t in
  if decide (length s < n)%nat
  then (if nonempty s then {[ s ]} else ∅)
  else list_to_set (map (fun i => take n (drop i s)) (seq 0 (length s - n + 1))).

(** A [float] holding the ratio of two set sizes, as an exact rational. *)
Definition ratio (inter union : nat) : Q :=
  Z.of_nat inter # Pos.of_nat union.

(** One turn of the loop of [_max_similarity_to_points]. *)
Definition similarity_step (base : gset str) (best : Q) (point : str) : Q :=
  let other := _char_ngrams point 3 in
  if decide (other = ∅) then best
  else
    let inter := size (base ∩ other) in
    let union := size (base ∪ other) in
    let sim := if decide (union = 0%nat) then 0%Q else ratio inter union in
    if Qlt_le_dec best sim then sim else best.

Definition _max_similarity_to_points (t : str) (points : list str) : Q :=
  let base := _char_ngrams t 3 in
  if decide (base = ∅) then 0%Q
  else foldl (similarity_step base) 0%Q points.

(** [max(a, b)] of Python: [b] only when it is strictly greater. *)
Definition py_max (a b : Q) : Q := if Qlt_le_dec a b then b else a.

(** [round(x, 4)] on the exact value: nearest multiple of 1/10000, ties to
    the even one. *)
Definition round_half_even (x : Q) : Z :=
  let f := Qfloor x in
  let r := (x - inject_Z f)%Q in
  if Qlt_le_dec r (1 # 2) then f
  else if Qlt_le_dec (1 # 2) r then f + 1
  else if Z.even f then f else f + 1.

Definition round4 (x : Q) : Q := round_half_even (x * 10000) # 10000.

Definition compute_section_novelty (section_script : list line)
    (covered_points : list str) : Q :=
  let t := _script_text section_script in
  if negb (nonempty t) then 0%Q
  else match covered_points with
       | [] => 1%Q
       | _ => round4 (py_max 0 (1 - _max_similarity_to_points t covered_points))
       end.

(** [rewrite_section_to_reduce_overlap]: [answer] is what the model call
    yields, [None] when it raises; the code returns [rewritten or section_script]
    and the section itself on an exception. *)
Definition rewrite_section_to_reduce_overlap (answer : option (list line))
    (section_script : list line) : list line :=
  match answer with
  | Some (l :: rest) => l :: rest
  | Some [] => section_script
  | None => section_script
  end.

(** ** _clean_script_items *)

(** An element of the parsed model answer: anything that is not an object,
    or an object whose ["text"] is a [str] ([Some]) or is absent or of
    another type ([None]). *)
Inductive raw_item :=
| NotDict
| Item (text : option str).

Definition clean_item (item : raw_item) : option line :=
  match item with
  | Item (Some t) =>
      if nonempty (strip t) then Some (mk_line (lit "A") (strip t)) else None
  | _ => None
  end.

Definition _clean_script_items (script : list raw_item) : list line :=
  omap clean_item script.

(** A script line as the element of a parsed answer that it is when the
    script is serialized and read back. *)
Definition as_raw (l : line) : raw_item := Item (Some (text l)).

(** ** Question endings *)

Definition question_suffixes : list str :=
  [ [12391; 12375; 12423; 12358; 12363]%N;
    [12414; 12377; 12363]%N;
    [12391; 12377; 12363]%N;
    [12384; 12429; 12358; 12363]%N;
    [12394; 12398; 12363]%N;
    [12363]%N ].

(** [re.search(r"(a|b|...)$", value)] on a [value] that does not end in a
    newline: some start position leaves one of the alternatives up to the
    end of the string. *)
Fixpoint search_suffix (alts : list str) (value : str) : bool :=
  match value with
  | [] => false
  | _ :: rest => bool_decide (value ∈ alts) || search_suffix alts rest
  end.

(** [re.sub(r"(a|b|...)$", "", value)] on such a [value]: the match at the
    leftmost start position is removed. *)
Fixpoint sub_suffix (alts : list str) (value : str) : str :=
  match value with
  | [] => []
  | c :: rest => if bool_decide (value ∈ alts) then [] else c :: sub_suffix alts rest
  end.

(** [re.sub(r"[...]+$", "", value)] for the character class [in_class]: the
    longest run of the class that ends the string is removed. *)
Fixpoint sub_trailing (in_class : char -> bool) (value : str) : str :=
  match value with
  | [] => []
  | c :: rest => if forallb in_class value then [] else c :: sub_trailing in_class rest
  end.

Definition is_question_mark (c : char) : bool := ((c =? 63) || (c =? 65311))%N.

Definition _looks_question_ending (text : str) : bool :=
  let value := strip text in
  if negb (nonempty value) then false
  else if endswith value (lit "?") || endswith value [65311%N] then true
  else search_suffix question_suffixes value.

Definition closing_statement : str :=
  [20197; 19978; 12434; 36367; 12414; 12360; 12390; 12289; 27425; 12398; 23455;
   21209; 21028; 26029; 12395; 12388; 12394; 12370; 12414; 12377; 12290]%N.

Definition _to_statement_ending (text : str) : str :=
  let value := strip text in
  if negb (nonempty value) then value
  else
    let value := strip (sub_trailing is_question_mark value) in
    let value := strip (sub_suffix question_suffixes value) in
    if negb (nonempty value) then closing_statement
    else if endswith_any value [[12290%N]; [65281%N]; lit "!"; [8230%N]] then value
    else value ++ [12290%N].

(** The [for i in range(len(out) - 1, -1, -1)] loop, on the reversed list. *)
Fixpoint restate_last (reversed : list line) : list line :=
  match reversed with
  | [] => []
  | l :: rest =>
      let t := strip (text l) in
      if negb (nonempty t) then l :: restate_last rest
      else if _looks_question_ending t
           then mk_line (lit "A") (_to_statement_ending t) :: rest
           else l :: rest
  end.

Definition _ensure_last_line_not_question (script : list line) : list line :=
  rev (restate_last (rev script)).

(** The two lines returned when the generation of the conclusion raises. *)
Definition conclusion_fallback : list line :=
  [ mk_line (lit "A")
      [32080; 35542; 12392; 12375; 12390; 12289; 20027; 38988; 12399; 20491; 21029;
       35201; 32032; 12391; 12399; 12394; 12367; 22240; 26524; 12398; 36899; 37782;
       12392; 12375; 12390; 25417; 12360; 12427; 12409; 12365; 12391; 12377; 12290]%N;
    mk_line (lit "A")
      [21069; 25552; 12392; 24433; 38911; 12434; 20998; 12369; 12390; 35211; 12427;
       12392; 12289; 23455; 21209; 21028; 26029; 12398; 31934; 24230; 12364; 19978;
       12364; 12426; 12414; 12377; 12290]%N ].

(** [generate_conclusion] after the model calls: [chunk] is the result of
    [_generate_script_chunk], [None] when it raises. *)
Definition generate_conclusion (chunk : option (list line)) : list line :=
  match chunk with
  | Some conclusion => _ensure_last_line_not_question conclusion
  | None => conclusion_fallback
  end.

(** The last line of a script that has any text to speak. *)
Definition last_spoken (script : list line) : option line :=
  head (filter (fun l => strip (text l) ≠ []) (rev script)).

(** ** Character budget *)

Definition count_script_chars_text_only (script : list line) : Z :=
  foldl (fun total item => total + Z.of_nat (length (text item))) 0 script.

Record budget := {
  b_target_chars : Z;
  b_min_chars : Z;
  b_max_chars : Z;
  b_max_lines : Z;
  b_max_chars_per_line : Z
}.

(** [_char_budget_constraints]. The quotients that go through [round] are
    exact rationals here; the [float] quotient of two [int]s below 2^52 is
    on the same side of every half-integer. *)
Definition _char_budget_constraints (target_chars : option Z)
    (min_chars max_chars : Z) : budget :=
  let max_chars := Z.max min_chars max_chars in
  let default_target := round_half_even ((min_chars + max_chars) # 2) in
  let target := match target_chars with Some t => t | None => default_target end in
  let target := Z.max min_chars (Z.min max_chars target) in
  let max_lines := Z.max 6 (Z.min 20 (round_half_even (target # 80))) in
  let max_chars_per_line :=
    Z.max 28 (Z.min 180 (round_half_even
                           (inject_Z max_chars / inject_Z (Z.max max_lines 1)))) in
  {| b_target_chars := target; b_min_chars := min_chars; b_max_chars := max_chars;
     b_max_lines := max_lines; b_max_chars_per_line := max_chars_per_line |}.

(** The loop of [_truncate_script_to_char_budget]; each [break] returns
    [out] as it is. *)
Fixpoint budget_loop (max_chars_per_line target_chars : Z) (items : list line)
    (consumed : Z) (out : list line) : list line :=
  match items with
  | [] => out
  | item :: rest =>
      let text := strip (text item) in
      if negb (nonempty text)
      then budget_loop max_chars_per_line target_chars rest consumed out
      else
        let text := strip (py_take max_chars_per_line text) in
        let remain := Z.max 0 (target_chars - consumed) in
        if decide (remain <= 0) then out
        else
          let text := strip (py_take remain text) in
          if negb (nonempty text) then out
          else
            let consumed := consumed + Z.of_nat (length text) in
            let out := out ++ [mk_line (speaker item) text] in
            if decide (target_chars <= consumed) then out
            else budget_loop max_chars_per_line target_chars rest consumed out
  end.

Definition _truncate_script_to_char_budget (script : list line)
    (max_lines max_chars_per_line target_chars : Z) : list line :=
  match script with
  | [] => script
  | _ =>
      match budget_loop max_chars_per_line target_chars
              (py_take (Z.max 1 max_lines) script) 0 [] with
      | [] => py_take 1 script
      | out => out
      end
  end.

(** [_apply_char_budget_guardrail]: [rewritten] is what
    [_rewrite_script_for_char_budget] returns for the script, [None] when it
    raises; it is asked only when the script is out of budget. *)
Definition _apply_char_budget_guardrail (rewritten : option (list line))
    (script : list line) (target_chars : option Z) (min_chars max_chars : Z)
  : list line :=
  let budget := _char_budget_constraints target_chars min_chars max_chars in
  let actual := count_script_chars_text_only script in
  let script :=
    if decide (b_target_chars budget < actual ∨ actual < b_min_chars budget)
    then match rewritten with
         | Some (l :: rest) => l :: rest
         | _ => script
         end
    else script in
  _truncate_script_to_char_budget script (b_max_lines budget)
    (b_max_chars_per_line budget) (b_target_chars budget).

(** A script as [_clean_script_items] leaves it: every text is stripped and
    not empty. *)
Definition clean (script : list line) : Prop :=
  Forall (fun l => text l ≠ [] ∧ trimmed (text l)) script.

(** What the loop keeps true of [out]: every line is a stripped non-empty
    text within the per-line bound. *)
Definition within (max_chars_per_line : Z) (out : list line) : Prop :=
  Forall (fun l => text l ≠ [] ∧ trimmed (text l) ∧
                   Z.of_nat (length (text l)) <= max_chars_per_line) out.

(** ** _recent_tail_lines, _stabilize_body_ending *)

(** The line boundaries of [str.splitlines]. *)
Definition is_linebreak (c : char) : bool :=
  ((10 <=? c) && (c <=? 13) || (28 <=? c) && (c <=? 30)
   || (c =? 133) || (c =? 8232) || (c =? 8233))%N.

(** The pieces between the code points of [sep]. Against [splitlines] this
    yields an extra empty piece after a final boundary and inside a
    carriage return and line feed pair; the loop below skips empty pieces. *)
Fixpoint split_at (sep : char -> bool) (cur : str) (s : str) : list str :=
  match s with
  | [] => [cur]
  | c :: rest =>
      if sep c then cur :: split_at sep [] rest else split_at sep (cur ++ [c]) rest
  end.

(** [value.split(":", 1)[1]] when [":" in value]. *)
Fixpoint after_colon (value : str) : option str :=
  match value with
  | [] => None
  | c :: rest => if (c =? 58)%N then Some rest else after_colon rest
  end.

(** One turn of the loop of [_recent_tail_lines]: the value appended, if any. *)
Definition tail_value (raw : str) : option str :=
  let value := strip raw in
  if negb (nonempty value) then None
  else
    let value := match after_colon value with
                 | Some rest => strip rest
                 | None => value
                 end in
    if nonempty value then Some value else None.

Definition _recent_tail_lines (prior_context : str) (limit : Z) : list str :=
  py_drop (- Z.max 1 limit) (omap tail_value (split_at is_linebreak [] prior_context)).

Definition _stabilize_body_ending (script : list line) (prior_context : str)
    (lookback_lines max_recent_question_endings : Z) : list line :=
  let recent := _recent_tail_lines prior_context lookback_lines in
  let recent_q :=
    Z.of_nat (length (filter (fun l => _looks_question_ending l = true) recent)) in
  if decide (max_recent_question_endings < recent_q)
  then _ensure_last_line_not_question script
  else script.

(** ** _extract_anchor_keywords *)

Inductive char_class := Alnum | KanaKanji | Other.

#[global] Instance char_class_eq_dec : EqDecision char_class.
Proof. solve_decision. Defined.

Definition class_of (c : char) : char_class :=
  if ((48 <=? c) && (c <=? 57) || (65 <=? c) && (c <=? 90)
      || (97 <=? c) && (c <=? 122))%N then Alnum
  else if ((12352 <=? c) && (c <=? 12543) || (13312 <=? c) && (c <=? 40959))%N
       then KanaKanji
       else Other.

(** A finished run is a match when it has two code points or more. *)
Definition flush (cur : str) : list str :=
  if decide (2 <= length cur)%nat then [cur] else [].

(** [re.findall] for the pattern of two alternatives, two or more ASCII
    letters and digits or two or more code points of U+3040..U+30FF and
    U+3400..U+9FFF:
    the maximal runs of one of the two classes, of length two at least.
    [cur] is the run being read and [k] its class. *)
Fixpoint runs (k : char_class) (cur : str) (s : str) : list str :=
  match s with
  | [] => flush cur
  | c :: rest =>
      let kc := class_of c in
      if decide (kc = Other) then flush cur ++ runs Other [] rest
      else if decide (kc = k) then runs k (cur ++ [c]) rest
      else flush cur ++ runs kc [c] rest
  end.

Definition findall_tokens (text : str) : list str := runs Other [] text.

Definition stop_words : list str :=
  [ [12371; 12392]%N; [12383; 12417]%N; [12424; 12358]%N; [12371; 12428]%N;
    [12381; 12428]%N; [12418; 12398]%N; [12391; 12377]%N; [12414; 12377]%N;
    [12377; 12427]%N; [12375; 12383]%N; [12375; 12390]%N; lit "topic"; lit "node" ].

Section Anchors.
(** [str.lower]. *)
Variable lower : str -> str.

(** The [for token in raw] loop. *)
Fixpoint keep_new (raw : list str) (seen : gset str) : list str :=
  match raw with
  | [] => []
  | token :: rest =>
      let key := lower token in
      if decide (key ∈ stop_words) then keep_new rest seen
      else if decide (key ∈ seen) then keep_new rest seen
      else token :: keep_new rest ({[ key ]} ∪ seen)
  end.

Definition _extract_anchor_keywords (node_title node_note : str) : list str :=
  let text := strip (node_title ++ lit " " ++ node_note) in
  py_take 8 (keep_new (findall_tokens text) ∅).

End Anchors.

(** All code points of a token are of one of the two classes. *)
Definition one_class (token : str) : Prop :=
  Forall (fun c => class_of c = Alnum) token ∨
  Forall (fun c => class_of c = KanaKanji) token.

End Generator.

(** * pipeline.py *)

Module Pipeline.
Import Generator.

(** ** Novelty guard of the body loop (lines 730-754) *)

(** The state the guard works on. [calls] counts the calls of
    [rewrite_section_to_reduce_overlap] made so far. *)
Record guard_state := {
  section_script : list line;
  novelty : Q;
  dedupe_rewrite_count : nat;
  calls : nat
}.

Section NoveltyGuard.
(** The model's answer to the [k]-th rewrite request. *)
Variable llm : nat -> option (list line).
Variable covered_points : list str.
Variable novelty_threshold : Q.

(** One turn of [for _ in range(2)]; [true] in the second component is the
    [break]. *)
Definition guard_turn (st : guard_state) : guard_state * bool :=
  let rewritten :=
    rewrite_section_to_reduce_overlap (llm (calls st)) (section_script st) in
  let st1 :=
    if decide (rewritten ≠ [] ∧ rewritten ≠ section_script st)
    then {| section_script := rewritten;
            novelty := compute_section_novelty rewritten covered_points;
            dedupe_rewrite_count := S (dedupe_rewrite_count st);
            calls := S (calls st) |}
    else {| section_script := section_script st;
            novelty := novelty st;
            dedupe_rewrite_count := dedupe_rewrite_count st;
            calls := S (calls st) |} in
  (st1, if Qlt_le_dec (novelty st1) novelty_threshold then false else true).

Fixpoint guard_loop (turns : nat) (st : guard_state) : guard_state :=
  match turns with
  | O => st
  | S turns' =>
      let '(st1, stop) := guard_turn st in
      if stop then st1 else guard_loop turns' st1
  end.

Definition novelty_guard (script : list line) (dedupe : nat) : guard_state :=
  let st0 := {| section_script := script;
                novelty := compute_section_novelty script covered_points;
                dedupe_rewrite_count := dedupe;
                calls := 0 |} in
  if Qlt_le_dec (novelty st0) novelty_threshold then guard_loop 2 st0 else st0.

(** What the rewrite requests of the loop returned, in order. *)
Fixpoint attempts (turns : nat) (st : guard_state) : list (list line) :=
  match turns with
  | O => []
  | S turns' =>
      let '(st1, stop) := guard_turn st in
      rewrite_section_to_reduce_overlap (llm (calls st)) (section_script st)
      :: (if stop then [] else attempts turns' st1)
  end.

Definition guard_attempts (script : list line) : list (list line) :=
  let st0 := {| section_script := script;
                novelty := compute_section_novelty script covered_points;
                dedupe_rewrite_count := 0;
                calls := 0 |} in
  if Qlt_le_dec (novelty st0) novelty_threshold then attempts 2 st0 else [].

End NoveltyGuard.

(** ** Transcript sections *)

Record section := {
  section_index : Z;
  section_title : str;
  chapter_id : option str;
  node_id : option str;
  status : str;
  lines : list line;
  audio_ms : option Z;
  sec_global_start_ms : option Z;
  sec_global_end_ms : option Z
}.

Definition set_status (s : str) (sec : section) : section :=
  {| section_index := section_index sec; section_title := section_title sec;
     chapter_id := chapter_id sec; node_id := node_id sec; status := s;
     lines := lines sec; audio_ms := audio_ms sec;
     sec_global_start_ms := sec_global_start_ms sec;
     sec_global_end_ms := sec_global_end_ms sec |}.

Definition set_lines (ls : list line) (sec : section) : section :=
  {| section_index := section_index sec; section_title := section_title sec;
     chapter_id := chapter_id sec; node_id := node_id sec; status := status sec;
     lines := ls; audio_ms := audio_ms sec;
     sec_global_start_ms := sec_global_start_ms sec;
     sec_global_end_ms := sec_global_end_ms sec |}.

Definition set_audio_ms (a : Z) (sec : section) : section :=
  {| section_index := section_index sec; section_title := section_title sec;
     chapter_id := chapter_id sec; node_id := node_id sec; status := status sec;
     lines := lines sec; audio_ms := Some a;
     sec_global_start_ms := sec_global_start_ms sec;
     sec_global_end_ms := sec_global_end_ms sec |}.

Definition set_global_span (a b : Z) (sec : section) : section :=
  {| section_index := section_index sec; section_title := section_title sec;
     chapter_id := chapter_id sec; node_id := node_id sec; status := status sec;
     lines := lines sec; audio_ms := audio_ms sec;
     sec_global_start_ms := Some a;
     sec_global_end_ms := Some b |}.

Definition set_local_timing (s e : Z) (l : line) : line :=
  {| speaker := speaker l; text := text l; start_ms := Some s; end_ms := Some e;
     global_start_ms := global_start_ms l; global_end_ms := global_end_ms l |}.

Definition set_global_timing (s e : Z) (l : line) : line :=
  {| speaker := speaker l; text := text l; start_ms := start_ms l;
     end_ms := end_ms l; global_start_ms := Some s; global_end_ms := Some e |}.

(** ** Completion of synthesis tasks: [_consume_completed_tts] *)

(** The entry of [pending_tts] for one future. [section_record] is a
    reference to the record appended to [transcript_sections]: its position
    in that list. *)
Record tts_meta := {
  m_section_index : Z;
  m_section_title : str;
  m_section_filename : str;
  m_section_path : str;
  m_section_record : nat;
  m_ready_stage_name : str
}.

(** What the task left in [stats_out], with the defaults of the [.get]
    calls applied. An element of [line_timings] that is not a dict is [None]. *)
Record stats_out := {
  cache_hits : Z;
  cache_misses : Z;
  line_timings_ready : bool;
  timings_deferred : bool;
  line_timings : option (list (option (Z * Z)));
  stat_audio_ms : Z
}.

(** How a future ended: [future.result()] raises, or returns with the
    output file present or not ([os.path.exists]). *)
Inductive tts_result :=
| TtsRaised
| TtsReturned (stats : stats_out) (file_exists : bool).

Definition completion : Type := nat * tts_result.

Record pstate := {
  pending_tts : gmap nat tts_meta;
  ready_chunks_by_index : gmap Z (str * str);
  ready_chunk_filenames : list str;
  ready_chunk_paths : list str;
  synthesized_sections : nat;
  tts_cache_hits : Z;
  tts_cache_misses : Z;
  intro_failed : bool;
  timings_ready : bool;
  transcript_sections : list section;
  metrics_ready_chunk_count : option nat;
  metrics_ready_audio_chunks : option (list str)
}.

(** [sorted(d.keys())]. *)
Definition sorted_keys {V} (d : gmap Z V) : list Z :=
  merge_sort Z.le (map fst (map_to_list d)).

(** [[d[k] for k in sorted(d.keys())]]. *)
Definition ordered_pairs (d : gmap Z (str * str)) : list (str * str) :=
  omap (fun k => d !! k) (sorted_keys d).

(** The [for i, t in enumerate(line_timings)] loop. *)
Fixpoint merge_line_timings (ls : list line) (ts : list (option (Z * Z)))
  : list line :=
  match ls, ts with
  | l :: ls', Some (s, e) :: ts' => set_local_timing s e l :: merge_line_timings ls' ts'
  | l :: ls', None :: ts' => l :: merge_line_timings ls' ts'
  | ls, [] => ls
  | [], _ => []
  end.

(** The writes to [meta["section_record"]] on success. *)
Definition mark_ready (st : stats_out) (sec : section) : section :=
  let sec1 := set_status (lit "ready") sec in
  let sec2 := match line_timings st with
              | Some ts => set_lines (merge_line_timings (lines sec1) ts) sec1
              | None => sec1
              end in
  if decide (0 < stat_audio_ms st) then set_audio_ms (stat_audio_ms st) sec2 else sec2.

Definition alter_at {A} (f : A -> A) (i : nat) (l : list A) : list A :=
  match l !! i with
  | Some x => <[i := f x]> l
  | None => l
  end.

Definition with_intro_failed (st : pstate) : pstate :=
  {| pending_tts := pending_tts st;
     ready_chunks_by_index := ready_chunks_by_index st;
     ready_chunk_filenames := ready_chunk_filenames st;
     ready_chunk_paths := ready_chunk_paths st;
     synthesized_sections := synthesized_sections st;
     tts_cache_hits := tts_cache_hits st;
     tts_cache_misses := tts_cache_misses st;
     intro_failed := true;
     timings_ready := timings_ready st;
     transcript_sections := transcript_sections st;
     metrics_ready_chunk_count := metrics_ready_chunk_count st;
     metrics_ready_audio_chunks := metrics_ready_audio_chunks st |}.

Definition pop_pending (future : nat) (st : pstate) : pstate :=
  {| pending_tts := delete future (pending_tts st);
     ready_chunks_by_index := ready_chunks_by_index st;
     ready_chunk_filenames := ready_chunk_filenames st;
     ready_chunk_paths := ready_chunk_paths st;
     synthesized_sections := synthesized_sections st;
     tts_cache_hits := tts_cache_hits st;
     tts_cache_misses := tts_cache_misses st;
     intro_failed := intro_failed st;
     timings_ready := timings_ready st;
     transcript_sections := transcript_sections st;
     metrics_ready_chunk_count := metrics_ready_chunk_count st;
     metrics_ready_audio_chunks := metrics_ready_audio_chunks st |}.

(** Lines 565-571: the counters and flags read from [stats_out]. The
    provider and voice labels of lines 572-585 are reporting strings that
    nothing below reads; they are left out. *)
Definition absorb_stats (so : stats_out) (st : pstate) : pstate :=
  {| pending_tts := pending_tts st;
     ready_chunks_by_index := ready_chunks_by_index st;
     ready_chunk_filenames := ready_chunk_filenames st;
     ready_chunk_paths := ready_chunk_paths st;
     synthesized_sections := synthesized_sections st;
     tts_cache_hits := tts_cache_hits st + cache_hits so;
     tts_cache_misses := tts_cache_misses st + cache_misses so;
     intro_failed := intro_failed st;
     timings_ready :=
       if negb (line_timings_ready so) then false
       else if timings_deferred so then false
       else timings_ready st;
     transcript_sections := transcript_sections st;
     metrics_ready_chunk_count := metrics_ready_chunk_count st;
     metrics_ready_audio_chunks := metrics_ready_audio_chunks st |}.

(** Lines 591-621: the chunk becomes ready. *)
Definition publish_chunk (meta : tts_meta) (so : stats_out) (st : pstate) : pstate :=
  let section_index := m_section_index meta in
  let synthesized :=
    match ready_chunks_by_index st !! section_index with
    | None => S (synthesized_sections st)
    | Some _ => synthesized_sections st
    end in
  let sections := alter_at (mark_ready so) (m_section_record meta)
                    (transcript_sections st) in
  let by_index := <[section_index := (m_section_filename meta, m_section_path meta)]>
                    (ready_chunks_by_index st) in
  let pairs := ordered_pairs by_index in
  let filenames := map fst pairs in
  let paths := map snd pairs in
  {| pending_tts := pending_tts st;
     ready_chunks_by_index := by_index;
     ready_chunk_filenames := filenames;
     ready_chunk_paths := paths;
     synthesized_sections := synthesized;
     tts_cache_hits := tts_cache_hits st;
     tts_cache_misses := tts_cache_misses st;
     intro_failed := intro_failed st;
     timings_ready := timings_ready st;
     transcript_sections := sections;
     metrics_ready_chunk_count := Some (length filenames);
     metrics_ready_audio_chunks := Some filenames |}.

(** The body of [for future in done] for one future. The stage events and
    the wall-clock metrics ([ttfa_seconds], [intro_tts_seconds]) are
    write-only telemetry and are left out. *)
Definition consume_one (st : pstate) (c : completion) : pstate :=
  let '(future, res) := c in
  match pending_tts st !! future with
  | None => st
  | Some meta =>
      let st := pop_pending future st in
      match res with
      | TtsRaised =>
          if decide (m_section_index meta = 0) then with_intro_failed st else st
      | TtsReturned so file_exists =>
          let st := absorb_stats so st in
          if negb file_exists
          then (if decide (m_section_index meta = 0) then with_intro_failed st else st)
          else publish_chunk meta so st
      end
  end.

(** One call, for the futures of its [done] set in the order in which the
    loop visits them. *)
Definition _consume_completed_tts (done : list completion) (st : pstate) : pstate :=
  foldl consume_one st done.

(** [_submit_tts_task], and the registration of the intro future: a new
    entry of [pending_tts]. *)
Definition _submit_tts_task (future : nat) (meta : tts_meta) (st : pstate) : pstate :=
  {| pending_tts := <[future := meta]> (pending_tts st);
     ready_chunks_by_index := ready_chunks_by_index st;
     ready_chunk_filenames := ready_chunk_filenames st;
     ready_chunk_paths := ready_chunk_paths st;
     synthesized_sections := synthesized_sections st;
     tts_cache_hits := tts_cache_hits st;
     tts_cache_misses := tts_cache_misses st;
     intro_failed := intro_failed st;
     timings_ready := timings_ready st;
     transcript_sections := transcript_sections st;
     metrics_ready_chunk_count := metrics_ready_chunk_count st;
     metrics_ready_audio_chunks := metrics_ready_audio_chunks st |}.

(** The values of lines 280-283 and 362-373 before any task is submitted. *)
Definition initial (sections : list section) : pstate :=
  {| pending_tts := ∅;
     ready_chunks_by_index := ∅;
     ready_chunk_filenames := [];
     ready_chunk_paths := [];
     synthesized_sections := 0;
     tts_cache_hits := 0;
     tts_cache_misses := 0;
     intro_failed := false;
     timings_ready := true;
     transcript_sections := sections;
     metrics_ready_chunk_count := None;
     metrics_ready_audio_chunks := None |}.

(** What the job does with the synthesis tasks: submissions and drained
    completions, interleaved as the run has them. *)
Inductive step :=
| Submit (future : nat) (meta : tts_meta)
| Complete (future : nat) (res : tts_result).

Definition run_step (st : pstate) (s : step) : pstate :=
  match s with
  | Submit future meta => _submit_tts_task future meta st
  | Complete future res => consume_one st (future, res)
  end.

Definition run_steps (steps : list step) (st : pstate) : pstate :=
  foldl run_step st steps.

(** What ends the job after the drain: a [RuntimeError] of the pipeline or
    of [combine_audio_files], or whatever [sf.write] raises. *)
Inductive job_error :=
| RuntimeError (msg : str)
| SoundFileError.

(** The part of the final [metrics] that depends on the synthesis tasks. *)
Record final_metrics := {
  fm_intro_failed : bool;
  fm_ready_audio_chunks : list str;
  fm_synthesized_sections : nat;
  fm_playable_from_chunks : bool;
  fm_final_audio_ready : bool
}.

Definition with_fm_intro_failed (b : bool) (m : final_metrics) : final_metrics :=
  {| fm_intro_failed := b;
     fm_ready_audio_chunks := fm_ready_audio_chunks m;
     fm_synthesized_sections := fm_synthesized_sections m;
     fm_playable_from_chunks := fm_playable_from_chunks m;
     fm_final_audio_ready := fm_final_audio_ready m |}.

(** What finalization meets on disk. [read_sr path] is the sample rate that
    [sf.read(path)] returns, [None] when the read raises; [write_raises]
    tells whether [sf.write] raises, [output_exists] whether the output file
    is there afterwards ([os.path.exists(output_path)]). *)
Record audio_disk := {
  read_sr : str -> option Z;
  write_raises : bool;
  output_exists : bool
}.

(** [str(n)] of an [int]. *)
Definition str_of_Z (n : Z) : str :=
  lit (DecimalString.NilZero.string_of_int (Z.to_int n)).

(** [tts_base.combine_audio_files], the loop over [input_paths]: a path
    that cannot be read is skipped, the first readable one fixes [out_sr],
    another rate raises. The samples themselves are not modelled, [segments]
    counts them. *)
Fixpoint combine_loop (disk : audio_disk) (input_paths : list str)
    (out_sr : option Z) (segments : nat) : job_error + (option Z * nat) :=
  match input_paths with
  | [] => inr (out_sr, segments)
  | path :: rest =>
      match read_sr disk path with
      | None => combine_loop disk rest out_sr segments
      | Some sr =>
          let out_sr := match out_sr with None => sr | Some r => r end in
          if decide (sr ≠ out_sr)
          then inl (RuntimeError
                      (lit "Sample rate mismatch while combining audio: "
                       ++ str_of_Z sr ++ lit " != " ++ str_of_Z out_sr))
          else combine_loop disk rest (Some out_sr) (S segments)
      end
  end.

(** [None]: the call returns. *)
Definition combine_audio_files (disk : audio_disk) (input_paths : list str)
  : option job_error :=
  match combine_loop disk input_paths None 0 with
  | inl e => Some e
  | inr (out_sr, segments) =>
      if decide (segments = 0%nat ∨ out_sr = None)
      then Some (RuntimeError (lit "No audio segments to combine."))
      else if write_raises disk then Some SoundFileError else None
  end.

(** Lines 948-1020, after the drain. The job raises when no chunk is ready;
    with [FINALIZE_AUDIO_DEFERRED] off ([defer_finalize = false]) it also
    raises when [combine_audio_files] does or leaves no output file. With
    the flag on (the default) finalization runs in a thread of its own that
    catches every exception. The stage callback [on_stage] is the caller's
    and is taken not to raise. *)
Definition finish (defer_finalize : bool) (disk : audio_disk) (st : pstate)
  : job_error + final_metrics :=
  match ready_chunk_paths st with
  | [] => inl (RuntimeError (lit "No synthesized audio chunks were produced."))
  | _ =>
      let metrics final_audio_ready :=
        {| fm_intro_failed := intro_failed st;
           fm_ready_audio_chunks := ready_chunk_filenames st;
           fm_synthesized_sections := synthesized_sections st;
           fm_playable_from_chunks :=
             match ready_chunk_filenames st with [] => false | _ => true end;
           fm_final_audio_ready := final_audio_ready |} in
      if defer_finalize then inr (metrics false)
      else
        match combine_audio_files disk (ready_chunk_paths st) with
        | Some e => inl e
        | None =>
            if output_exists disk then inr (metrics true)
            else inl (RuntimeError
                        (lit "Audio finalize step did not create output file."))
        end
  end.

(** How a job that ends in error [e] came to it: the finalization of the
    ready chunks, not a lack of chunks. *)
Definition finalize_error (disk : audio_disk) (st : pstate) (e : job_error) : Prop :=
  combine_audio_files disk (ready_chunk_paths st) = Some e ∨
  (output_exists disk = false ∧
   e = RuntimeError (lit "Audio finalize step did not create output file.")).

(** A step is a failed synthesis of section [k]: the future of a pending
    task for [k] raised, or returned without its output file. *)
Definition failure_of (st : pstate) (s : step) (k : Z) : Prop :=
  match s with
  | Complete future TtsRaised
  | Complete future (TtsReturned _ false) =>
      exists meta, pending_tts st !! future = Some meta ∧ m_section_index meta = k
  | _ => False
  end.

(** ** Global timing reconstruction (lines 1066-1090) *)

Definition int_or_0 (v : option Z) : Z := default 0 v.

(** The inner [for line in lines] loop; the accumulator is [max_end]. *)
Fixpoint time_lines (cursor_ms max_end : Z) (ls : list line) : Z * list line :=
  match ls with
  | [] => (max_end, [])
  | l :: rest =>
      let start := int_or_0 (start_ms l) in
      let end_ := int_or_0 (end_ms l) in
      let max_end := if decide (max_end < end_) then end_ else max_end in
      let l' := set_global_timing (cursor_ms + start) (cursor_ms + Z.max end_ start) l in
      let '(m, rest') := time_lines cursor_ms max_end rest in
      (m, l' :: rest')
  end.

(** One turn of [for sec in ordered_sections]: the section as written and
    the new [cursor_ms]. *)
Definition time_section (cursor_ms : Z) (sec : section) : section * Z :=
  let sec_audio_ms := int_or_0 (audio_ms sec) in
  let '(max_end, ls) := time_lines cursor_ms 0 (lines sec) in
  let sec_len := if decide (0 < sec_audio_ms) then sec_audio_ms else max_end in
  (set_global_span cursor_ms (cursor_ms + Z.max sec_len 0) (set_lines ls sec),
   cursor_ms + Z.max sec_len 0).

Fixpoint time_sections (cursor_ms : Z) (secs : list section) : list section :=
  match secs with
  | [] => []
  | sec :: rest =>
      let '(sec', cursor') := time_section cursor_ms sec in
      sec' :: time_sections cursor' rest
  end.

Definition index_le (a b : section) : Prop := section_index a <= section_index b.

#[global] Instance index_le_dec : RelDecision index_le.
Proof. intros a b. unfold index_le. apply _. Defined.

(** [sorted(transcript_sections, key=section_index)]. *)
Definition ordered_sections (transcript_sections : list section) : list section :=
  merge_sort index_le transcript_sections.

Definition global_timing (transcript_sections : list section) : list section :=
  time_sections 0 (ordered_sections transcript_sections).

(** *** Specification-side readings *)

(** The largest local [end_ms] of a section, 0 at least. *)
Definition max_local_end (ls : list line) : Z :=
  foldr (fun l m => Z.max (int_or_0 (end_ms l)) m) 0 ls.

(** The span described for a section: the larger of the last local end and
    the recorded audio duration. *)
Definition described_span (sec : section) : Z :=
  Z.max (max_local_end (lines sec)) (int_or_0 (audio_ms sec)).

(** The span the loop uses: the audio duration when one is recorded. *)
Definition span (sec : section) : Z :=
  if decide (0 < int_or_0 (audio_ms sec)) then int_or_0 (audio_ms sec)
  else max_local_end (lines sec).

(** Local and global time stamps of lines, in reading order. *)
Definition local_stamps (ls : list line) : list Z :=
  flat_map (fun l => [int_or_0 (start_ms l); int_or_0 (end_ms l)]) ls.

Definition global_stamps (secs : list section) : list Z :=
  flat_map (fun sec =>
    flat_map (fun l => [int_or_0 (global_start_ms l); int_or_0 (global_end_ms l)])
             (lines sec)) secs.

(** Local timings that are themselves in order and inside the section. *)
Definition locally_ordered (sec : section) : Prop :=
  StronglySorted Z.le (0 :: local_stamps (lines sec)) ∧
  (0 < int_or_0 (audio_ms sec) ->
   Forall (fun l => int_or_0 (end_ms l) <= int_or_0 (audio_ms sec)) (lines sec)).

(** A section whose lines lie inside its span: no local start before 0,
    no local start or end after the span (an absent timing reads as 0). *)
Definition inside (sec : section) : Prop :=
  Forall (fun l => 0 <= int_or_0 (start_ms l) ∧
                   Z.max (int_or_0 (end_ms l)) (int_or_0 (start_ms l)) <= span sec)
         (lines sec).

(** Every line is untimed or has [0 <= start_ms <= end_ms], and no [end_ms]
    lies beyond a positive recorded [audio_ms]; any line may lack its
    timing. *)
Definition well_timed (sec : section) : Prop :=
  Forall (fun l => 0 <= int_or_0 (start_ms l) <= int_or_0 (end_ms l)) (lines sec) ∧
  (0 < int_or_0 (audio_ms sec) ->
   Forall (fun l => int_or_0 (end_ms l) <= int_or_0 (audio_ms sec)) (lines sec)).

(** The local stamps that the loop adds to the cursor: the end of a line is
    never taken before its start. *)
Definition effective_stamps (ls : list line) : list Z :=
  flat_map (fun l => [int_or_0 (start_ms l);
                      Z.max (int_or_0 (end_ms l)) (int_or_0 (start_ms l))]) ls.

Definition total_span (secs : list section) : Z :=
  foldr (fun sec acc => span sec + acc) 0 secs.

Definition section_stamps (secs : list section) : list Z :=
  flat_map (fun sec => [int_or_0 (sec_global_start_ms sec);
                        int_or_0 (sec_global_end_ms sec)]) secs.

(** The lines of a section as the inner loop leaves them. *)
Definition timed_lines (c : Z) (ls : list line) : list line :=
  map (fun l => set_global_timing (c + int_or_0 (start_ms l))
                  (c + Z.max (int_or_0 (end_ms l)) (int_or_0 (start_ms l))) l) ls.

Definition line_stamps (ls : list line) : list Z :=
  flat_map (fun l => [int_or_0 (global_start_ms l); int_or_0 (global_end_ms l)]) ls.

(** The two ready lists are the index-sorted reading of the map, and the
    list in [metrics] is the list of file names. *)
Definition in_step (st : pstate) : Prop :=
  ready_chunk_filenames st = map fst (ordered_pairs (ready_chunks_by_index st)) ∧
  ready_chunk_paths st = map snd (ordered_pairs (ready_chunks_by_index st)) ∧
  from_option (fun l => l = ready_chunk_filenames st) True
    (metrics_ready_audio_chunks st).

(** *** Inputs of the examples *)

(** A model that first extends the section by one letter and then gives
    back the covered text. *)
Definition replay (k : nat) : option (list line) :=
  match k with
  | 0%nat => Some [mk_line (lit "A") (lit "abcdefg")]
  | 1%nat => Some [mk_line (lit "A") (lit "abcdef")]
  | _ => None
  end.

Definition untimed (t : string) : line := mk_line (lit "A") (lit t).

Definition timed (t : string) (s e : Z) : line :=
  {| speaker := lit "A"; text := lit t; start_ms := Some s; end_ms := Some e;
     global_start_ms := None; global_end_ms := None |}.

Definition new_section (i : Z) (ls : list line) (a : option Z) : section :=
  {| section_index := i; section_title := lit "Introduction"; chapter_id := None;
     node_id := None; status := lit "generated"; lines := ls; audio_ms := a;
     sec_global_start_ms := None; sec_global_end_ms := None |}.

Definition intro_meta : tts_meta :=
  {| m_section_index := 0; m_section_title := lit "Introduction";
     m_section_filename := lit "ai_intro.wav"; m_section_path := lit "out/ai_intro.wav";
     m_section_record := 0; m_ready_stage_name := lit "intro_ready" |}.

Definition body_meta (k : nat) (f : string) : tts_meta :=
  {| m_section_index := Z.of_nat k; m_section_title := lit "Body";
     m_section_filename := lit f; m_section_path := lit "out/" ++ lit f;
     m_section_record := k; m_ready_stage_name := lit "section_ready" |}.

Definition stats (ts : option (list (option (Z * Z)))) (a : Z) : stats_out :=
  {| cache_hits := 0; cache_misses := 1; line_timings_ready := true;
     timings_deferred := false; line_timings := ts; stat_audio_ms := a |}.

(** Environments: a section minimum above the maximum; a maximum beyond
    the exact range of floats; bounds too large for a float. *)
Definition swapped_env (name : str) : option Z :=
  if decide (name = lit "SCRIPT_SECTION_MIN_CHARS") then Some 900
  else if decide (name = lit "SCRIPT_SECTION_MAX_CHARS") then Some 100
  else None.

Definition wide_env (name : str) : option Z :=
  if decide (name = lit "SCRIPT_SECTION_MIN_CHARS") then Some 0
  else if decide (name = lit "SCRIPT_SECTION_MAX_CHARS") then Some (2 ^ 53 + 3)
  else None.

Definition huge_env (name : str) : option Z :=
  if decide (name = lit "SCRIPT_SECTION_MAX_CHARS") then Some (2 ^ 1025) else None.

(** A first section whose only line ends after the recorded audio does. *)
Definition line_beyond_audio : list section :=
  [ new_section 0 [timed "a" 0 500] (Some 100);
    new_section 1 [timed "b" 0 300] None ].

(** Transcripts in which the provider gave no timing for one line of the
    first section: the first line, or the last. *)
Definition leading_untimed_line : list section :=
  [ new_section 1 [untimed "d"; untimed "e"] None;
    new_section 0 [untimed "a"; timed "b" 0 500; timed "c" 500 900] (Some 1400) ].

Definition trailing_untimed_line : list section :=
  [ new_section 0 [timed "a" 0 500; timed "b" 500 900; untimed "c"] (Some 1400);
    new_section 1 [timed "d" 0 300] None ].

(** Chunk files that all read at 24 kHz, and a disk on which the chunk of
    section 1 has another rate. *)
Definition silent_disk : audio_disk :=
  {| read_sr := fun _ => Some 24000; write_raises := false; output_exists := true |}.

Definition mixed_rate_disk : audio_disk :=
  {| read_sr := fun path =>
       if decide (path = lit "out/ai_sec01.wav") then Some 22050 else Some 24000;
     write_raises := false; output_exists := true |}.

(** ** Coverage memory (lines 762-766) *)

(** [for point in list(delta.get("new_points") or [])[:2]]: a point is
    recorded, stripped, when it is not blank and not yet covered. *)
Definition cover_point (covered_points : list str) (point : str) : list str :=
  let s := strip point in
  if nonempty s && bool_decide (s ∉ covered_points)
  then covered_points ++ [s] else covered_points.

Definition cover_points (new_points covered_points : list str) : list str :=
  foldl cover_point covered_points (take 2 new_points).

(** ** _safe_stem *)

Definition is_stem_char (c : char) : bool :=
  ((97 <=? c) && (c <=? 122) || (65 <=? c) && (c <=? 90)
   || (48 <=? c) && (c <=? 57) || (c =? 95) || (c =? 45))%N.

(** [re.sub(r"[^a-zA-Z0-9_-]+", "_", s)]: [in_run] tells that the previous
    code point was outside the class, so that a run yields one underscore. *)
Fixpoint sub_unsafe (in_run : bool) (s : str) : str :=
  match s with
  | [] => []
  | c :: s' =>
      if is_stem_char c then c :: sub_unsafe false s'
      else if in_run then sub_unsafe true s' else 95%N :: sub_unsafe true s'
  end.

Definition _safe_stem (text : str) : str :=
  let cleaned := sub_unsafe false (strip text) in
  match py_take 40 cleaned with
  | [] => lit "podcast"
  | stem => stem
  end.

(** ** _section_char_budget, _intro_char_budget *)

Record char_budget := { min_chars : Z; max_chars : Z; target_chars : Z }.

(** [_env_int(name, default)]. [env name] is the value of the variable as
    [int] reads it, [None] when the variable is unset or [int] raises. *)
Definition _env_int (env : str -> option Z) (name : str) (default : Z) : Z :=
  match env name with Some v => v | None => default end.

(** [int(n / 2)] for an [int] [n]. The true division yields the float
    nearest to the quotient (53 bits of mantissa, ties to the even one) and
    raises [OverflowError] when that float is not finite; [int] then
    truncates towards zero. Below [2 ^ 53] the quotient is exact. [None] is
    the [OverflowError]. *)
Definition int_half (n : Z) : option Z :=
  let m := Z.abs n in
  if decide (m < 2 ^ 53) then Some (Z.quot n 2)
  else
    let sh := Z.log2 m - 52 in
    let r := round_half_even (m # Z.to_pos (2 ^ sh)) * 2 ^ (sh - 1) in
    if decide (r < 2 ^ 1024) then Some (Z.sgn n * r) else None.

(** The default of the target is computed before [_env_int] is called, so
    that its [OverflowError] is raised whether or not the variable is set. *)
Definition _section_char_budget (env : str -> option Z) : option char_budget :=
  let min_chars := _env_int env (lit "SCRIPT_SECTION_MIN_CHARS") 300 in
  let max_chars := _env_int env (lit "SCRIPT_SECTION_MAX_CHARS") 750 in
  let max_chars := if decide (max_chars < min_chars) then min_chars else max_chars in
  match int_half (min_chars + max_chars) with
  | None => None
  | Some mean =>
      let target_chars := _env_int env (lit "SCRIPT_SECTION_TARGET_CHARS") mean in
      let target_chars := Z.max min_chars (Z.min max_chars target_chars) in
      Some {| min_chars := min_chars; max_chars := max_chars;
              target_chars := target_chars |}
  end.

Definition _intro_char_budget (env : str -> option Z) : option char_budget :=
  let min_chars := _env_int env (lit "SCRIPT_INTRO_MIN_CHARS") 500 in
  let max_chars := _env_int env (lit "SCRIPT_INTRO_MAX_CHARS") 750 in
  let max_chars := if decide (max_chars < min_chars) then min_chars else max_chars in
  match int_half (min_chars + max_chars) with
  | None => None
  | Some mean =>
      let target_chars := _env_int env (lit "SCRIPT_INTRO_TARGET_CHARS") mean in
      let target_chars := Z.max min_chars (Z.min max_chars target_chars) in
      Some {| min_chars := min_chars; max_chars := max_chars;
              target_chars := target_chars |}
  end.

(** The variables the two budgets read. *)
Definition budget_variables : list str :=
  [ lit "SCRIPT_SECTION_MIN_CHARS"; lit "SCRIPT_SECTION_MAX_CHARS";
    lit "SCRIPT_SECTION_TARGET_CHARS"; lit "SCRIPT_INTRO_MIN_CHARS";
    lit "SCRIPT_INTRO_MAX_CHARS"; lit "SCRIPT_INTRO_TARGET_CHARS" ].

(** An environment whose budget variables, where set, are below [2 ^ 52] in
    absolute value: the range in which the float quotients taken of them by
    the pipeline and by [_char_budget_constraints] are exact, or are cut
    off by the clamps that follow. *)
Definition moderate (env : str -> option Z) : Prop :=
  Forall (fun name => from_option (fun v => Z.abs v < 2 ^ 52) True (env name))
         budget_variables.

(** A budget that the generator's clamp leaves as it is. *)
Definition stable_budget (b : char_budget) : Prop :=
  let g := Generator._char_budget_constraints (Some (target_chars b))
             (min_chars b) (max_chars b) in
  min_chars b <= target_chars b <= max_chars b ∧
  Generator.b_target_chars g = target_chars b ∧
  Generator.b_min_chars g = min_chars b ∧
  Generator.b_max_chars g = max_chars b.

(** What synthesis must not touch: index, title and the spoken lines. *)
Definition script_view (sec : section) : Z * str * list (str * str) :=
  (section_index sec, section_title sec, map (fun l => (speaker l, text l)) (lines sec)).

(** ** Views used to state what the timing pass leaves alone *)

Definition without_global_line (l : line) : line :=
  {| speaker := speaker l; text := text l; start_ms := start_ms l; end_ms := end_ms l;
     global_start_ms := None; global_end_ms := None |}.

Definition without_global (sec : section) : section :=
  {| section_index := section_index sec; section_title := section_title sec;
     chapter_id := chapter_id sec; node_id := node_id sec; status := status sec;
     lines := map without_global_line (lines sec); audio_ms := audio_ms sec;
     sec_global_start_ms := None; sec_global_end_ms := None |}.

(** The counters that report ready chunks agree with the ready map. *)
Definition counts_agree (st : pstate) : Prop :=
  synthesized_sections st = size (ready_chunks_by_index st) ∧
  length (ready_chunk_filenames st) = size (ready_chunks_by_index st) ∧
  length (ready_chunk_paths st) = size (ready_chunks_by_index st) ∧
  from_option (fun n => n = size (ready_chunks_by_index st)) True
    (metrics_ready_chunk_count st).

(** A task reports that its per-line timings are missing or deferred. *)
Definition lacks_timings (so : stats_out) : bool :=
  negb (line_timings_ready so) || timings_deferred so.

End Pipeline.

(** * pipeline.py: the chapters of an agenda *)

Module PipelineChapters.
Import Planner.

(** ** _agenda_node_map, _ordered_chapters *)

(** [_agenda_node_map]: the last node wins for an id that occurs twice. *)
Definition _agenda_node_map (nodes : list node) : gmap str node :=
  foldl (fun m n => <[id n := n]> m) ∅ nodes.

(** The keys of the dict in insertion order: each id where it first occurs. *)
Fixpoint first_occurrences (seen : list str) (ks : list str) : list str :=
  match ks with
  | [] => []
  | k :: rest =>
      if decide (k ∈ seen) then first_occurrences seen rest
      else k :: first_occurrences (k :: seen) rest
  end.

(** [node_by_id.values()]. *)
Definition node_values (nodes : list node) : list node :=
  omap (fun k => _agenda_node_map nodes !! k) (first_occurrences [] (map id nodes)).

(** One turn of the loop over the chapters of the agenda: [None] is the
    [continue] for a chapter left without known node ids. *)
Definition keep_chapter (node_by_id : gmap str node) (i : nat) (c : chapter)
  : option chapter :=
  let idx := S i in
  let ids := filter (fun x => is_Some (node_by_id !! x)) (node_ids c) in
  match ids with
  | [] => None
  | _ =>
      Some {| chapter_id := if nonempty (chapter_id c) then chapter_id c else c_id idx;
              ch_title := if nonempty (ch_title c) then ch_title c
                          else [31532%N] ++ str_of_nat idx ++ [31456%N];
              node_ids := ids |}
  end.

(** A chapter rebuilt from a chunk of nodes. *)
Definition rebuild_chapter (i : nat) (chunk : list node) : chapter :=
  let idx := S i in
  let ids := map id (filter (fun n => id n ≠ []) chunk) in
  let titles := map (fun n => strip (title n)) (take 2 chunk) in
  let joined := join (lit " / ") (filter (fun t => t ≠ []) titles) in
  {| chapter_id := c_id idx;
     ch_title := [31532%N] ++ str_of_nat idx ++ [31456%N] ++ lit ": "
                 ++ (if nonempty joined then joined else lit "Main");
     node_ids := ids |}.

Definition _ordered_chapters (a : agenda) : list chapter :=
  let node_by_id := _agenda_node_map (nodes a) in
  let out := omap (fun x => x) (imap (keep_chapter node_by_id) (chapters a)) in
  match out with
  | _ :: _ => out
  | [] =>
      let ordered_nodes := omap (fun k => node_by_id !! k) (ordered_node_ids a) in
      let ordered_nodes :=
        match ordered_nodes with
        | [] => filter (fun n => title n ≠ []) (node_values (nodes a))
        | _ => ordered_nodes
        end in
      imap rebuild_chapter (merge_trailing (chunks_of_2 ordered_nodes))
  end.

End PipelineChapters.

(** * Properties *)

Module JobStoreFacts.
Import JobStore.

Lemma update_record_fields now a r :
  let r' := update_record now a r in
  job_id r' = job_id r ∧ topic r' = topic r ∧ created_at r' = created_at r ∧
  updated_at r' = now ∧
  status r' = default (status r) (a_status a) ∧
  stage r' = default (stage r) (a_stage a) ∧
  error r' = keep (error r) (a_error a) ∧
  result r' = keep (result r) (a_result a) ∧
  metrics r' = match a_metrics a with
               | Some m => dict_update (metrics r) m
               | None => metrics r
               end.
Proof.
  unfold update_record, if_given.
  destruct a as [[s|] [g|] [e|] [x|] [m|]]; simpl; by split_and!.
Qed.

Lemma dict_update_lookup {V} (d other : gmap str V) k :
  dict_update d other !! k
  = match other !! k with Some v => Some v | None => d !! k end.
Proof.
  unfold dict_update. rewrite lookup_union.
  destruct (other !! k), (d !! k); done.
Qed.

(** C9 (as amended): [update] changes only the fields it is given: a field
    whose argument is left out keeps its stored value, the identity fields
    of the record and every other job stay as they are; a given [metrics]
    argument is merged key by key at the top level of the stored mapping
    (its keys win, all other stored keys stay), not replaced. *)
Theorem update_is_partial_merge now jid a jobs r :
  jobs !! jid = Some r ->
  exists r',
    update now jid a jobs = Some (<[jid := r']> jobs, r') ∧
    job_id r' = job_id r ∧ topic r' = topic r ∧ created_at r' = created_at r ∧
    status r' = default (status r) (a_status a) ∧
    stage r' = default (stage r) (a_stage a) ∧
    error r' = keep (error r) (a_error a) ∧
    result r' = keep (result r) (a_result a) ∧
    (forall k, metrics r' !! k
               = match a_metrics a with
                 | None => metrics r !! k
                 | Some m => match m !! k with
                             | Some v => Some v
                             | None => metrics r !! k
                             end
                 end) ∧
    (forall j, j ≠ jid -> <[jid := r']> jobs !! j = jobs !! j).
Proof.
  intros Hr. exists (update_record now a r).
  pose proof (update_record_fields now a r) as Hf. cbn zeta in Hf.
  destruct Hf as (? & ? & ? & _ & ? & ? & ? & ? & Hm).
  unfold update. rewrite Hr. split_and!; try done.
  - intros k. rewrite Hm. destruct (a_metrics a); [apply dict_update_lookup | done].
  - intros j Hj. by rewrite lookup_insert_ne.
Qed.

Lemma update_is_partial_merge_witness :
  exists r',
    update 7 (lit "j1")
      {| a_status := None; a_stage := Some (lit "extracting"); a_error := None;
         a_result := None; a_metrics := Some nested_upd |}
      {[ lit "j1" := nested_job ]}
    = Some (<[lit "j1" := r']> {[ lit "j1" := nested_job ]}, r') ∧
    status r' = lit "running" ∧ stage r' = lit "extracting" ∧ error r' = None.
Proof.
  destruct (update_is_partial_merge 7 (lit "j1")
              {| a_status := None; a_stage := Some (lit "extracting"); a_error := None;
                 a_result := None; a_metrics := Some nested_upd |}
              {[ lit "j1" := nested_job ]} nested_job)
    as (r' & Hu & _ & _ & _ & Hs & Hg & He & _).
  - apply lookup_singleton_eq.
  - exists r'. split_and!; [exact Hu | exact Hs | exact Hg | exact He].
Defined.

(** A nested mapping under a key of the update replaces the stored one:
    the stored [total_sections] is gone, which a deep merge would keep. *)
Lemma metrics_update_is_not_deep :
  let r' := update_record 7
              {| a_status := None; a_stage := None; a_error := None;
                 a_result := None; a_metrics := Some nested_upd |} nested_job in
  metrics r' !! lit "progress"
    = Some (PDict {[ lit "synthesized_sections" := PInt 1 ]}) ∧
  deep_merge 2 nested_old nested_upd !! lit "progress"
    = Some (PDict {[ lit "total_sections" := PInt 8;
                     lit "synthesized_sections" := PInt 1 ]}) ∧
  metrics r' ≠ deep_merge 2 (metrics nested_job) nested_upd.
Proof.
  cbn zeta. split_and!.
  - vm_compute. reflexivity.
  - vm_compute. reflexivity.
  - intros Heq. apply (f_equal (fun m => m !! lit "progress")) in Heq.
    vm_compute in Heq. discriminate Heq.
Qed.

(** *** Sequences of calls *)

Lemma apply_call_lookup jobs c jid r :
  jobs !! jid = Some r ->
  apply_call jobs c !! jid
  = Some (if decide (c_job c = jid) then update_record (c_now c) (c_args c) r else r).
Proof.
  intros Hr. unfold apply_call, update.
  destruct (decide (c_job c = jid)) as [->|Hne].
  - rewrite Hr. simpl. by rewrite lookup_insert_eq.
  - destruct (jobs !! c_job c); simpl; [by rewrite lookup_insert_ne | done].
Qed.

(** C10: [update] reads [None] as "leave unchanged" for every field, so
    after any series of [update] calls the job is still stored, an error or
    a result that was set is still set, status and stage hold the stored
    value or one that a call supplied, and the error itself is unchanged as
    long as no later call for that job supplies another one. *)
Theorem update_never_clears cs : forall jobs jid r,
  jobs !! jid = Some r ->
  exists r',
    apply_calls cs jobs !! jid = Some r' ∧
    (is_Some (error r) -> is_Some (error r')) ∧
    (is_Some (result r) -> is_Some (result r')) ∧
    status r' ∈ status r :: omap (fun c => a_status (c_args c)) cs ∧
    stage r' ∈ stage r :: omap (fun c => a_stage (c_args c)) cs ∧
    ((forall c, c ∈ cs -> c_job c = jid -> a_error (c_args c) = None) ->
     error r' = error r).
Proof.
  induction cs as [|c cs IH]; intros jobs jid r Hr.
  - exists r. simpl. split_and!; try done; by left.
  - pose proof (apply_call_lookup jobs c jid r Hr) as Hc.
    destruct (IH (apply_call jobs c) jid _ Hc) as (r' & Hl & He & Hx & Hs & Hg & Hk).
    exists r'. split; [exact Hl|].
    pose proof (update_record_fields (c_now c) (c_args c) r) as Hf. cbn zeta in Hf.
    destruct Hf as (_ & _ & _ & _ & Hfs & Hfg & Hfe & Hfx & _).
    split_and!.
    + intros Hsome. apply He. case_decide; [|done]. rewrite Hfe.
      destruct (a_error (c_args c)); simpl; eauto.
    + intros Hsome. apply Hx. case_decide; [|done]. rewrite Hfx.
      destruct (a_result (c_args c)); simpl; eauto.
    + simpl. case_decide.
      * rewrite Hfs in Hs. destruct (a_status (c_args c)) as [s|]; simpl in *.
        -- apply elem_of_cons in Hs as [->|Hs]; [right; left | do 2 right]; done.
        -- done.
      * destruct (a_status (c_args c)); [|done].
        apply elem_of_cons in Hs as [->|Hs]; [by left | by do 2 right].
    + simpl. case_decide.
      * rewrite Hfg in Hg. destruct (a_stage (c_args c)) as [s|]; simpl in *.
        -- apply elem_of_cons in Hg as [->|Hg]; [right; left | do 2 right]; done.
        -- done.
      * destruct (a_stage (c_args c)); [|done].
        apply elem_of_cons in Hg as [->|Hg]; [by left | by do 2 right].
    + intros Hnone. rewrite Hk.
      * case_decide as Hj; [|done]. rewrite Hfe, (Hnone c); [done | by left | done].
      * intros c' Hc' Hj. apply Hnone; [by right | done].
Qed.

Lemma update_never_clears_witness :
  exists r',
    apply_calls
      [ {| c_now := 6; c_job := lit "j1";
           c_args := {| a_status := None; a_stage := Some (lit "final_audio_completed");
                        a_error := None; a_result := None;
                        a_metrics := Some nested_upd |} |};
        {| c_now := 7; c_job := lit "j2"; c_args := no_args |} ]
      {[ lit "j1" := failed_job ]} !! lit "j1" = Some r' ∧
    error r' = Some (lit "Job timed out after 900s").
Proof.
  destruct (update_never_clears
      [ {| c_now := 6; c_job := lit "j1";
           c_args := {| a_status := None; a_stage := Some (lit "final_audio_completed");
                        a_error := None; a_result := None;
                        a_metrics := Some nested_upd |} |};
        {| c_now := 7; c_job := lit "j2"; c_args := no_args |} ]
      {[ lit "j1" := failed_job ]} (lit "j1") failed_job)
    as (r' & Hl & _ & _ & _ & _ & Hk).
  - apply lookup_singleton_eq.
  - exists r'. split; [exact Hl|]. rewrite Hk; [reflexivity|].
    intros c Hc _. apply elem_of_cons in Hc as [->|Hc]; [reflexivity|].
    apply elem_of_cons in Hc as [->|Hc]; [reflexivity|]. by apply elem_of_nil in Hc.
Defined.

End JobStoreFacts.

Module PlannerFacts.
Import Planner.

(** *** Termination of the queue loop: a potential argument *)


Lemma potential_insert_fresh indeg k v :
  indeg !! k = None ->
  potential (<[k := v]> indeg) = (Z.to_nat v + potential indeg)%nat.
Proof.
  intros Hk. unfold potential.
  rewrite map_fold_insert_L; [done | intros; lia | done].
Qed.

Lemma potential_insert_present indeg k d v :
  indeg !! k = Some d ->
  (potential (<[k := v]> indeg) + Z.to_nat d = potential indeg + Z.to_nat v)%nat.
Proof.
  intros Hk.
  rewrite <- (insert_delete_eq indeg k v).
  rewrite <- (insert_delete_id indeg k d Hk) at 2.
  rewrite !potential_insert_fresh by apply lookup_delete_eq. lia.
Qed.

Lemma relax_total nxts : forall indeg q,
  (forall n, n ∈ nxts -> is_Some (indeg !! n)) ->
  exists indeg' q',
    relax nxts indeg q = Returns (indeg', q') ∧
    (forall k, is_Some (indeg !! k) -> is_Some (indeg' !! k)) ∧
    (length q' + potential indeg' <= length q + potential indeg)%nat.
Proof.
  induction nxts as [|nxt rest IH]; intros indeg q Hkeys; simpl.
  - exists indeg, q. split_and!; [done | done | lia].
  - destruct (Hkeys nxt) as [d Hd]; [left|]. rewrite Hd.
    pose proof (potential_insert_present indeg nxt d (d - 1) Hd) as Hpot.
    destruct (IH (<[nxt := d - 1]> indeg)
                 (if decide (d - 1 = 0) then q ++ [nxt] else q)) as (i' & q' & Hr & Hk & Hle).
    { intros n Hn. destruct (decide (nxt = n)) as [<-|Hne].
      - rewrite lookup_insert_eq. eauto.
      - rewrite lookup_insert_ne by done. apply Hkeys. by right. }
    exists i', q'. split_and!; [done | |].
    + intros k Hsome. apply Hk. destruct (decide (nxt = k)) as [<-|Hne].
      * rewrite lookup_insert_eq. eauto.
      * by rewrite lookup_insert_ne.
    + destruct (decide (d - 1 = 0)) as [Hz|Hz].
      * rewrite length_app in Hle. simpl in Hle.
        assert (Z.to_nat d = 1%nat) by lia.
        assert (Z.to_nat (d - 1) = 0%nat) by lia. lia.
      * assert (Z.to_nat (d - 1) <= Z.to_nat d)%nat by lia. lia.
Qed.

Lemma kahn_total graph fuel : forall indeg q ordered,
  (forall cur n, n ∈ default [] (graph !! cur) -> is_Some (indeg !! n)) ->
  (length q + potential indeg <= fuel)%nat ->
  exists l, kahn fuel graph indeg q ordered = Returns l.
Proof.
  induction fuel as [|fuel IH]; intros indeg q ordered Hkeys Hfuel.
  - destruct q; simpl in *; [eauto | lia].
  - destruct q as [|cur q']; simpl; [eauto|].
    destruct (relax_total (default [] (graph !! cur)) indeg q') as (i' & q'' & Hr & Hk & Hle).
    { intros n Hn. eapply Hkeys, Hn. }
    rewrite Hr. apply IH.
    + intros c n Hn. eapply Hk, Hkeys, Hn.
    + simpl in Hfuel. lia.
Qed.

Lemma potential_init ids : forall m,
  potential m = 0%nat -> potential (foldl (fun m nid => <[nid := 0]> m) m ids) = 0%nat.
Proof.
  induction ids as [|k ids IH]; intros m Hm; simpl; [done|].
  apply IH. destruct (m !! k) as [d|] eqn:Hk.
  - pose proof (potential_insert_present m k d 0 Hk). simpl in *. lia.
  - rewrite potential_insert_fresh by done. simpl. lia.
Qed.

Lemma add_edge_keys graph indeg e graph' indeg' :
  add_edge (graph, indeg) e = (graph', indeg') ->
  (forall cur n, n ∈ default [] (graph !! cur) -> is_Some (indeg !! n)) ->
  (forall cur n, n ∈ default [] (graph' !! cur) -> is_Some (indeg' !! n)) ∧
  (potential indeg' <= S (potential indeg))%nat.
Proof.
  unfold add_edge. intros Heq Hkeys. injection Heq as <- <-.
  assert (Hsome : forall (m : gmap str Z) k,
             is_Some (m !! k) ->
             is_Some (match <[to e := default 0 (indeg !! to e) + 1]> m !! from e with
                      | Some _ => <[to e := default 0 (indeg !! to e) + 1]> m
                      | None => <[from e := 0]> (<[to e := default 0 (indeg !! to e) + 1]> m)
                      end !! k)).
  { intros m k Hk.
    assert (is_Some (<[to e := default 0 (indeg !! to e) + 1]> m !! k)) as Hk1.
    { destruct (decide (to e = k)) as [->|]; [rewrite lookup_insert_eq; eauto|].
      by rewrite lookup_insert_ne. }
    destruct (_ !! from e) eqn:Hf; [done|].
    destruct (decide (from e = k)) as [->|]; [rewrite lookup_insert_eq; eauto|].
    by rewrite lookup_insert_ne. }
  split.
  - intros cur n Hn. destruct (decide (from e = cur)) as [<-|Hne].
    + rewrite lookup_insert_eq in Hn. simpl in Hn.
      apply elem_of_app in Hn as [Hn | Hn].
      * apply Hsome. eapply Hkeys, Hn.
      * apply list_elem_of_singleton in Hn as ->.
        destruct (_ !! from e) eqn:Hf.
        -- rewrite lookup_insert_eq. eauto.
        -- destruct (decide (from e = to e)) as [Hft|]; [rewrite Hft, lookup_insert_eq; eauto|].
           rewrite lookup_insert_ne by done. rewrite lookup_insert_eq. eauto.
    + rewrite lookup_insert_ne in Hn by done. apply Hsome. eapply Hkeys, Hn.
  - set (v := default 0 (indeg !! to e) + 1).
    assert (potential (<[to e := v]> indeg) <= S (potential indeg))%nat as Hp.
    { destruct (indeg !! to e) as [d|] eqn:Ht; subst v; simpl.
      - pose proof (potential_insert_present indeg (to e) d (d + 1) Ht). lia.
      - rewrite potential_insert_fresh by done. simpl. lia. }
    destruct (_ !! from e) eqn:Hf; [done|].
    rewrite potential_insert_fresh by done. simpl. lia.
Qed.

#[local] Arguments add_edge : simpl never.

Lemma build_keys es : forall graph indeg graph' indeg',
  foldl add_edge (graph, indeg) es = (graph', indeg') ->
  (forall cur n, n ∈ default [] (graph !! cur) -> is_Some (indeg !! n)) ->
  (forall cur n, n ∈ default [] (graph' !! cur) -> is_Some (indeg' !! n)) ∧
  (potential indeg' <= length es + potential indeg)%nat.
Proof.
  induction es as [|e es IH]; intros graph indeg graph' indeg' Heq Hkeys; simpl in *.
  - injection Heq as <- <-. split; [done | lia].
  - destruct (add_edge (graph, indeg) e) as [g1 i1] eqn:He.
    destruct (add_edge_keys _ _ _ _ _ He Hkeys) as [Hk1 Hp1].
    destruct (IH _ _ _ _ Heq Hk1) as [Hk2 Hp2]. split; [done | lia].
Qed.

(** [topological_order] never raises and never runs out of fuel, and its
    result has one entry per node. *)
Lemma topological_order_total ns es :
  exists l, topological_order ns es = Returns l ∧ length l = length ns.
Proof.
  unfold topological_order.
  destruct (foldl add_edge (∅, init_indeg (map id ns)) es) as [graph indeg] eqn:Hb.
  destruct (build_keys _ _ _ _ _ Hb) as [Hkeys Hpot].
  { intros cur n Hn. rewrite lookup_empty in Hn. simpl in Hn. by apply elem_of_nil in Hn. }
  unfold init_indeg in Hpot.
  rewrite (potential_init (map id ns) ∅) in Hpot by done.
  match goal with |- context [kahn ?f ?g ?i ?q ?o] =>
    destruct (kahn_total g f i q o) as [l Hl] end.
  - done.
  - pose proof (length_filter (fun nid => default 0 (indeg !! nid) = 0) (map id ns)). lia.
  - rewrite Hl. case_decide as Hlen.
    + eexists. split; [done|]. by rewrite length_map.
    + eexists. split; [done|]. rewrite length_map in Hlen. lia.
Qed.


(** *** What the first loop builds *)

Lemma graph_of_cons e es u :
  graph_of (e :: es) u = (if decide (from e = u) then [to e] else []) ++ graph_of es u.
Proof. unfold graph_of. rewrite filter_cons. by case_decide. Qed.

Lemma build_spec es : forall g0 i0 graph indeg,
  foldl add_edge (g0, i0) es = (graph, indeg) ->
  (forall u, default [] (graph !! u) = default [] (g0 !! u) ++ graph_of es u) ∧
  (forall v, default 0 (indeg !! v)
             = default 0 (i0 !! v) + Z.of_nat (length (filter (fun e => to e = v) es))).
Proof.
  induction es as [|e es IH]; intros g0 i0 graph indeg Heq; simpl in Heq.
  - injection Heq as <- <-. split; intros.
    + by rewrite app_nil_r.
    + rewrite filter_nil. simpl. lia.
  - destruct (add_edge (g0, i0) e) as [g1 i1] eqn:He.
    destruct (IH _ _ _ _ Heq) as [Hg Hi]. unfold add_edge in He.
    injection He as <- <-. split.
    + intros u. rewrite Hg, graph_of_cons, app_assoc. f_equal.
      case_decide as Hu.
      * subst u. by rewrite lookup_insert_eq.
      * rewrite lookup_insert_ne by done. by rewrite app_nil_r.
    + intros v. rewrite Hi, filter_cons.
      assert (default 0 (match <[to e := default 0 (i0 !! to e) + 1]> i0 !! from e with
                         | Some _ => <[to e := default 0 (i0 !! to e) + 1]> i0
                         | None => <[from e := 0]> (<[to e := default 0 (i0 !! to e) + 1]> i0)
                         end !! v)
              = default 0 (<[to e := default 0 (i0 !! to e) + 1]> i0 !! v)) as ->.
      { destruct (<[to e := default 0 (i0 !! to e) + 1]> i0 !! from e) eqn:Hf; [done|].
        destruct (decide (from e = v)) as [Hfv|Hne].
        - subst v. by rewrite lookup_insert_eq, Hf.
        - by rewrite lookup_insert_ne. }
      case_decide as Hv.
      * subst v. rewrite lookup_insert_eq. simpl. lia.
      * rewrite lookup_insert_ne by done. lia.
Qed.

Lemma init_indeg_zero ids v : default 0 (init_indeg ids !! v) = 0.
Proof.
  unfold init_indeg.
  assert (forall m : gmap str Z, default 0 (m !! v) = 0 ->
            default 0 (foldl (fun m nid => <[nid := 0]> m) m ids !! v) = 0) as H.
  { induction ids as [|k ids IH]; intros m Hm; simpl; [done|].
    apply IH. destruct (decide (k = v)) as [<-|].
    - by rewrite lookup_insert_eq.
    - by rewrite lookup_insert_ne. }
  by apply H.
Qed.

(** *** Counting invariant of the queue loop *)

Lemma occurrences_cons v x l :
  occurrences v (x :: l) = ((if decide (x = v) then 1 else 0) + occurrences v l)%nat.
Proof. unfold occurrences. rewrite filter_cons. by case_decide. Qed.

Lemma remaining_snoc es ordered cur v :
  cur ∉ ordered ->
  remaining es ordered v
  = (remaining es (ordered ++ [cur]) v + occurrences v (graph_of es cur))%nat.
Proof.
  intros Hcur. unfold remaining, occurrences, graph_of.
  induction es as [|e es IH]; [done|].
  rewrite !filter_cons.
  destruct (decide (from e = cur)) as [Hf|Hf].
  - rewrite (decide_False (P := to e = v ∧ from e ∉ ordered ++ [cur])).
    2:{ intros [_ Hn]. apply Hn. rewrite Hf. apply elem_of_app. right. by left. }
    simpl. rewrite filter_cons.
    destruct (decide (to e = v)) as [Ht|Ht].
    + rewrite (decide_True (P := to e = v ∧ from e ∉ ordered)) by (by rewrite Hf).
      simpl. rewrite IH. lia.
    + rewrite (decide_False (P := to e = v ∧ from e ∉ ordered)) by tauto.
      by rewrite IH.
  - destruct (decide (to e = v ∧ from e ∉ ordered)) as [[Ht Hn]|Hn].
    + rewrite (decide_True (P := to e = v ∧ from e ∉ ordered ++ [cur])).
      2:{ split; [done|]. intros [?|Hc%list_elem_of_singleton]%elem_of_app; tauto. }
      simpl. rewrite IH. lia.
    + rewrite (decide_False (P := to e = v ∧ from e ∉ ordered ++ [cur])).
      2:{ intros [Ht Hc]. apply Hn. split; [done|]. intros ?. apply Hc, elem_of_app. by left. }
      by rewrite IH.
Qed.

Lemma remaining_zero es ordered v e :
  remaining es ordered v = 0%nat -> e ∈ es -> to e = v -> from e ∈ ordered.
Proof.
  unfold remaining. intros Hz He Ht.
  apply length_zero_iff_nil in Hz.
  destruct (decide (from e ∈ ordered)) as [|Hn]; [done|].
  exfalso. eapply (filter_nil_not_elem_of _ _ e Hz); [|done]. done.
Qed.

Section Loop.
Variable es : list edge.
Variable ids : list str.
Hypothesis Hto : forall e, e ∈ es -> to e ∈ ids.

Lemma relax_inv ordered nxts : forall indeg q indeg' q',
  relax nxts indeg q = Returns (indeg', q') ->
  (forall n, n ∈ nxts -> n ∈ ids) ->
  NoDup (ordered ++ q) ->
  (forall x, x ∈ ordered ++ q -> x ∈ ids) ->
  counted es indeg ordered nxts ->
  settled indeg (ordered ++ q) ->
  NoDup (ordered ++ q') ∧ (forall x, x ∈ ordered ++ q' -> x ∈ ids) ∧
  counted es indeg' ordered [] ∧ settled indeg' (ordered ++ q').
Proof.
  induction nxts as [|nxt rest IH]; intros indeg q indeg' q' Hr Hin Hnd Hsub Hc Hs;
    simpl in Hr.
  - by injection Hr as <- <-.
  - destruct (indeg !! nxt) as [d|] eqn:Hd; [|done].
    pose proof (Hc nxt) as Hcn. rewrite Hd, occurrences_cons in Hcn. simpl in Hcn.
    rewrite decide_True in Hcn by done.
    assert (nxt ∉ ordered ++ q) as Hfresh.
    { intros Hel. apply Hs in Hel. rewrite Hd in Hel. simpl in Hel. lia. }
    eapply IH; [exact Hr | | | | |].
    + intros n Hn. apply Hin. by right.
    + case_decide; [|done]. rewrite app_assoc. apply NoDup_app. split_and!; [done| |].
      * intros x Hx ->%list_elem_of_singleton. done.
      * apply NoDup_singleton.
    + intros x Hx. case_decide; [|by apply Hsub].
      rewrite app_assoc in Hx. apply elem_of_app in Hx as [Hx|Hx%list_elem_of_singleton].
      * by apply Hsub.
      * subst x. apply Hin. by left.
    + intros v. destruct (decide (nxt = v)) as [<-|Hne].
      * rewrite lookup_insert_eq. simpl. lia.
      * rewrite lookup_insert_ne by done. rewrite (Hc v), occurrences_cons.
        by rewrite decide_False.
    + intros v Hv. destruct (decide (nxt = v)) as [<-|Hne].
      * rewrite lookup_insert_eq. simpl. case_decide; [done|]. done.
      * rewrite lookup_insert_ne by done. apply Hs.
        case_decide; [|done].
        rewrite app_assoc in Hv. apply elem_of_app in Hv as [Hv|Hv%list_elem_of_singleton];
          [done | congruence].
Qed.

Lemma topo_sorted_snoc ordered cur :
  topo_sorted es ordered ->
  (forall e, e ∈ es -> to e = cur -> from e ∈ ordered) ->
  topo_sorted es (ordered ++ [cur]).
Proof.
  intros Ht Hcur l1 x l2 e Hsplit He Hx.
  destruct (decide (l2 = [])) as [->|Hne].
  - apply app_inj_tail in Hsplit as [-> ->]. by apply Hcur.
  - destruct (exists_last Hne) as (l2' & y & ->).
    rewrite app_comm_cons, app_assoc in Hsplit.
    apply app_inj_tail in Hsplit as [-> _]. by eapply Ht.
Qed.

Lemma kahn_inv graph fuel : forall indeg q ordered l,
  kahn fuel graph indeg q ordered = Returns l ->
  (forall u, default [] (graph !! u) = graph_of es u) ->
  NoDup (ordered ++ q) ->
  (forall x, x ∈ ordered ++ q -> x ∈ ids) ->
  counted es indeg ordered [] ->
  settled indeg (ordered ++ q) ->
  topo_sorted es ordered ->
  NoDup l ∧ (forall x, x ∈ l -> x ∈ ids) ∧ topo_sorted es l.
Proof.
  induction fuel as [|fuel IH]; intros indeg q ordered l Hk Hg Hnd Hsub Hc Hs Ht.
  - destruct q; simpl in Hk; [|done]. injection Hk as <-.
    rewrite app_nil_r in *. done.
  - destruct q as [|cur q']; simpl in Hk.
    { injection Hk as <-. rewrite app_nil_r in *. done. }
    destruct (relax _ indeg q') as [[indeg' q'']| |] eqn:Hr; [|done|done].
    assert (cur ∉ ordered) as Hcur.
    { apply NoDup_app in Hnd as (_ & Hdisj & _). intros Hel.
      apply (Hdisj _ Hel). by left. }
    assert (remaining es ordered cur = 0%nat) as Hzero.
    { pose proof (Hs cur) as H0. rewrite (Hc cur) in H0.
      change (occurrences cur []) with 0%nat in H0.
      assert (cur ∈ ordered ++ cur :: q') by (apply elem_of_app; right; by left).
      specialize (H0 H). lia. }
    rewrite Hg in Hr.
    destruct (relax_inv (ordered ++ [cur]) _ _ _ _ _ Hr) as (Hnd' & Hsub' & Hc' & Hs').
    + intros n Hn. unfold graph_of in Hn.
      apply list_elem_of_fmap in Hn as (e & -> & He).
      apply list_elem_of_filter in He as [_ He]. by apply Hto.
    + by rewrite <- app_assoc.
    + intros x Hx. apply Hsub. by rewrite <- app_assoc in Hx.
    + intros v. rewrite (Hc v), (remaining_snoc es ordered cur v Hcur).
      change (occurrences v []) with 0%nat. f_equal. lia.
    + intros v Hv. apply Hs. by rewrite <- app_assoc in Hv.
    + eapply IH; try eassumption.
      apply topo_sorted_snoc; [done|].
      intros e He Hte. by eapply remaining_zero.
Qed.

End Loop.

Lemma topo_sorted_path es l u v :
  topo_sorted es l -> path es u v -> v ∈ l ->
  exists l1 l2, l = l1 ++ v :: l2 ∧ u ∈ l1.
Proof.
  intros Ht Hp. induction Hp as [u v He | u w v He Hp IH]; intros Hv.
  - destruct (list_elem_of_split _ _ Hv) as (l1 & l2 & ->).
    exists l1, l2. split; [done|].
    by apply (Ht l1 v l2 {| from := u; to := v |} eq_refl He).
  - destruct (IH Hv) as (l1 & l2 & -> & Hw).
    destruct (list_elem_of_split _ _ Hw) as (l1a & l1b & ->).
    exists (l1a ++ w :: l1b), l2. split; [done|].
    apply elem_of_app. left.
    apply (Ht l1a w (l1b ++ v :: l2) {| from := u; to := w |}); [|done|done].
    by rewrite <- app_assoc.
Qed.

Lemma path_from_in es u v : path es u v -> exists e, e ∈ es ∧ from e = u.
Proof. intros [? ? He | ? ? ? He _]; eauto. Qed.

(** With distinct node ids and a filtered edge list that has a cycle, the
    queue loop leaves a node out, and the insertion order is returned. *)
Lemma topological_order_cyclic ns es :
  NoDup (map id ns) -> filtered ns es -> cyclic es ->
  topological_order ns es = Returns (map id ns).
Proof.
  intros Hnd Hf [v Hcyc].
  destruct (topological_order_total ns es) as (l0 & Hret & _).
  unfold topological_order in *.
  destruct (foldl add_edge (∅, init_indeg (map id ns)) es) as [graph indeg] eqn:Hb.
  destruct (build_spec _ _ _ _ _ Hb) as [Hg Hi].
  set (q0 := filter (fun nid => default 0 (indeg !! nid) = 0) (map id ns)) in *.
  destruct (kahn _ graph indeg q0 []) as [l| |] eqn:Hk.
  - destruct (kahn_inv es (map id ns) (fun e He => proj1 (proj2 (Hf e He)))
                graph _ _ _ _ _ Hk) as (Hndl & Hsubl & Htl).
    + intros u. rewrite Hg, lookup_empty. done.
    + simpl. by apply NoDup_filter.
    + simpl. intros x Hx. by apply list_elem_of_filter in Hx as [_ ?].
    + intros u. rewrite Hi, init_indeg_zero.
      change (occurrences u []) with 0%nat. unfold remaining.
      rewrite Nat.add_0_r, Z.add_0_l. do 2 f_equal.
      apply list_filter_iff. intros e. split; [|tauto].
      intros ?. split; [done|]. apply not_elem_of_nil.
    + simpl. intros u Hu. by apply list_elem_of_filter in Hu as [? _].
    + intros l1 x l2 e Hsplit. by destruct l1.
    + assert (v ∉ l) as Hvl.
      { intros Hv. destruct (topo_sorted_path _ _ _ _ Htl Hcyc Hv) as (l1 & l2 & -> & Hv1).
        apply NoDup_app in Hndl as (_ & Hdisj & _). apply (Hdisj _ Hv1). by left. }
      assert (v ∈ map id ns) as Hvn.
      { destruct (path_from_in _ _ _ Hcyc) as (e & He & <-). by apply Hf. }
      rewrite decide_True; [done|].
      assert (length l < length (map id ns))%nat; [|lia].
      assert (l ⊆+ filter (fun x => x ≠ v) (map id ns)) as Hsm.
      { apply NoDup_submseteq; [done|]. intros x Hx. apply list_elem_of_filter.
        split; [congruence | by apply Hsubl]. }
      apply submseteq_length in Hsm.
      pose proof (length_filter_lt (fun x => x ≠ v) (map id ns) v Hvn
                    (fun H => H eq_refl)).
      lia.
  - done.
  - done.
Qed.


(** *** Node count after normalization *)

Lemma pad_templates_NoDup topic : NoDup (pad_templates topic).*1.
Proof.
  assert (forall (s1 s2 : str), s1 ≠ s2 -> topic ++ s1 ≠ topic ++ s2) as Hpre.
  { intros s1 s2 Hne Heq. by apply app_inv_head in Heq. }
  unfold pad_templates. simpl.
  repeat (apply NoDup_cons; split); try apply NoDup_nil;
    rewrite ?not_elem_of_cons; split_and?; try apply not_elem_of_nil;
    try (apply Hpre; discriminate); try exact I;
    try (intros Heq; apply (f_equal last) in Heq; rewrite ?last_app in Heq;
    simpl in Heq; discriminate).
Qed.


Lemma filter_ext_in {A} (P Q : A -> Prop) `{forall x, Decision (P x)}
    `{forall x, Decision (Q x)} (l : list A) :
  (forall x, x ∈ l -> P x <-> Q x) -> filter P l = filter Q l.
Proof.
  induction l as [|a l IH]; intros Hpq; [done|].
  rewrite !filter_cons.
  rewrite IH by (intros x Hx; apply Hpq; by right).
  destruct (decide (P a)) as [Hp|Hp].
  - rewrite decide_True; [done|]. apply Hpq; [by left | done].
  - rewrite decide_False; [done|]. intros Hq. apply Hp, Hpq; [by left | done].
Qed.

Lemma pad_length tpls : forall ns existing next_id,
  NoDup tpls.*1 ->
  (length ns <= min_nodes)%nat ->
  (min_nodes <= length ns + length (filter (fun t => t.1 ∉ existing) tpls))%nat ->
  length (pad tpls ns existing next_id) = min_nodes.
Proof.
  induction tpls as [|tpl rest IH]; intros ns existing next_id Hnd Hle Hge; simpl.
  - rewrite filter_nil in Hge. simpl in Hge. lia.
  - apply NoDup_cons in Hnd as [Hfresh Hnd].
    destruct (decide (min_nodes ≤ length ns)%nat) as [Hfull|Hfull]; [lia|].
    rewrite filter_cons in Hge.
    destruct (decide (tpl.1 ∈ existing)) as [Hex|Hex].
    + rewrite decide_False in Hge by tauto. by apply IH.
    + rewrite decide_True in Hge by done. simpl in Hge.
      apply IH; [done | rewrite length_app; simpl; lia |].
      rewrite length_app. simpl.
      rewrite (filter_ext_in _ (fun t => t.1 ∉ existing)); [lia|].
      intros t Ht. rewrite not_elem_of_union, not_elem_of_singleton.
      split; [tauto|]. intros Hn. split; [|done]. intros Heq.
      apply Hfresh. rewrite <- Heq. apply list_elem_of_fmap. eauto.
Qed.

(** Padding always reaches five nodes: a template is skipped only for a
    title that some node already carries, and the five titles are distinct. *)
Lemma pad_reaches_min topic ns :
  (length ns < min_nodes)%nat ->
  length (pad (pad_templates topic) ns (list_to_set (map title ns)) (length ns + 1))
  = min_nodes.
Proof.
  intros Hlt. apply pad_length; [apply pad_templates_NoDup | lia |].
  set (P := fun t : str * str => t.1 ∉ (list_to_set (map title ns) : gset str)).
  pose proof (filter_app_complement P (pad_templates topic)) as Hperm.
  apply Permutation_length in Hperm. rewrite length_app in Hperm.
  change (length (pad_templates topic)) with 5%nat in Hperm.
  assert (length (filter (fun x => ¬ P x) (pad_templates topic)) <= length ns)%nat; [|unfold min_nodes; lia].
  rewrite <- (length_map title ns), <- (length_fmap fst (filter _ _)).
  apply submseteq_length, NoDup_submseteq.
  - eapply sublist_NoDup; [apply (pad_templates_NoDup topic)|].
    apply fmap_sublist, sublist_filter.
  - intros t Ht. apply list_elem_of_fmap in Ht as ([t' r] & -> & Ht).
    apply list_elem_of_filter in Ht as [Hin _]. unfold P in Hin. simpl in *.
    apply dec_stable in Hin. by apply elem_of_list_to_set in Hin.
Qed.


Lemma normalize_node_count lower ag topic :
  exists a, _normalize_agenda lower ag topic = Returns a ∧
    (min_nodes <= length (nodes a) <= max_nodes)%nat ∧
    length (ordered_node_ids a) = length (nodes a).
Proof.
  unfold _normalize_agenda.
  set (ns1 := omap (fun x => x) (imap (clean_node lower) (default [] (raw_nodes ag)))).
  set (ns2 := if decide (max_nodes < length ns1)%nat then take max_nodes ns1 else ns1).
  assert (length ns2 <= max_nodes)%nat as H2.
  { subst ns2. case_decide; [rewrite length_take|]; lia. }
  set (ns3 := if decide (length ns2 < min_nodes)%nat
              then pad (pad_templates topic) ns2 (list_to_set (map title ns2))
                     (length ns2 + 1)
              else ns2).
  assert (min_nodes <= length ns3 <= max_nodes)%nat as H3.
  { subst ns3. case_decide as Hlt.
    - rewrite pad_reaches_min by done. unfold min_nodes, max_nodes. lia.
    - lia. }
  destruct ns3 as [|n ns3]; [unfold min_nodes in H3; simpl in H3; lia|].
  set (es := omap _ _).
  destruct (topological_order_total (n :: ns3) es) as (l & -> & Hl).
  eexists. split; [done|]. simpl. split; [exact H3 | exact Hl].
Qed.

(** C5 (as amended): for every node/edge input the normalizer returns an
    agenda with five to seven nodes and an [ordered_node_ids] list with one
    entry per node; on a cyclic filtered edge list over nodes with pairwise
    distinct ids [topological_order] returns the insertion order, without
    raising. *)
Theorem agenda_node_count_and_cycle_fallback :
  (forall lower ag topic,
     exists a, _normalize_agenda lower ag topic = Returns a ∧
       (5 <= length (nodes a) <= 7)%nat ∧
       length (ordered_node_ids a) = length (nodes a)) ∧
  (forall ns es,
     NoDup (map id ns) -> filtered ns es -> cyclic es ->
     topological_order ns es = Returns (map id ns)).
Proof.
  split.
  - intros lower ag topic. apply normalize_node_count.
  - apply topological_order_cyclic.
Qed.

Lemma agenda_node_count_and_cycle_fallback_witness :
  topological_order
    [ {| id := lit "a"; title := lit "A"; role := lit "cause"; note := [] |};
      {| id := lit "b"; title := lit "B"; role := lit "effect"; note := [] |};
      {| id := lit "c"; title := lit "C"; role := lit "point"; note := [] |} ]
    [ {| from := lit "c"; to := lit "a" |};
      {| from := lit "a"; to := lit "b" |};
      {| from := lit "b"; to := lit "a" |} ]
  = Returns [lit "a"; lit "b"; lit "c"].
Proof.
  apply (proj2 agenda_node_count_and_cycle_fallback).
  - compute_done.
  - unfold filtered. rewrite <- Forall_forall. compute_done.
  - exists (lit "a").
    apply (path_step _ (lit "a") (lit "b") (lit "a")); [compute_done|].
    apply path_one. compute_done.
Defined.

Lemma omap_imap_none {A B} (l : list A) : forall (f : nat -> A -> option B),
  (forall i x, x ∈ l -> f i x = None) -> omap (fun x => x) (imap f l) = [].
Proof.
  induction l as [|a l IH]; intros f Hf; [done|].
  simpl. rewrite Hf by (by left). apply IH. intros i x Hx. apply Hf. by right.
Qed.

Lemma pad_step_add tpl rest ns ex k :
  (length ns < min_nodes)%nat -> tpl.1 ∉ ex ->
  pad (tpl :: rest) ns ex k
  = pad rest (ns ++ [ {| id := n_id k; title := tpl.1; role := tpl.2; note := [] |} ])
        ({[ tpl.1 ]} ∪ ex) (S k).
Proof.
  intros Hlen Hex. cbn [pad].
  rewrite decide_False by lia. by rewrite decide_False by done.
Qed.

Lemma pad_from_empty topic :
  pad (pad_templates topic) [] ∅ 1 = template_nodes topic.
Proof.
  pose proof (pad_templates_NoDup topic) as Hnd.
  unfold template_nodes, pad_templates in *. cbn [fmap list_fmap fst] in Hnd.
  revert Hnd. rewrite !NoDup_cons, !not_elem_of_cons. intros Hnd. destruct_and?.
  do 5 (rewrite pad_step_add;
        [ | cbn [length app]; unfold min_nodes; lia
          | cbn [fst]; rewrite ?not_elem_of_union, ?not_elem_of_singleton;
            split_and?; try apply not_elem_of_empty; congruence ]).
  reflexivity.
Qed.

(** The empty model answer, as [build_causal_agenda] passes it on failure. *)
Lemma empty_input_gets_five_nodes :
  exists a, _normalize_agenda ascii_lower
              {| raw_nodes := None; raw_edges := None |} (lit "AI") = Returns a ∧
    length (nodes a) = 5%nat ∧ length (nodes a) ≠ 4%nat ∧
    nodes a ≠ fallback_nodes (lit "AI").
Proof.
  eexists. split; [vm_compute; reflexivity|]. cbn [nodes].
  split_and!; [reflexivity | discriminate | discriminate].
Qed.

(** A blank first title shifts the numbering of the padding, so that [n3]
    is used twice; with the cycle between [n4] and [n5] every entry is still
    emitted, and the result is not the insertion order. *)
Lemma repeated_id_defeats_cycle_fallback :
  exists a,
    _normalize_agenda ascii_lower dropped_first_node (lit "AI") = Returns a ∧
    map id (nodes a) = [lit "n2"; lit "n3"; lit "n3"; lit "n4"; lit "n5"] ∧
    filtered (nodes a) (edges a) ∧
    cyclic (edges a) ∧
    topological_order (nodes a) (edges a)
      = Returns [lit "n2"; lit "n3"; lit "n3"; lit "n5"; lit "n4"] ∧
    topological_order (nodes a) (edges a) ≠ Returns (map id (nodes a)).
Proof.
  eexists. split; [vm_compute; reflexivity|]. split_and!.
  - vm_compute. reflexivity.
  - unfold filtered. rewrite <- Forall_forall. compute_done.
  - exists (lit "n5").
    apply (path_step _ (lit "n5") (lit "n4") (lit "n5")); [compute_done|].
    apply path_one. compute_done.
  - vm_compute. reflexivity.
  - vm_compute. discriminate.
Qed.

End PlannerFacts.

Module GeneratorFacts.
Import Generator.

Lemma ratio_self n : n ≠ 0%nat -> (ratio n n == 1)%Q.
Proof.
  intros Hn. unfold ratio, Qeq. simpl.
  destruct n as [|m]; [done|]. lia.
Qed.

Lemma char_ngrams_nonempty t :
  _normalize_point_text t ≠ [] -> _char_ngrams t 3 ≠ ∅.
Proof.
  intros Hs. unfold _char_ngrams.
  destruct (_normalize_point_text t) as [|c s] eqn:Hn; [done|].
  case_decide as Hlen.
  - simpl. apply (non_empty_inhabited_L (c :: s)). by apply elem_of_singleton.
  - apply (non_empty_inhabited_L (take 3 (drop 0 (c :: s)))).
    apply elem_of_list_to_set, list_elem_of_fmap. exists 0%nat. split; [done|].
    apply elem_of_seq. simpl in *. lia.
Qed.

Lemma similarity_step_mono base best p : (best <= similarity_step base best p)%Q.
Proof.
  unfold similarity_step. case_decide; [apply Qle_refl|].
  destruct (Qlt_le_dec best _) as [Hlt|Hle]; [by apply Qlt_le_weak | apply Qle_refl].
Qed.

Lemma similarity_fold_mono base points : forall best,
  (best <= foldl (similarity_step base) best points)%Q.
Proof.
  induction points as [|p points IH]; intros best; simpl; [apply Qle_refl|].
  eapply Qle_trans; [apply similarity_step_mono | apply IH].
Qed.

Lemma similarity_step_self t best :
  _char_ngrams t 3 ≠ ∅ -> (1 <= similarity_step (_char_ngrams t 3) best t)%Q.
Proof.
  intros Hne. unfold similarity_step.
  rewrite decide_False by done.
  assert (forall X : gset str, X ∩ X = X) as -> by (intros X; apply (idemp_L _)).
  assert (forall X : gset str, X ∪ X = X) as -> by (intros X; apply (idemp_L _)).
  assert (size (_char_ngrams t 3) ≠ 0%nat) as Hsz.
  { intros Hz. by apply size_empty_inv, leibniz_equiv in Hz. }
  rewrite decide_False by done.
  destruct (Qlt_le_dec best _) as [Hlt|Hle].
  - rewrite ratio_self by done. apply Qle_refl.
  - rewrite <- (ratio_self _ Hsz). exact Hle.
Qed.

Lemma max_similarity_identical t points :
  t ∈ points -> _normalize_point_text t ≠ [] ->
  (1 <= _max_similarity_to_points t points)%Q.
Proof.
  intros Hin Hs. unfold _max_similarity_to_points.
  pose proof (char_ngrams_nonempty t Hs) as Hne.
  rewrite decide_False by done.
  generalize 0%Q. induction points as [|p points IH]; intros best.
  - by apply elem_of_nil in Hin.
  - simpl. apply elem_of_cons in Hin as [<-|Hin].
    + eapply Qle_trans; [apply (similarity_step_self t best Hne)|].
      apply similarity_fold_mono.
    + by apply IH.
Qed.

(** C7 (as amended): with no covered points the novelty of a section whose
    text is not empty is exactly 1 (a section with empty text scores 0,
    whatever is covered); the novelty of a section whose text is one of the
    covered points, and not blank, is exactly 0. *)
Theorem novelty_extremes :
  (forall script, _script_text script ≠ [] ->
     compute_section_novelty script [] = 1%Q) ∧
  (forall script points, _script_text script = [] ->
     compute_section_novelty script points = 0%Q) ∧
  (forall script points,
     _script_text script ∈ points ->
     _normalize_point_text (_script_text script) ≠ [] ->
     (compute_section_novelty script points == 0)%Q).
Proof.
  split_and!.
  - intros script Ht. unfold compute_section_novelty.
    destruct (_script_text script); [done|]. reflexivity.
  - intros script points Ht. unfold compute_section_novelty. by rewrite Ht.
  - intros script points Hin Hs. unfold compute_section_novelty.
    destruct (_script_text script) as [|c t] eqn:Ht; [done|].
    cbn [nonempty negb].
    destruct points as [|p points]; [by apply elem_of_nil in Hin|].
    pose proof (max_similarity_identical _ _ Hin Hs) as Hmax.
    unfold py_max. destruct (Qlt_le_dec 0 _) as [Hlt|Hle].
    + exfalso. apply (Qlt_not_le _ _ Hlt).
      apply (Qplus_le_r _ _ (_max_similarity_to_points (c :: t) (p :: points))).
      ring_simplify. exact Hmax.
    + reflexivity.
Qed.

Lemma novelty_extremes_witness :
  compute_section_novelty [mk_line (lit "A") (lit "abc def")] [] = 1%Q ∧
  (compute_section_novelty [mk_line (lit "A") (lit "abc def")]
     [lit "xyz"; lit "abc def"] == 0)%Q.
Proof.
  split.
  - apply (proj1 novelty_extremes). vm_compute. discriminate.
  - apply (proj2 (proj2 novelty_extremes)).
    + vm_compute. right. left.
    + vm_compute. discriminate.
Defined.

(** A section whose text is empty scores 0 although nothing is covered. *)
Lemma novelty_of_empty_text :
  compute_section_novelty [mk_line (lit "A") []] [] = 0%Q ∧
  ¬ (compute_section_novelty [mk_line (lit "A") []] [] == 1)%Q.
Proof. split; [reflexivity | discriminate]. Qed.

End GeneratorFacts.

Module GuardFacts.
Import Generator Pipeline.

Section Guard.
Variable llm : nat -> option (list line).
Variable covered : list str.
Variable threshold : Q.

Lemma rewrite_keeps_or_replaces answer script :
  let r := rewrite_section_to_reduce_overlap answer script in
  (r ≠ [] ∧ r ≠ script) ∨ r = script.
Proof.
  simpl. destruct answer as [[|l rest]|]; simpl; [by right | | by right].
  destruct (decide (l :: rest = script)); [by right | by left].
Qed.

Lemma guard_turn_spec st :
  novelty st = compute_section_novelty (section_script st) covered ->
  let r := rewrite_section_to_reduce_overlap (llm (calls st)) (section_script st) in
  let st1 := (guard_turn llm covered threshold st).1 in
  section_script st1 = r ∧
  calls st1 = S (calls st) ∧
  novelty st1 = compute_section_novelty r covered ∧
  (dedupe_rewrite_count st <= dedupe_rewrite_count st1 <= S (dedupe_rewrite_count st))%nat ∧
  ((guard_turn llm covered threshold st).2 = false -> (novelty st1 < threshold)%Q) ∧
  ((guard_turn llm covered threshold st).2 = true -> (threshold <= novelty st1)%Q).
Proof.
  intros Hnov. unfold guard_turn. cbn zeta.
  destruct (rewrite_keeps_or_replaces (llm (calls st)) (section_script st)) as [Hnew|Hsame].
  - rewrite decide_True by done. cbn.
    destruct (Qlt_le_dec _ threshold); split_and!; try done; lia.
  - rewrite decide_False by tauto. cbn. rewrite Hsame, <- Hnov.
    destruct (Qlt_le_dec _ threshold); split_and!; try done; lia.
Qed.

Lemma guard_loop_spec turns : forall st,
  novelty st = compute_section_novelty (section_script st) covered ->
  let out := guard_loop llm covered threshold turns st in
  let seen := attempts llm covered threshold turns st in
  calls out = (calls st + length seen)%nat ∧
  (length seen <= turns)%nat ∧
  section_script out = default (section_script st) (last seen) ∧
  novelty out = compute_section_novelty (section_script out) covered ∧
  (dedupe_rewrite_count st <= dedupe_rewrite_count out
     <= dedupe_rewrite_count st + length seen)%nat ∧
  ((novelty out < threshold)%Q -> length seen = turns).
Proof.
  induction turns as [|turns IH]; intros st Hnov; cbn zeta.
  - simpl. split_and!; try done; lia.
  - cbn [guard_loop attempts].
    pose proof (guard_turn_spec st Hnov) as Hturn. cbn zeta in Hturn.
    destruct (guard_turn llm covered threshold st) as [st1 stop] eqn:Ht.
    cbn [fst snd] in Hturn. destruct Hturn as (Hs & Hc & Hn & Hd & Hgo & Hstop).
    destruct stop; cbv beta iota.
    + cbn [length last]. rewrite Hs. split_and!; try done; try lia.
      intros Hlt. exfalso. apply (Qlt_not_le _ _ Hlt). by apply Hstop.
    + assert (novelty st1 = compute_section_novelty (section_script st1) covered) as Hn1
        by (by rewrite Hn, Hs).
      destruct (IH st1 Hn1) as (Hc' & Hl' & Hs' & Hn' & Hd' & Hex').
      cbn [length]. split_and!; try done; try lia.
      * rewrite Hs'. rewrite Hs.
        destruct (attempts llm covered threshold turns st1) as [|a l] eqn:Ha; [done|].
        rewrite last_cons_cons.
        destruct (last (a :: l)) as [y|] eqn:Hlast; [done|].
        by apply last_None in Hlast.
      * intros Hlt. rewrite (Hex' Hlt). done.
Qed.

Lemma attempts_ignore_counter turns : forall s q c d d',
  attempts llm covered threshold turns
    {| section_script := s; novelty := q; dedupe_rewrite_count := d; calls := c |}
  = attempts llm covered threshold turns
      {| section_script := s; novelty := q; dedupe_rewrite_count := d'; calls := c |}.
Proof.
  induction turns as [|turns IH]; intros s q c d d'; [done|].
  cbn [attempts]. unfold guard_turn.
  cbn [calls section_script novelty dedupe_rewrite_count].
  destruct (decide _); cbn [novelty];
    destruct (Qlt_le_dec _ threshold); f_equal; apply IH.
Qed.

End Guard.

(** C8 (as amended): below the threshold the guard asks for a rewrite at most
    twice; the recorded novelty is always that of the section it proceeds
    with; that section is the answer to the latest rewrite request (the
    generated section when none was made), whether or not the threshold is
    met; when it is still not met, both requests were made and the guard
    returns all the same. *)
Theorem novelty_guard_bounded_best_effort llm covered threshold script dedupe :
  let out := novelty_guard llm covered threshold script dedupe in
  let seen := guard_attempts llm covered threshold script in
  calls out = length seen ∧
  (calls out <= 2)%nat ∧
  novelty out = compute_section_novelty (section_script out) covered ∧
  section_script out = default script (last seen) ∧
  (dedupe <= dedupe_rewrite_count out <= dedupe + calls out)%nat ∧
  ((novelty out < threshold)%Q -> calls out = 2%nat).
Proof.
  cbn zeta. unfold novelty_guard, guard_attempts. cbn [novelty].
  destruct (Qlt_le_dec (compute_section_novelty script covered) threshold) as [Hlt|Hge].
  - set (st0 := {| section_script := script;
                   novelty := compute_section_novelty script covered;
                   dedupe_rewrite_count := dedupe; calls := 0 |}).
    pose proof (guard_loop_spec llm covered threshold 2 st0 eq_refl) as Hloop.
    cbn zeta in Hloop.
    change (calls st0) with 0%nat in Hloop.
    change (dedupe_rewrite_count st0) with dedupe in Hloop.
    change (section_script st0) with script in Hloop.
    destruct Hloop as (Hc & Hl & Hs & Hn & Hd & Hex).
    rewrite (attempts_ignore_counter llm covered threshold 2 script _ 0 0 dedupe).
    fold st0.
    split_and!; try done; try lia.
    intros Hlow. rewrite Hc, (Hex Hlow). done.
  - cbn. split_and!; try done; try lia.
    intros Hlow. exfalso. by apply (Qlt_not_le _ _ Hlow).
Qed.

(** The second rewrite brings the section back to the text already
    covered: the guard proceeds with novelty 0, although the first rewrite
    had reached 0.2. *)
Lemma guard_keeps_latest_not_best :
  let covered := [lit "abcdef"] in
  let out := novelty_guard replay covered (32 # 100)
               [mk_line (lit "A") (lit "abcdef")] 0 in
  let first_rewrite := [mk_line (lit "A") (lit "abcdefg")] in
  first_rewrite ∈ guard_attempts replay covered (32 # 100)
                    [mk_line (lit "A") (lit "abcdef")] ∧
  section_script out ≠ first_rewrite ∧
  (novelty out < compute_section_novelty first_rewrite covered)%Q.
Proof.
  cbn zeta. split_and!.
  - vm_compute. left.
  - vm_compute. discriminate.
  - vm_compute. reflexivity.
Qed.

Lemma novelty_guard_bounded_best_effort_witness :
  calls (novelty_guard replay [lit "abcdef"] (32 # 100)
           [mk_line (lit "A") (lit "abcdef")] 0) = 2%nat.
Proof.
  apply (novelty_guard_bounded_best_effort replay [lit "abcdef"] (32 # 100)
           [mk_line (lit "A") (lit "abcdef")] 0).
  vm_compute. reflexivity.
Defined.

End GuardFacts.

Module ReadyChunkFacts.
Import Generator Pipeline.

Lemma strictly_sorted_of_NoDup (l : list Z) :
  StronglySorted Z.le l -> NoDup l -> StronglySorted Z.lt l.
Proof.
  induction 1 as [|x l Hs IH Hall]; intros Hnd; constructor.
  - apply IH. by apply NoDup_cons in Hnd as [_ ?].
  - apply NoDup_cons in Hnd as [Hx _].
    rewrite Forall_forall in *. intros y Hy.
    specialize (Hall y Hy). assert (x ≠ y) by (intros ->; done). lia.
Qed.

Lemma sorted_keys_spec {V} (d : gmap Z V) :
  StronglySorted Z.lt (sorted_keys d) ∧
  (forall k, k ∈ sorted_keys d <-> is_Some (d !! k)).
Proof.
  unfold sorted_keys. split.
  - apply strictly_sorted_of_NoDup.
    + apply StronglySorted_merge_sort; apply _.
    + rewrite merge_sort_Permutation. apply NoDup_fst_map_to_list.
  - intros k. rewrite merge_sort_Permutation, list_elem_of_fmap. split.
    + intros ([k' v] & -> & Hkv). apply elem_of_map_to_list in Hkv. eauto.
    + intros [v Hv]. exists (k, v). split; [done|]. by apply elem_of_map_to_list.
Qed.

Lemma omap_lookup_Forall2 {V} (d : gmap Z V) (ks : list Z) :
  (forall k, k ∈ ks -> is_Some (d !! k)) ->
  Forall2 (fun k v => d !! k = Some v) ks (omap (fun k => d !! k) ks).
Proof.
  induction ks as [|k ks IH]; intros Hks; simpl; [constructor|].
  destruct (Hks k) as [v Hv]; [by left|]. rewrite Hv. constructor; [done|].
  apply IH. intros k' Hk'. apply Hks. by right.
Qed.

Lemma ordered_pairs_spec (d : gmap Z (str * str)) :
  Forall2 (fun k v => d !! k = Some v) (sorted_keys d) (ordered_pairs d).
Proof.
  apply omap_lookup_Forall2. intros k Hk. by apply sorted_keys_spec.
Qed.

Lemma in_step_initial sections : in_step (initial sections).
Proof. by split_and!. Qed.

Lemma in_step_run_step st s : in_step st -> in_step (run_step st s).
Proof.
  intros (Hf & Hp & Hm). destruct s as [future meta | future res]; simpl.
  - by split_and!.
  - destruct (pending_tts st !! future) as [meta|]; [|by split_and!].
    destruct res as [|so [|]]; simpl.
    + case_decide; by split_and!.
    + by split_and!.
    + case_decide; by split_and!.
Qed.

Lemma in_step_run_steps steps : forall st, in_step st -> in_step (run_steps steps st).
Proof.
  induction steps as [|s steps IH]; intros st Hst; simpl; [done|].
  apply IH. by apply in_step_run_step.
Qed.

(** C1: whatever the order in which submissions and completions arrive,
    after every step (hence at finalization) the ready file names and paths
    are the chunks of a strictly increasing sequence of section indices,
    namely of all indices that have a ready chunk; the list exposed as
    [ready_audio_chunks] is that list of file names. *)
Theorem ready_chunks_strictly_increasing sections steps :
  let st := run_steps steps (initial sections) in
  exists ks : list Z,
    StronglySorted Z.lt ks ∧
    (forall k, k ∈ ks <-> is_Some (ready_chunks_by_index st !! k)) ∧
    Forall2 (fun k f => exists p, ready_chunks_by_index st !! k = Some (f, p))
            ks (ready_chunk_filenames st) ∧
    Forall2 (fun k p => exists f, ready_chunks_by_index st !! k = Some (f, p))
            ks (ready_chunk_paths st) ∧
    (forall l, metrics_ready_audio_chunks st = Some l -> l = ready_chunk_filenames st).
Proof.
  cbn zeta.
  destruct (in_step_run_steps steps _ (in_step_initial sections)) as (Hf & Hp & Hm).
  set (st := run_steps steps (initial sections)) in *.
  exists (sorted_keys (ready_chunks_by_index st)).
  destruct (sorted_keys_spec (ready_chunks_by_index st)) as [Hs Hk].
  pose proof (ordered_pairs_spec (ready_chunks_by_index st)) as Hop.
  split_and!; [done | done | | |].
  - rewrite Hf. apply Forall2_fmap_r. eapply Forall2_impl; [exact Hop|].
    intros k [f p] Hkv. simpl. eauto.
  - rewrite Hp. apply Forall2_fmap_r. eapply Forall2_impl; [exact Hop|].
    intros k [f p] Hkv. simpl. eauto.
  - intros l Hl. rewrite Hl in Hm. exact Hm.
Qed.

Lemma ready_chunks_strictly_increasing_witness :
  let st := run_steps
              [ Submit 0 intro_meta; Submit 1 (body_meta 1 "ai_sec01.wav");
                Submit 2 (body_meta 2 "ai_sec02.wav");
                Complete 2 (TtsReturned (stats None 900) true);
                Complete 1 TtsRaised;
                Complete 0 (TtsReturned (stats None 800) true) ]
              (initial []) in
  exists ks : list Z,
    StronglySorted Z.lt ks ∧
    (forall k, k ∈ ks <-> is_Some (ready_chunks_by_index st !! k)) ∧
    Forall2 (fun k f => exists p, ready_chunks_by_index st !! k = Some (f, p))
            ks (ready_chunk_filenames st) ∧
    Forall2 (fun k p => exists f, ready_chunks_by_index st !! k = Some (f, p))
            ks (ready_chunk_paths st) ∧
    (forall l, metrics_ready_audio_chunks st = Some l -> l = ready_chunk_filenames st).
Proof. apply ready_chunks_strictly_increasing. Defined.

(** Completions in the order 2, 0, 1: the ready list is in index order. *)
Example ready_list_out_of_order :
  ready_chunk_filenames
    (run_steps
       [ Submit 0 intro_meta; Submit 1 (body_meta 1 "ai_sec01.wav");
         Submit 2 (body_meta 2 "ai_sec02.wav");
         Complete 2 (TtsReturned (stats None 900) true);
         Complete 0 (TtsReturned (stats None 800) true);
         Complete 1 (TtsReturned (stats None 700) true) ]
       (initial []))
  = [lit "ai_intro.wav"; lit "ai_sec01.wav"; lit "ai_sec02.wav"].
Proof. vm_compute. reflexivity. Qed.

End ReadyChunkFacts.

Module FailureFacts.
Import Generator Pipeline ReadyChunkFacts.

Lemma failure_step st s k :
  failure_of st s k ->
  let st' := run_step st s in
  ready_chunks_by_index st' = ready_chunks_by_index st ∧
  ready_chunk_filenames st' = ready_chunk_filenames st ∧
  ready_chunk_paths st' = ready_chunk_paths st ∧
  transcript_sections st' = transcript_sections st ∧
  synthesized_sections st' = synthesized_sections st ∧
  intro_failed st' = (intro_failed st || bool_decide (k = 0)).
Proof.
  destruct s as [future meta | future [|so [|]]]; simpl; try done.
  - intros (meta & Hm & <-). rewrite Hm. case_bool_decide.
    + rewrite decide_True by done. simpl. by rewrite orb_true_r.
    + rewrite decide_False by done. simpl. by rewrite orb_false_r.
  - intros (meta & Hm & <-). rewrite Hm. simpl. case_bool_decide.
    + rewrite decide_True by done. simpl. by rewrite orb_true_r.
    + rewrite decide_False by done. simpl. by rewrite orb_false_r.
Qed.

Lemma intro_failed_step st s :
  intro_failed (run_step st s) = true ->
  intro_failed st = true ∨ failure_of st s 0.
Proof.
  destruct s as [future meta | future res]; simpl; [by left|].
  destruct (pending_tts st !! future) as [meta|] eqn:Hm; [|by left].
  destruct res as [|so [|]]; simpl.
  - case_decide; simpl; [|by left]. intros _. right. eauto.
  - by left.
  - case_decide; simpl; [|by left]. intros _. right. eauto.
Qed.

Lemma intro_failed_sticky_step st s :
  intro_failed st = true -> intro_failed (run_step st s) = true.
Proof.
  intros Hf. destruct s as [future meta | future res]; simpl; [done|].
  destruct (pending_tts st !! future) as [meta|]; [|done].
  destruct res as [|so [|]]; simpl; try case_decide; done.
Qed.

Lemma intro_failed_sticky steps : forall st,
  intro_failed st = true -> intro_failed (run_steps steps st) = true.
Proof.
  induction steps as [|s steps IH]; intros st Hf; simpl; [done|].
  by apply IH, intro_failed_sticky_step.
Qed.

Lemma ready_kept_step st s k :
  is_Some (ready_chunks_by_index st !! k) ->
  is_Some (ready_chunks_by_index (run_step st s) !! k).
Proof.
  intros Hk. destruct s as [future meta | future res]; simpl; [done|].
  destruct (pending_tts st !! future) as [meta|]; [|done].
  destruct res as [|so [|]]; simpl; try case_decide; try done.
  destruct (decide (m_section_index meta = k)) as [->|Hne].
  - rewrite lookup_insert_eq. eauto.
  - by rewrite lookup_insert_ne.
Qed.

Lemma ready_kept steps : forall st k,
  is_Some (ready_chunks_by_index st !! k) ->
  is_Some (ready_chunks_by_index (run_steps steps st) !! k).
Proof.
  induction steps as [|s steps IH]; intros st k Hk; simpl; [done|].
  by apply IH, ready_kept_step.
Qed.

Lemma failure_pops st future res k :
  failure_of st (Complete future res) k ->
  pending_tts (run_step st (Complete future res)) = delete future (pending_tts st).
Proof.
  destruct res as [|so [|]]; simpl; try done.
  - intros (meta & Hm & _). rewrite Hm. by case_decide.
  - intros (meta & Hm & _). rewrite Hm. simpl. by case_decide.
Qed.

Lemma finish_after_failure defer_finalize disk st s k :
  failure_of st s k ->
  finish defer_finalize disk (run_step st s)
  = match finish defer_finalize disk st with
    | inl e => inl e
    | inr m => inr (with_fm_intro_failed (fm_intro_failed m || bool_decide (k = 0)) m)
    end.
Proof.
  intros Hf. destruct (failure_step st s k Hf) as (_ & Hn & Hp & _ & Hs & Hi).
  unfold finish. rewrite Hn, Hp, Hs, Hi.
  destruct (ready_chunk_paths st) as [|p ps]; [done|].
  destruct defer_finalize; [done|].
  destruct (combine_audio_files disk (p :: ps)); [done|].
  by destruct (output_exists disk).
Qed.

Lemma ready_paths_nonempty st k :
  in_step st -> is_Some (ready_chunks_by_index st !! k) -> ready_chunk_paths st ≠ [].
Proof.
  intros (_ & Hp & _) Hk Hnil. rewrite Hnil in Hp.
  symmetry in Hp. apply fmap_nil_inv in Hp.
  pose proof (ordered_pairs_spec (ready_chunks_by_index st)) as Hop.
  rewrite Hp in Hop. apply Forall2_nil_inv_r in Hop.
  apply (proj2 (sorted_keys_spec (ready_chunks_by_index st))) in Hk.
  rewrite Hop in Hk. by apply elem_of_nil in Hk.
Qed.

Lemma finish_cases defer_finalize disk st :
  ready_chunk_paths st ≠ [] ->
  (defer_finalize = true -> exists m, finish defer_finalize disk st = inr m) ∧
  (forall e, finish defer_finalize disk st = inl e ->
     defer_finalize = false ∧ finalize_error disk st e).
Proof.
  intros Hne. unfold finish, finalize_error.
  destruct (ready_chunk_paths st) as [|p ps]; [done|]. split.
  - intros ->. eauto.
  - intros e. destruct defer_finalize; [done|]. split; [done|].
    destruct (combine_audio_files disk (p :: ps)) as [e'|].
    + left. congruence.
    + right. destruct (output_exists disk); [done|]. split; congruence.
Qed.

(** C2: a failed synthesis (the future raises, or returns without its
    file) takes the task out of [pending_tts] and leaves the ready chunks,
    the sections and the count of synthesized sections as they were;
    [intro_failed] is raised by such a failure of section 0 and by nothing
    else, is never cleared afterwards, and is what the final metrics report.
    The failure does not change how the job ends: the job raises, or
    returns its metrics, exactly as it would have without the failed step,
    but for [intro_failed]. Once any chunk is ready, the job returns when
    finalization is deferred (the default), whatever other tasks fail before
    or after; otherwise it can only fail in the finalization of the ready
    chunks. *)
Theorem synthesis_failure_is_not_fatal :
  (forall st future res k, failure_of st (Complete future res) k ->
     let st' := run_step st (Complete future res) in
     pending_tts st' = delete future (pending_tts st) ∧
     pending_tts st' !! future = None ∧
     ready_chunks_by_index st' = ready_chunks_by_index st ∧
     ready_chunk_filenames st' = ready_chunk_filenames st ∧
     ready_chunk_paths st' = ready_chunk_paths st ∧
     transcript_sections st' = transcript_sections st ∧
     synthesized_sections st' = synthesized_sections st ∧
     intro_failed st' = (intro_failed st || bool_decide (k = 0))) ∧
  (forall st s, intro_failed (run_step st s) = true ->
     intro_failed st = true ∨ failure_of st s 0) ∧
  (forall st steps, intro_failed st = true ->
     intro_failed (run_steps steps st) = true) ∧
  (forall defer_finalize disk st m,
     finish defer_finalize disk st = inr m -> fm_intro_failed m = intro_failed st) ∧
  (forall defer_finalize disk st s k, failure_of st s k ->
     finish defer_finalize disk (run_step st s)
     = match finish defer_finalize disk st with
       | inl e => inl e
       | inr m => inr (with_fm_intro_failed (fm_intro_failed m || bool_decide (k = 0)) m)
       end) ∧
  (forall sections before future meta so after disk,
     pending_tts (run_steps before (initial sections)) !! future = Some meta ->
     let st := run_steps (before ++ Complete future (TtsReturned so true) :: after)
                 (initial sections) in
     (exists m, finish true disk st = inr m) ∧
     (forall e, finish false disk st = inl e -> finalize_error disk st e)).
Proof.
  split_and!.
  - intros st future res k Hf. cbn zeta.
    destruct (failure_step st _ k Hf) as (H1 & H2 & H3 & H4 & H5 & H6).
    rewrite (failure_pops st future res k Hf).
    split_and!; try done. apply lookup_delete_eq.
  - apply intro_failed_step.
  - intros st steps. apply intro_failed_sticky.
  - intros defer_finalize disk st m. unfold finish.
    destruct (ready_chunk_paths st) as [|p ps]; [done|].
    destruct defer_finalize; [by intros [= <-]|].
    destruct (combine_audio_files disk (p :: ps)); [done|].
    destruct (output_exists disk); [by intros [= <-] | done].
  - apply finish_after_failure.
  - intros sections before future meta so after disk Hpending. cbn zeta.
    unfold run_steps. rewrite foldl_app. cbn [foldl].
    fold (run_steps before (initial sections)).
    set (st := run_steps before (initial sections)) in *.
    fold (run_steps after (run_step st (Complete future (TtsReturned so true)))).
    set (st' := run_steps after _).
    assert (ready_chunk_paths st' ≠ []) as Hne.
    { apply (ready_paths_nonempty _ (m_section_index meta)).
      - apply in_step_run_steps, in_step_run_step, in_step_run_steps, in_step_initial.
      - apply ready_kept. simpl. rewrite Hpending. simpl.
        rewrite lookup_insert_eq. eauto. }
    split.
    + by apply (finish_cases true disk st' Hne).
    + intros e He. by apply (finish_cases false disk st' Hne).
Qed.

Lemma synthesis_failure_is_not_fatal_witness :
  (let st := run_steps [Submit 0 intro_meta; Submit 1 (body_meta 1 "ai_sec01.wav")]
               (initial []) in
   pending_tts (run_step st (Complete 1 TtsRaised)) !! 1%nat = None ∧
   intro_failed (run_step st (Complete 1 TtsRaised)) = false ∧
   intro_failed (run_step st (Complete 0 TtsRaised)) = true) ∧
  exists m,
    finish true silent_disk
      (run_steps
         ([Submit 0 intro_meta; Submit 1 (body_meta 1 "ai_sec01.wav");
           Complete 0 TtsRaised]
          ++ Complete 1 (TtsReturned (stats None 1200) true)
          :: [Submit 2 (body_meta 2 "ai_sec02.wav");
              Complete 2 (TtsReturned (stats None 0) false)])
         (initial [])) = inr m.
Proof.
  split.
  - cbn zeta.
    destruct (proj1 synthesis_failure_is_not_fatal
                (run_steps [Submit 0 intro_meta; Submit 1 (body_meta 1 "ai_sec01.wav")]
                   (initial []))
                1%nat TtsRaised 1) as (_ & Hp & _ & _ & _ & _ & _ & H1).
    { exists (body_meta 1 "ai_sec01.wav"). split; vm_compute; reflexivity. }
    destruct (proj1 synthesis_failure_is_not_fatal
                (run_steps [Submit 0 intro_meta; Submit 1 (body_meta 1 "ai_sec01.wav")]
                   (initial []))
                0%nat TtsRaised 0) as (_ & _ & _ & _ & _ & _ & _ & H0).
    { exists intro_meta. split; vm_compute; reflexivity. }
    split_and!; [exact Hp | rewrite H1 | rewrite H0]; vm_compute; reflexivity.
  - apply (proj2 (proj2 (proj2 (proj2 (proj2 synthesis_failure_is_not_fatal)))))
      with (meta := body_meta 1 "ai_sec01.wav").
    vm_compute. reflexivity.
Defined.

(** With finalization in line, chunks of two sample rates end the job in
    the finalization step although both were synthesized. *)
Lemma finalization_can_fail_with_ready_chunks :
  let st := run_steps
              [ Submit 0 intro_meta; Submit 1 (body_meta 1 "ai_sec01.wav");
                Complete 0 (TtsReturned (stats None 900) true);
                Complete 1 (TtsReturned (stats None 1200) true) ]
              (initial []) in
  synthesized_sections st = 2%nat ∧
  (exists m, finish true mixed_rate_disk st = inr m) ∧
  finish false mixed_rate_disk st
  = inl (RuntimeError (lit "Sample rate mismatch while combining audio: 22050 != 24000")).
Proof. cbn zeta. split_and!; [| eexists |]; vm_compute; reflexivity. Qed.

End FailureFacts.

Module TimingFacts.
Import Generator Pipeline.

Lemma max_local_end_nonneg ls : 0 <= max_local_end ls.
Proof. induction ls; simpl; lia. Qed.

Lemma span_nonneg sec : 0 <= span sec.
Proof.
  unfold span. case_decide; [lia | apply max_local_end_nonneg].
Qed.

Lemma time_lines_spec c ls : forall m, 0 <= m ->
  time_lines c m ls
  = (Z.max m (max_local_end ls),
     map (fun l => set_global_timing (c + int_or_0 (start_ms l))
                     (c + Z.max (int_or_0 (end_ms l)) (int_or_0 (start_ms l))) l) ls).
Proof.
  induction ls as [|l ls IH]; intros m Hm; simpl.
  - f_equal. lia.
  - rewrite IH by (case_decide; lia). f_equal. case_decide; lia.
Qed.

Lemma time_section_spec c sec :
  time_section c sec
  = (set_global_span c (c + span sec)
       (set_lines
          (map (fun l => set_global_timing (c + int_or_0 (start_ms l))
                           (c + Z.max (int_or_0 (end_ms l)) (int_or_0 (start_ms l))) l)
               (lines sec)) sec),
     c + span sec).
Proof.
  unfold time_section. rewrite time_lines_spec by done.
  pose proof (max_local_end_nonneg (lines sec)) as Hm.
  pose proof (span_nonneg sec) as Hs. unfold span in *.
  rewrite (Z.max_r 0 (max_local_end (lines sec))) by done.
  case_decide; rewrite Z.max_l by lia; done.
Qed.

Lemma time_sections_lookup secs : forall c i sec,
  secs !! i = Some sec ->
  exists sec',
    time_sections c secs !! i = Some sec' ∧
    section_index sec' = section_index sec ∧
    sec_global_start_ms sec' = Some (c + total_span (take i secs)) ∧
    sec_global_end_ms sec' = Some (c + total_span (take i secs) + span sec).
Proof.
  induction secs as [|s secs IH]; intros c i sec Hi; [done|].
  cbn [time_sections]. rewrite time_section_spec.
  destruct i as [|i]; simpl in Hi.
  - injection Hi as ->. eexists. split; [done|]. simpl.
    split_and!; [done | f_equal; lia | f_equal; lia].
  - destruct (IH (c + span s) i sec Hi) as (sec' & Hl & Hidx & Hgs & Hge).
    exists sec'. split; [done|]. split; [done|]. rewrite Hgs, Hge. simpl.
    split; f_equal; lia.
Qed.

(** C4 (as amended): walking the sections in ascending index order with a
    cursor that starts at 0, each section's global span is
    cursor .. cursor + span, where span is the recorded [audio_ms] when that
    is positive and the largest local [end_ms] otherwise, and the cursor of
    the next section is larger by exactly that span. *)
Theorem section_span_and_cursor ts i sec :
  ordered_sections ts !! i = Some sec ->
  exists sec',
    global_timing ts !! i = Some sec' ∧
    section_index sec' = section_index sec ∧
    let cursor := total_span (take i (ordered_sections ts)) in
    sec_global_start_ms sec' = Some cursor ∧
    sec_global_end_ms sec' = Some (cursor + span sec) ∧
    total_span (take (S i) (ordered_sections ts)) = cursor + span sec ∧
    Sorted index_le (ordered_sections ts).
Proof.
  intros Hi. unfold global_timing.
  destruct (time_sections_lookup _ 0 i sec Hi) as (sec' & Hl & Hidx & Hgs & Hge).
  exists sec'. split; [done|]. split; [done|]. cbn zeta.
  rewrite Hgs, Hge. split_and!; [f_equal; lia | f_equal; lia | |].
  - rewrite (take_S_r _ _ _ Hi). unfold total_span. rewrite foldr_app. simpl.
    generalize (take i (ordered_sections ts)). intros l.
    induction l as [|a l IHl]; simpl; lia.
  - apply Sorted_merge_sort. intros a b. unfold index_le. lia.
Qed.


Lemma section_span_and_cursor_witness :
  exists sec',
    global_timing [ new_section 1 [timed "c" 0 300] None;
                    new_section 0 [timed "a" 0 500] (Some 700) ] !! 1%nat = Some sec' ∧
    sec_global_start_ms sec' = Some 700 ∧ sec_global_end_ms sec' = Some 1000.
Proof.
  destruct (section_span_and_cursor
              [ new_section 1 [timed "c" 0 300] None;
                new_section 0 [timed "a" 0 500] (Some 700) ] 1
              (new_section 1 [timed "c" 0 300] None))
    as (sec' & Hl & _ & Hgs & Hge & _).
  - vm_compute. reflexivity.
  - exists sec'. split_and!; [exact Hl | exact Hgs | exact Hge].
Defined.

(** A section with 100 ms of recorded audio whose line ends at 500 ms. *)
Lemma span_prefers_recorded_audio :
  let sec := new_section 0 [timed "a" 0 500] (Some 100) in
  described_span sec = 500 ∧
  map (fun s => (sec_global_start_ms s, sec_global_end_ms s)) (global_timing [sec])
    = [(Some 0, Some 100)] ∧
  map sec_global_end_ms (global_timing [sec]) ≠ [Some (0 + described_span sec)].
Proof. cbn zeta. split_and!; vm_compute; [reflexivity | reflexivity | discriminate]. Qed.

(** *** Monotonicity *)

Lemma sorted_shift c l :
  StronglySorted Z.le l -> StronglySorted Z.le (map (Z.add c) l).
Proof.
  induction 1 as [|x l Hs IH Hall]; simpl; constructor; [done|].
  rewrite Forall_forall in *. intros y Hy.
  apply list_elem_of_fmap in Hy as (z & -> & Hz). specialize (Hall z Hz). lia.
Qed.

Lemma sorted_app_bound (l1 l2 : list Z) b :
  StronglySorted Z.le l1 -> StronglySorted Z.le l2 ->
  Forall (fun x => x <= b) l1 -> Forall (fun x => b <= x) l2 ->
  StronglySorted Z.le (l1 ++ l2).
Proof.
  intros H1 H2 Hb1 Hb2. apply StronglySorted_app_2; [|done|done].
  rewrite Forall_forall in *. intros x1 x2 Hx1 Hx2.
  specialize (Hb1 x1 Hx1). specialize (Hb2 x2 Hx2). lia.
Qed.

Lemma global_stamps_cons c sec secs :
  global_stamps (time_sections c (sec :: secs))
  = line_stamps (timed_lines c (lines sec))
    ++ global_stamps (time_sections (c + span sec) secs).
Proof. cbn [time_sections]. by rewrite time_section_spec. Qed.

Lemma section_stamps_cons c sec secs :
  section_stamps (time_sections c (sec :: secs))
  = [c; c + span sec] ++ section_stamps (time_sections (c + span sec) secs).
Proof. cbn [time_sections]. by rewrite time_section_spec. Qed.

Lemma line_stamps_ordered c ls :
  StronglySorted Z.le (local_stamps ls) ->
  line_stamps (timed_lines c ls) = map (Z.add c) (local_stamps ls).
Proof.
  induction ls as [|l ls IH]; intros Hs; [done|].
  simpl in *. apply StronglySorted_inv in Hs as [Hs Hall].
  apply StronglySorted_inv in Hs as [Hs _].
  apply Forall_inv in Hall. rewrite IH by done.
  by rewrite Z.max_l by lia.
Qed.

Lemma end_le_max_local_end ls l :
  l ∈ ls -> int_or_0 (end_ms l) <= max_local_end ls.
Proof.
  induction ls as [|a ls IH]; intros Hl; [by apply elem_of_nil in Hl|].
  apply elem_of_cons in Hl as [->|Hl]; simpl; [lia|].
  specialize (IH Hl). lia.
Qed.

Lemma local_stamps_bounded sec :
  locally_ordered sec ->
  Forall (fun x => 0 <= x <= span sec) (local_stamps (lines sec)).
Proof.
  intros [Hs Haudio].
  apply StronglySorted_inv in Hs as [Hs Hpos].
  assert (forall l, l ∈ lines sec -> int_or_0 (end_ms l) <= span sec) as Hend.
  { intros l Hl. unfold span. case_decide as Ha.
    - specialize (Haudio Ha). rewrite Forall_forall in Haudio. by apply Haudio.
    - by apply end_le_max_local_end. }
  revert Hs Hpos Hend. generalize (span sec) as b. generalize (lines sec) as ls.
  induction ls as [|l ls IH]; intros b Hs Hpos Hend; [constructor|].
  simpl in *.
  apply StronglySorted_inv in Hs as [Hs Hall].
  apply StronglySorted_inv in Hs as [Hs _].
  apply Forall_inv in Hall.
  apply Forall_cons in Hpos as [H1 Hpos]. apply Forall_cons in Hpos as [H2 Hpos].
  pose proof (Hend l ltac:(by left)) as He.
  repeat constructor; try lia.
  apply IH; [done | done |]. intros l' Hl'. apply Hend. by right.
Qed.

Lemma lines_monotone secs : forall c,
  Forall locally_ordered secs ->
  StronglySorted Z.le (global_stamps (time_sections c secs)) ∧
  Forall (fun x => c <= x) (global_stamps (time_sections c secs)).
Proof.
  induction secs as [|sec secs IH]; intros c Hall.
  - split; constructor.
  - apply Forall_cons in Hall as [Hsec Hall].
    destruct (IH (c + span sec) Hall) as [Hsorted Hge].
    pose proof (local_stamps_bounded sec Hsec) as Hb.
    pose proof (span_nonneg sec) as Hspan.
    destruct Hsec as [Hs _]. apply StronglySorted_inv in Hs as [Hs _].
    rewrite global_stamps_cons, line_stamps_ordered by done. split.
    + apply (sorted_app_bound _ _ (c + span sec)); [by apply sorted_shift | done | | done].
      rewrite Forall_forall in *. intros x Hx.
      apply list_elem_of_fmap in Hx as (z & -> & Hz). specialize (Hb z Hz). lia.
    + apply Forall_app. split.
      * rewrite Forall_forall in *. intros x Hx.
        apply list_elem_of_fmap in Hx as (z & -> & Hz). specialize (Hb z Hz). lia.
      * eapply Forall_impl; [exact Hge|]. simpl. intros x Hx. lia.
Qed.

Lemma sections_monotone secs : forall c,
  StronglySorted Z.le (section_stamps (time_sections c secs)) ∧
  Forall (fun x => c <= x) (section_stamps (time_sections c secs)).
Proof.
  induction secs as [|sec secs IH]; intros c.
  - split; constructor.
  - destruct (IH (c + span sec)) as [Hsorted Hge].
    pose proof (span_nonneg sec) as Hspan.
    rewrite section_stamps_cons.
    assert (Forall (fun x => c + span sec <= x)
              (section_stamps (time_sections (c + span sec) secs))) as Hge' by done.
    split.
    + apply (sorted_app_bound _ _ (c + span sec)); [ | done | | done].
      * repeat constructor. lia.
      * repeat constructor; lia.
    + apply Forall_app. split; [repeat constructor; lia|].
      eapply Forall_impl; [exact Hge|]. simpl. intros x Hx. lia.
Qed.

Lemma line_span_ordered secs : forall c sec l,
  sec ∈ time_sections c secs -> l ∈ lines sec ->
  int_or_0 (global_start_ms l) <= int_or_0 (global_end_ms l).
Proof.
  induction secs as [|s secs IH]; intros c sec l Hsec Hl.
  - by apply elem_of_nil in Hsec.
  - cbn [time_sections] in Hsec. rewrite time_section_spec in Hsec.
    apply elem_of_cons in Hsec as [->|Hsec]; [|by eapply IH].
    simpl in Hl. apply list_elem_of_fmap in Hl as (l0 & -> & _). simpl. lia.
Qed.

(** *** Lines inside their section *)

Lemma line_stamps_effective c ls :
  line_stamps (timed_lines c ls) = map (Z.add c) (effective_stamps ls).
Proof. induction ls as [|l ls IH]; [done|]. simpl. by rewrite IH. Qed.

Lemma sorted_unshift c l :
  StronglySorted Z.le (map (Z.add c) l) -> StronglySorted Z.le l.
Proof.
  induction l as [|x l IH]; simpl; intros Hs; [constructor|].
  apply StronglySorted_inv in Hs as [Hs Hall]. constructor; [by apply IH|].
  rewrite Forall_forall in *. intros y Hy.
  assert (c + y ∈ map (Z.add c) l) as Hin by (apply list_elem_of_fmap; eauto).
  specialize (Hall _ Hin). lia.
Qed.

Lemma well_timed_inside sec : well_timed sec -> inside sec.
Proof.
  intros [Hl Haudio]. unfold inside. rewrite Forall_forall in *. intros l Hin.
  specialize (Hl l Hin). split; [lia|]. rewrite Z.max_l by lia.
  unfold span. case_decide as Ha.
  - by apply Haudio.
  - by apply end_le_max_local_end.
Qed.

Lemma effective_bounded sec :
  inside sec -> Forall (fun x => 0 <= x <= span sec) (effective_stamps (lines sec)).
Proof.
  unfold inside. generalize (span sec) as b. generalize (lines sec) as ls.
  induction ls as [|l ls IH]; intros b Hin; [constructor|].
  apply Forall_cons in Hin as [[H0 Hb] Hin]. simpl.
  repeat constructor; try lia. by apply IH.
Qed.

Lemma lines_sorted_iff secs : forall c,
  Forall inside secs ->
  (StronglySorted Z.le (global_stamps (time_sections c secs)) <->
   Forall (fun sec => StronglySorted Z.le (effective_stamps (lines sec))) secs) ∧
  Forall (fun x => c <= x) (global_stamps (time_sections c secs)).
Proof.
  induction secs as [|sec secs IH]; intros c Hall.
  - split; [split; constructor | constructor].
  - apply Forall_cons in Hall as [Hsec Hall].
    destruct (IH (c + span sec) Hall) as [Hiff Hge].
    pose proof (effective_bounded sec Hsec) as Hb.
    pose proof (span_nonneg sec) as Hspan.
    rewrite global_stamps_cons, line_stamps_effective.
    assert (Forall (fun x => x <= c + span sec)
              (map (Z.add c) (effective_stamps (lines sec)))) as Hle.
    { rewrite Forall_forall in *. intros x Hx.
      apply list_elem_of_fmap in Hx as (z & -> & Hz). specialize (Hb z Hz). lia. }
    split; [split|].
    + intros Hs. constructor.
      * apply (sorted_unshift c). by apply StronglySorted_app_1_l in Hs.
      * apply Hiff. by apply StronglySorted_app_1_r in Hs.
    + intros Hs. apply Forall_cons in Hs as [Hs1 Hs2].
      apply (sorted_app_bound _ _ (c + span sec));
        [by apply sorted_shift | by apply Hiff | done | done].
    + apply Forall_app. split.
      * rewrite Forall_forall in *. intros x Hx.
        apply list_elem_of_fmap in Hx as (z & -> & Hz). specialize (Hb z Hz). lia.
      * eapply Forall_impl; [exact Hge|]. simpl. intros x Hx. lia.
Qed.

Lemma lines_in_span secs : forall c sec l,
  Forall inside secs ->
  sec ∈ time_sections c secs -> l ∈ lines sec ->
  int_or_0 (sec_global_start_ms sec) <= int_or_0 (global_start_ms l) ∧
  int_or_0 (global_end_ms l) <= int_or_0 (sec_global_end_ms sec).
Proof.
  induction secs as [|s secs IH]; intros c sec l Hall Hsec Hl.
  - by apply elem_of_nil in Hsec.
  - apply Forall_cons in Hall as [Hs Hall].
    cbn [time_sections] in Hsec. rewrite time_section_spec in Hsec.
    apply elem_of_cons in Hsec as [->|Hsec]; [|by eapply IH].
    simpl in Hl. apply list_elem_of_fmap in Hl as (l0 & -> & Hl0). simpl.
    unfold inside in Hs. rewrite Forall_forall in Hs. specialize (Hs l0 Hl0). lia.
Qed.

Lemma section_starts_after secs : forall c sec,
  sec ∈ time_sections c secs -> c <= int_or_0 (sec_global_start_ms sec).
Proof.
  induction secs as [|s secs IH]; intros c sec Hsec.
  - by apply elem_of_nil in Hsec.
  - cbn [time_sections] in Hsec. rewrite time_section_spec in Hsec.
    apply elem_of_cons in Hsec as [->|Hsec]; [simpl; lia|].
    specialize (IH _ _ Hsec). pose proof (span_nonneg s). lia.
Qed.

Lemma sections_apart secs : forall c i j sec sec',
  (i < j)%nat ->
  time_sections c secs !! i = Some sec -> time_sections c secs !! j = Some sec' ->
  int_or_0 (sec_global_end_ms sec) <= int_or_0 (sec_global_start_ms sec').
Proof.
  induction secs as [|s secs IH]; intros c i j sec sec' Hij Hi Hj; [done|].
  cbn [time_sections] in Hi, Hj. rewrite time_section_spec in Hi, Hj.
  destruct j as [|j]; [lia|]. destruct i as [|i]; simpl in Hi, Hj.
  - injection Hi as <-. simpl.
    apply (section_starts_after secs). by eapply list_elem_of_lookup_2.
  - apply (IH (c + span s) i j); [lia | done | done].
Qed.

(** C3 (as amended): for any timing data the section spans written by the
    reconstruction are non-decreasing across the transcript and every line
    has [global_start_ms <= global_end_ms]. Whenever the lines lie inside
    their section's span (local start at least 0, local start and end at
    most the span, an absent timing read as 0) -- as they do when every
    line is untimed or has [0 <= start_ms <= end_ms] and no [end_ms] lies
    beyond a positive recorded [audio_ms], whichever lines lack a timing --
    the stamps of every line lie in the global span of its section, so no
    line of a later section is stamped before a line of an earlier one; and
    the line stamps of the whole transcript are then non-decreasing exactly
    when, inside each section, the local stamps the loop uses are. *)
Theorem global_timestamps_monotone ts :
  let out := global_timing ts in
  StronglySorted Z.le (section_stamps out) ∧
  (forall sec l, sec ∈ out -> l ∈ lines sec ->
     int_or_0 (global_start_ms l) <= int_or_0 (global_end_ms l)) ∧
  (Forall inside ts ->
     (forall sec l, sec ∈ out -> l ∈ lines sec ->
        int_or_0 (sec_global_start_ms sec) <= int_or_0 (global_start_ms l) ∧
        int_or_0 (global_end_ms l) <= int_or_0 (sec_global_end_ms sec)) ∧
     (forall i j sec sec' l l',
        (i < j)%nat -> out !! i = Some sec -> out !! j = Some sec' ->
        l ∈ lines sec -> l' ∈ lines sec' ->
        int_or_0 (global_end_ms l) <= int_or_0 (global_start_ms l')) ∧
     (StronglySorted Z.le (global_stamps out) <->
      Forall (fun sec => StronglySorted Z.le (effective_stamps (lines sec))) ts)) ∧
  (Forall well_timed ts -> Forall inside ts) ∧
  (Forall locally_ordered ts -> StronglySorted Z.le (global_stamps out)).
Proof.
  cbn zeta. unfold global_timing.
  assert (forall P : section -> Prop,
            Forall P ts <-> Forall P (ordered_sections ts)) as Hperm.
  { intros P. unfold ordered_sections. by rewrite merge_sort_Permutation. }
  split_and!.
  - apply sections_monotone.
  - apply line_span_ordered.
  - intros Hin. pose proof (proj1 (Hperm _) Hin) as Hin'. split_and!.
    + intros sec l. by apply lines_in_span.
    + intros i j sec sec' l l' Hij Hi Hj Hl Hl'.
      pose proof (sections_apart _ _ _ _ _ _ Hij Hi Hj) as Hap.
      apply list_elem_of_lookup_2 in Hi, Hj.
      pose proof (lines_in_span _ _ _ _ Hin' Hi Hl) as [_ H1].
      pose proof (lines_in_span _ _ _ _ Hin' Hj Hl') as [H2 _]. lia.
    + rewrite (Hperm (fun sec => StronglySorted Z.le (effective_stamps (lines sec)))).
      by apply lines_sorted_iff.
  - intros Hw. eapply Forall_impl; [exact Hw|]. apply well_timed_inside.
  - intros Hall. apply lines_monotone. by apply Hperm.
Qed.

Lemma global_timestamps_monotone_witness :
  StronglySorted Z.le (global_stamps (global_timing leading_untimed_line)) ∧
  exists sec sec',
    global_timing trailing_untimed_line !! 0%nat = Some sec ∧
    global_timing trailing_untimed_line !! 1%nat = Some sec' ∧
    Forall (fun l =>
      Forall (fun l' => int_or_0 (global_end_ms l) <= int_or_0 (global_start_ms l'))
             (lines sec')) (lines sec).
Proof.
  split.
  - refine (proj2 (proj2 (proj2 (proj1 (proj2 (proj2
              (global_timestamps_monotone leading_untimed_line))) _))) _);
      compute_done.
  - do 2 eexists. split; [vm_compute; reflexivity|]. split; [vm_compute; reflexivity|].
    rewrite Forall_forall. intros l Hl. rewrite Forall_forall. intros l' Hl'.
    refine (proj1 (proj2 (proj1 (proj2 (proj2
              (global_timestamps_monotone trailing_untimed_line))) _))
              0%nat 1%nat _ _ l l' _ _ _ Hl Hl');
      [compute_done | lia | vm_compute; reflexivity | vm_compute; reflexivity].
Defined.

(** Two of three lines get a timing (the provider skipped one): the third
    line starts before the second. *)
Lemma trailing_untimed_line_goes_back :
  let st := run_steps
              [ Submit 0 intro_meta;
                Complete 0 (TtsReturned
                  (stats (Some [Some (0, 500); Some (500, 900)]) 1400) true) ]
              (initial [new_section 0 [untimed "a"; untimed "b"; untimed "c"] None]) in
  let out := global_timing (transcript_sections st) in
  global_stamps out = [0; 500; 500; 900; 0; 0] ∧
  ¬ StronglySorted Z.le (global_stamps out) ∧
  ¬ StronglySorted Z.le
      (flat_map (fun sec => map (fun l => int_or_0 (global_start_ms l)) (lines sec)) out).
Proof.
  cbn zeta.
  match goal with |- ?l = _ ∧ _ => assert (l = [0; 500; 500; 900; 0; 0]) as ->
    by (vm_compute; reflexivity) end.
  match goal with |- _ ∧ _ ∧ ¬ StronglySorted _ ?l => assert (l = [0; 500; 0]) as ->
    by (vm_compute; reflexivity) end.
  split_and!; [reflexivity | |]; intros Hs.
  - apply StronglySorted_inv in Hs as [Hs _].
    apply StronglySorted_inv in Hs as [_ Hall].
    do 2 apply Forall_inv_tail in Hall. apply Forall_inv in Hall. lia.
  - apply StronglySorted_inv in Hs as [Hs _].
    apply StronglySorted_inv in Hs as [_ Hall].
    apply Forall_inv in Hall. lia.
Qed.

(** Every line is timed and in order, but the first section's line runs
    past its recorded audio: the next section starts before that line ends.
    Lines outside their section's span are not kept apart. *)
Lemma line_beyond_audio_overlaps_next_section :
  let out := global_timing line_beyond_audio in
  global_stamps out = [0; 500; 100; 400] ∧
  section_stamps out = [0; 100; 100; 400] ∧
  ¬ StronglySorted Z.le (global_stamps out) ∧
  ¬ Forall inside line_beyond_audio.
Proof.
  cbn zeta.
  assert (global_stamps (global_timing line_beyond_audio) = [0; 500; 100; 400]) as ->
    by (vm_compute; reflexivity).
  split_and!; [reflexivity | vm_compute; reflexivity | |].
  - intros Hs. apply StronglySorted_inv in Hs as [Hs _].
    apply StronglySorted_inv in Hs as [_ Hall]. apply Forall_inv in Hall. lia.
  - intros Hin. apply Forall_inv in Hin. apply Forall_inv in Hin.
    vm_compute in Hin. destruct Hin as [_ Hle]. by apply Hle.
Qed.

End TimingFacts.

Module StrFacts.

Lemma lstrip_suffix s : lstrip s `suffix_of` s.
Proof.
  induction s as [|c s IH]; simpl; [done|].
  destruct (is_space c); [by apply suffix_cons_r | done].
Qed.

Lemma lstrip_head s c rest : lstrip s = c :: rest -> is_space c = false.
Proof.
  induction s as [|a s IH]; simpl; [done|].
  destruct (is_space a) eqn:Ha; [done|]. intros [= <- _]. done.
Qed.

Lemma lstrip_fix s : (forall c rest, s = c :: rest -> is_space c = false) -> lstrip s = s.
Proof. destruct s as [|c s]; [done|]. intros H. simpl. by rewrite (H c s eq_refl). Qed.

Lemma lstrip_idem s : lstrip (lstrip s) = lstrip s.
Proof. apply lstrip_fix. intros c rest. apply lstrip_head. Qed.

Lemma rstrip_prefix s : rstrip s `prefix_of` s.
Proof.
  unfold rstrip. destruct (lstrip_suffix (rev s)) as [k Hk].
  exists (rev k). apply (f_equal (@rev char)) in Hk.
  rewrite rev_involutive, rev_app_distr in Hk. done.
Qed.

Lemma rstrip_last s c : last (rstrip s) = Some c -> is_space c = false.
Proof.
  unfold rstrip. destruct (lstrip (rev s)) as [|a l] eqn:Hl; [done|].
  simpl. rewrite last_snoc. intros [= <-]. by eapply lstrip_head.
Qed.

Lemma rstrip_fix s : (forall c, last s = Some c -> is_space c = false) -> rstrip s = s.
Proof.
  intros H. unfold rstrip. rewrite lstrip_fix; [apply rev_involutive|].
  intros c rest Hr. apply H. rewrite <- (rev_involutive s), Hr. simpl. apply last_snoc.
Qed.

Lemma rstrip_idem s : rstrip (rstrip s) = rstrip s.
Proof. apply rstrip_fix, rstrip_last. Qed.

Lemma prefix_head {A} (l1 l2 : list A) c rest :
  l1 `prefix_of` l2 -> l1 = c :: rest -> exists rest', l2 = c :: rest'.
Proof. intros [k ->] ->. eauto. Qed.

Lemma strip_trimmed s : trimmed (strip s).
Proof.
  split.
  - intros c rest Hs. unfold strip in Hs.
    destruct (prefix_head _ _ _ _ (rstrip_prefix (lstrip s)) Hs) as [rest' Hr].
    by eapply lstrip_head.
  - apply rstrip_last.
Qed.

Lemma strip_fix s : trimmed s -> strip s = s.
Proof. intros [Hh Hl]. unfold strip. rewrite (lstrip_fix s Hh). by apply rstrip_fix. Qed.

Lemma strip_idem s : strip (strip s) = strip s.
Proof. apply strip_fix, strip_trimmed. Qed.

Lemma length_lstrip s : (length (lstrip s) <= length s)%nat.
Proof. destruct (lstrip_suffix s) as [k Hk]. rewrite Hk at 2. rewrite length_app. lia. Qed.

Lemma length_rstrip s : (length (rstrip s) <= length s)%nat.
Proof. destruct (rstrip_prefix s) as [k Hk]. rewrite Hk at 2. rewrite length_app. lia. Qed.

Lemma length_strip s : (length (strip s) <= length s)%nat.
Proof. unfold strip. pose proof (length_rstrip (lstrip s)). pose proof (length_lstrip s). lia. Qed.

Lemma trimmed_nil : trimmed [].
Proof. split; intros; done. Qed.

Lemma length_py_take {A} (k : Z) (l : list A) :
  0 <= k -> Z.of_nat (length (py_take k l)) <= k.
Proof. intros Hk. unfold py_take. rewrite decide_True by done. rewrite length_take. lia. Qed.

Lemma py_take_prefix {A} (k : Z) (l : list A) : py_take k l `prefix_of` l.
Proof. unfold py_take. case_decide; apply prefix_take. Qed.

Lemma py_take_all {A} (k : Z) (l : list A) :
  Z.of_nat (length l) <= k -> py_take k l = l.
Proof. intros Hk. unfold py_take. rewrite decide_True by lia. apply take_ge. lia. Qed.

Lemma py_drop_suffix {A} (k : Z) (l : list A) : py_drop k l `suffix_of` l.
Proof. unfold py_drop. case_decide; apply suffix_drop. Qed.

Lemma endswith_last s suffix c :
  endswith s suffix = true -> last suffix = Some c -> last s = Some c.
Proof.
  unfold endswith. intros [k ->]%bool_decide_eq_true Hl.
  destruct suffix as [|a suffix]; [done|]. by rewrite last_app, Hl.
Qed.

Lemma length_omap_le {A B} (f : A -> option B) (l : list A) :
  (length (omap f l) <= length l)%nat.
Proof.
  induction l as [|a l IH]; [done|]. cbn [omap list_omap].
  destruct (f a); simpl; lia.
Qed.

Lemma elem_of_concat {A} (x : A) (l : list A) (ls : list (list A)) :
  x ∈ l -> l ∈ ls -> x ∈ concat ls.
Proof.
  intros Hx Hl. induction ls as [|l' ls IH]; [by apply elem_of_nil in Hl|].
  simpl. apply elem_of_app. apply elem_of_cons in Hl as [->|Hl]; [by left|].
  right. by apply IH.
Qed.

End StrFacts.

Module OrderFacts.
Import Planner PlannerFacts.

Lemma linked_prefix es l1 : forall l2, linked es (l1 ++ l2) -> linked es l1.
Proof.
  induction l1 as [|a l1 IH]; intros l2 H; [done|].
  destruct l1 as [|b l1]; [done|].
  simpl in *. destruct H as [He H]. split; [done|]. by eapply IH.
Qed.

Lemma linked_path es l : forall u v, linked es (u :: l ++ [v]) -> path es u v.
Proof.
  induction l as [|x l IH]; intros u v H; simpl in H.
  - apply path_one. tauto.
  - destruct H as [He H]. eapply path_step; [exact He|]. by apply IH.
Qed.

Lemma linked_NoDup_or_cyclic es w : linked es w -> NoDup w ∨ cyclic es.
Proof.
  induction w as [|h w IH]; intros Hl; [left; constructor|].
  assert (linked es w) as Hw by (destruct w; simpl in *; tauto).
  destruct (IH Hw) as [Hnd|Hc]; [|by right].
  destruct (decide (h ∈ w)) as [Hin|Hin].
  - right. exists h. apply list_elem_of_split in Hin as (l1 & l2 & ->).
    apply (linked_path es l1).
    apply (linked_prefix es (h :: l1 ++ [h]) l2).
    replace ((h :: l1 ++ [h]) ++ l2) with (h :: l1 ++ h :: l2); [done|].
    rewrite <- app_comm_cons, <- app_assoc. done.
  - left. by constructor.
Qed.

Lemma backward_walk es (U : list str) :
  (forall v, v ∈ U -> exists u, u ∈ U ∧ {| from := u; to := v |} ∈ es) ->
  forall n v, v ∈ U ->
    exists h w, length w = n ∧ (forall x, x ∈ h :: w -> x ∈ U) ∧ linked es (h :: w).
Proof.
  intros Hpred n. induction n as [|n IH]; intros v Hv.
  - exists v, []. split_and!; [done | | done].
    intros x ->%list_elem_of_singleton. done.
  - destruct (IH v Hv) as (h & w & Hlen & Hsub & Hl).
    destruct (Hpred h) as (u & Hu & He); [apply Hsub; by left|].
    exists u, (h :: w). split_and!.
    + simpl. by rewrite Hlen.
    + intros x [->|Hx]%elem_of_cons; [done | by apply Hsub].
    + simpl. split; [done|]. exact Hl.
Qed.

(** A non-empty set of nodes in which every node has a predecessor holds a
    cycle. *)
Lemma no_source_cyclic es (U : list str) :
  U ≠ [] ->
  (forall v, v ∈ U -> exists u, u ∈ U ∧ {| from := u; to := v |} ∈ es) ->
  cyclic es.
Proof.
  intros Hne Hpred. destruct U as [|v0 U0] eqn:HU; [done|]. rewrite <- HU in *.
  destruct (backward_walk es U Hpred (length U) v0) as (h & w & Hlen & Hsub & Hl).
  { rewrite HU. by left. }
  destruct (linked_NoDup_or_cyclic es (h :: w) Hl) as [Hnd|Hc]; [|done].
  exfalso.
  assert (h :: w ⊆+ U) as Hsm by (by apply NoDup_submseteq).
  apply submseteq_length in Hsm. simpl in Hsm. lia.
Qed.

Lemma remaining_pos es l v :
  remaining es l v ≠ 0%nat -> exists e, e ∈ es ∧ to e = v ∧ from e ∉ l.
Proof.
  unfold remaining. intros Hne.
  destruct (filter _ es) as [|e rest] eqn:Hf; [done|].
  assert (e ∈ filter (fun e => to e = v ∧ from e ∉ l) es) as He by (rewrite Hf; by left).
  apply list_elem_of_filter in He as [[Ht Hn] He]. eauto.
Qed.

Lemma relax_waiting ids ordered nxts : forall indeg q indeg' q',
  relax nxts indeg q = Returns (indeg', q') ->
  waiting ids indeg (ordered ++ q) -> waiting ids indeg' (ordered ++ q').
Proof.
  induction nxts as [|nxt rest IH]; intros indeg q indeg' q' Hr Hw; simpl in Hr.
  - by injection Hr as <- <-.
  - destruct (indeg !! nxt) as [d|] eqn:Hd; [|done].
    eapply IH; [exact Hr|].
    intros v Hv Hn. destruct (decide (nxt = v)) as [<-|Hne].
    + rewrite lookup_insert_eq. simpl. intros Hz.
      rewrite decide_True in Hn by done. apply Hn.
      rewrite app_assoc. apply elem_of_app. right. by left.
    + rewrite lookup_insert_ne by done. apply Hw; [done|].
      intros Hel. apply Hn. case_decide; [|done].
      rewrite app_assoc. apply elem_of_app. by left.
Qed.

Section Complete.
Variable es : list edge.
Variable ids : list str.
Hypothesis Hto : forall e, e ∈ es -> to e ∈ ids.

Lemma kahn_complete graph fuel : forall indeg q ordered l,
  kahn fuel graph indeg q ordered = Returns l ->
  (forall u, default [] (graph !! u) = graph_of es u) ->
  NoDup (ordered ++ q) ->
  (forall x, x ∈ ordered ++ q -> x ∈ ids) ->
  counted es indeg ordered [] ->
  settled indeg (ordered ++ q) ->
  waiting ids indeg (ordered ++ q) ->
  forall v, v ∈ ids -> v ∉ l -> exists e, e ∈ es ∧ to e = v ∧ from e ∉ l.
Proof.
  assert (Hend : forall indeg l, counted es indeg l [] -> waiting ids indeg l ->
            forall v, v ∈ ids -> v ∉ l -> exists e, e ∈ es ∧ to e = v ∧ from e ∉ l).
  { intros indeg l Hc Hw v Hv Hn. apply remaining_pos.
    specialize (Hw v Hv Hn). rewrite (Hc v) in Hw.
    change (occurrences v []) with 0%nat in Hw. lia. }
  induction fuel as [|fuel IH]; intros indeg q ordered l Hk Hg Hnd Hsub Hc Hs Hw.
  - destruct q; simpl in Hk; [|done]. injection Hk as <-.
    rewrite app_nil_r in *. by eapply Hend.
  - destruct q as [|cur q']; simpl in Hk.
    { injection Hk as <-. rewrite app_nil_r in *. by eapply Hend. }
    destruct (relax _ indeg q') as [[indeg' q'']| |] eqn:Hr; [|done|done].
    assert (cur ∉ ordered) as Hcur.
    { apply NoDup_app in Hnd as (_ & Hdisj & _). intros Hel.
      apply (Hdisj _ Hel). by left. }
    rewrite Hg in Hr.
    pose proof (relax_waiting ids (ordered ++ [cur]) _ _ _ _ _ Hr) as Hw'.
    destruct (relax_inv es ids (ordered ++ [cur]) _ _ _ _ _ Hr) as (Hnd' & Hsub' & Hc' & Hs').
    + intros n Hn. unfold graph_of in Hn.
      apply list_elem_of_fmap in Hn as (e & -> & He).
      apply list_elem_of_filter in He as [_ He]. by apply Hto.
    + by rewrite <- app_assoc.
    + intros x Hx. apply Hsub. by rewrite <- app_assoc in Hx.
    + intros v. rewrite (Hc v), (remaining_snoc es ordered cur v Hcur).
      change (occurrences v []) with 0%nat. f_equal. lia.
    + intros v Hv. apply Hs. by rewrite <- app_assoc in Hv.
    + eapply IH; try eassumption. apply Hw'. by rewrite <- app_assoc.
Qed.

(** Without any assumption on the ids: only nodes of [ids] are emitted. *)
Lemma relax_sub nxts : forall indeg q indeg' q',
  relax nxts indeg q = Returns (indeg', q') ->
  (forall n, n ∈ nxts -> n ∈ ids) ->
  (forall x, x ∈ q -> x ∈ ids) -> forall x, x ∈ q' -> x ∈ ids.
Proof.
  induction nxts as [|nxt rest IH]; intros indeg q indeg' q' Hr Hin Hq; simpl in Hr.
  - by injection Hr as <- <-.
  - destruct (indeg !! nxt) as [d|] eqn:Hd; [|done].
    eapply IH; [exact Hr | |].
    + intros n Hn. apply Hin. by right.
    + intros x Hx. case_decide; [|by apply Hq].
      apply elem_of_app in Hx as [Hx|Hx%list_elem_of_singleton]; [by apply Hq|].
      subst x. apply Hin. by left.
Qed.

Lemma kahn_sub graph fuel : forall indeg q ordered l,
  kahn fuel graph indeg q ordered = Returns l ->
  (forall u, default [] (graph !! u) = graph_of es u) ->
  (forall x, x ∈ ordered ++ q -> x ∈ ids) ->
  forall x, x ∈ l -> x ∈ ids.
Proof.
  induction fuel as [|fuel IH]; intros indeg q ordered l Hk Hg Hsub.
  - destruct q; simpl in Hk; [|done]. injection Hk as <-.
    by rewrite app_nil_r in Hsub.
  - destruct q as [|cur q']; simpl in Hk.
    { injection Hk as <-. by rewrite app_nil_r in Hsub. }
    destruct (relax _ indeg q') as [[indeg' q'']| |] eqn:Hr; [|done|done].
    rewrite Hg in Hr. eapply IH; [exact Hk | done |].
    intros x Hx. rewrite <- app_assoc in Hx. simpl in Hx.
    apply elem_of_app in Hx as [Hx|Hx]; [apply Hsub, elem_of_app; by left|].
    apply elem_of_cons in Hx as [->|Hx]; [apply Hsub, elem_of_app; right; by left|].
    eapply (relax_sub _ _ _ _ _ Hr); [| |exact Hx].
    + intros n Hn. unfold graph_of in Hn.
      apply list_elem_of_fmap in Hn as (e & -> & He).
      apply list_elem_of_filter in He as [_ He]. by apply Hto.
    + intros y Hy. apply Hsub, elem_of_app. right. by right.
Qed.

End Complete.

(** What the queue loop has produced when [topological_order] compares the
    lengths. *)
Lemma topological_order_cases ns es :
  NoDup (map id ns) -> filtered ns es ->
  exists l0,
    NoDup l0 ∧ (forall x, x ∈ l0 -> x ∈ map id ns) ∧ topo_sorted es l0 ∧
    (forall v, v ∈ map id ns -> v ∉ l0 -> exists e, e ∈ es ∧ to e = v ∧ from e ∉ l0) ∧
    topological_order ns es
    = Returns (if decide (length l0 ≠ length (map id ns)) then map id ns else l0).
Proof.
  intros Hnd Hf.
  destruct (topological_order_total ns es) as (l & Hret & _).
  unfold topological_order in *.
  destruct (foldl add_edge (∅, init_indeg (map id ns)) es) as [graph indeg] eqn:Hb.
  destruct (build_spec _ _ _ _ _ Hb) as [Hg Hi].
  set (q0 := filter (fun nid => default 0 (indeg !! nid) = 0) (map id ns)) in *.
  assert (Hto : forall e, e ∈ es -> to e ∈ map id ns) by (intros e He; by apply Hf).
  assert (Hg' : forall u, default [] (graph !! u) = graph_of es u).
  { intros u. rewrite Hg, lookup_empty. done. }
  assert (Hc0 : counted es indeg [] []).
  { intros u. rewrite Hi, init_indeg_zero.
    change (occurrences u []) with 0%nat. unfold remaining.
    rewrite Nat.add_0_r, Z.add_0_l. do 2 f_equal.
    apply list_filter_iff. intros e. split; [|tauto].
    intros ?. split; [done|]. apply not_elem_of_nil. }
  destruct (kahn _ graph indeg q0 []) as [l0| |] eqn:Hk; [|done|done].
  exists l0.
  destruct (kahn_inv es (map id ns) Hto graph _ _ _ _ _ Hk) as (Hndl & Hsubl & Htl);
    [done | by apply NoDup_filter
     | by intros x [_ ?]%list_elem_of_filter | done
     | by intros u [? _]%list_elem_of_filter
     | intros l1 x l2 e Hsplit; by destruct l1 |].
  split_and!; [done | done | done | | ].
  - eapply (kahn_complete es (map id ns) Hto graph _ _ _ _ _ Hk);
      [done | by apply NoDup_filter
       | by intros x [_ ?]%list_elem_of_filter | done
       | by intros u [? _]%list_elem_of_filter |].
    intros v Hv Hn. simpl in Hn. intros Hz. apply Hn.
    apply list_elem_of_filter. done.
  - by destruct (decide (length l0 ≠ length (map id ns))).
Qed.

Lemma topological_order_perm ns es :
  NoDup (map id ns) -> filtered ns es ->
  exists l, topological_order ns es = Returns l ∧ l ≡ₚ map id ns.
Proof.
  intros Hnd Hf.
  destruct (topological_order_cases ns es Hnd Hf) as (l0 & Hnd0 & Hsub & _ & _ & ->).
  case_decide as Hlen; eexists; (split; [done|]); [done|].
  apply submseteq_length_Permutation; [by apply NoDup_submseteq | lia].
Qed.

(** X1: With pairwise distinct node ids and edges between known nodes,
    [topological_order] returns a rearrangement of the node ids (no id is
    lost, added or repeated); when the edges have no cycle, every edge
    leads from an earlier entry of the result to a later one. *)
Theorem topological_order_sorts ns es :
  NoDup (map id ns) -> filtered ns es ->
  exists l, topological_order ns es = Returns l ∧ l ≡ₚ map id ns ∧
            (¬ cyclic es -> topo_sorted es l).
Proof.
  intros Hnd Hf.
  destruct (topological_order_cases ns es Hnd Hf) as (l0 & Hnd0 & Hsub & Hts & Hwait & ->).
  assert (l0 ⊆+ map id ns) as Hsm by (by apply NoDup_submseteq).
  case_decide as Hlen.
  - eexists. split_and!; [done | done |].
    intros Hacyc. exfalso. apply Hacyc.
    apply (no_source_cyclic es (filter (fun v => v ∉ l0) (map id ns))).
    + intros Hnil. apply Hlen.
      apply Nat.le_antisymm; [by apply submseteq_length|].
      apply submseteq_length, NoDup_submseteq; [done|].
      intros v Hv. destruct (decide (v ∈ l0)) as [|Hn]; [done|].
      exfalso. eapply (filter_nil_not_elem_of _ _ v Hnil); done.
    + intros v [Hn Hv]%list_elem_of_filter.
      destruct (Hwait v Hv Hn) as ([u v'] & He & Htv & Hfu). simpl in *. subst v'.
      exists u. split; [|done]. apply list_elem_of_filter. split; [done|].
      by apply (Hf _ He).
  - eexists. split_and!; [done | | done].
    apply submseteq_length_Permutation; [done|]. lia.
Qed.

Lemma topological_order_sorts_witness :
  exists l,
    topological_order
      [ {| id := lit "a"; title := lit "A"; role := lit "cause"; note := [] |};
        {| id := lit "b"; title := lit "B"; role := lit "effect"; note := [] |};
        {| id := lit "c"; title := lit "C"; role := lit "point"; note := [] |} ]
      [ {| from := lit "c"; to := lit "a" |}; {| from := lit "a"; to := lit "b" |} ]
    = Returns l ∧
    l ≡ₚ [lit "a"; lit "b"; lit "c"] ∧
    (¬ cyclic [ {| from := lit "c"; to := lit "a" |}; {| from := lit "a"; to := lit "b" |} ] ->
     topo_sorted [ {| from := lit "c"; to := lit "a" |}; {| from := lit "a"; to := lit "b" |} ] l).
Proof.
  apply (topological_order_sorts
           [ {| id := lit "a"; title := lit "A"; role := lit "cause"; note := [] |};
             {| id := lit "b"; title := lit "B"; role := lit "effect"; note := [] |};
             {| id := lit "c"; title := lit "C"; role := lit "point"; note := [] |} ]).
  - compute_done.
  - unfold filtered. rewrite <- Forall_forall. compute_done.
Defined.

(** An edge list that was not filtered: the loop emits the foreign node
    [x] in place of [b], and the lengths agree. *)
Lemma unfiltered_edges_lose_a_node :
  topological_order stray_nodes stray_edges = Returns [lit "a"; lit "x"].
Proof. vm_compute. reflexivity. Qed.

(** Only node ids are returned, whether or not the ids are distinct. *)
Lemma topological_order_sub ns es :
  filtered ns es ->
  exists l, topological_order ns es = Returns l ∧ length l = length ns ∧
            (forall x, x ∈ l -> x ∈ map id ns).
Proof.
  intros Hf.
  destruct (topological_order_total ns es) as (l & Hret & Hlen).
  exists l. split_and!; [done | done |].
  unfold topological_order in *.
  destruct (foldl add_edge (∅, init_indeg (map id ns)) es) as [graph indeg] eqn:Hb.
  destruct (build_spec _ _ _ _ _ Hb) as [Hg Hi].
  destruct (kahn _ graph indeg _ []) as [l0| |] eqn:Hk; [|done|done].
  case_decide; injection Hret as <-; [done|].
  eapply (kahn_sub es (map id ns)); [|exact Hk| |].
  - intros e He. by apply Hf.
  - intros u. rewrite Hg, lookup_empty. done.
  - by intros x [_ ?]%list_elem_of_filter.
Qed.

End OrderFacts.

Module AgendaFacts.
Import Planner PlannerFacts StrFacts OrderFacts.

(** *** Chunks of two with the trailing singleton merged *)

Lemma pair_ind {A} (P : list A -> Prop) :
  P [] -> (forall a, P [a]) -> (forall a b l, P l -> P (a :: b :: l)) ->
  forall l, P l.
Proof.
  intros H0 H1 H2.
  assert (forall l, P l ∧ forall a, P (a :: l)) as H.
  { induction l as [|b l [IH1 IH2]]; [by split|].
    split; [apply IH2|]. intros a. by apply H2. }
  intros l. apply H.
Qed.

Lemma chunks_step {A} (a b : A) l :
  merge_trailing (chunks_of_2 (a :: b :: l))
  = match l with
    | [] => [[a; b]]
    | [x] => [[a; b; x]]
    | _ => [a; b] :: merge_trailing (chunks_of_2 l)
    end.
Proof. destruct l as [|x [|y l]]; reflexivity. Qed.

Lemma chunks_concat {A} (l : list A) : concat (merge_trailing (chunks_of_2 l)) = l.
Proof.
  induction l as [| |a b l IH] using pair_ind; [done|done|].
  rewrite chunks_step. destruct l as [|x [|y l]]; [done|done|].
  rewrite concat_cons, IH. done.
Qed.

Lemma chunks_sizes {A} (l : list A) :
  (2 <= length l)%nat ->
  Forall (fun c => length c = 2%nat ∨ length c = 3%nat) (merge_trailing (chunks_of_2 l)).
Proof.
  induction l as [| |a b l IH] using pair_ind; intros Hlen;
    [simpl in Hlen; lia | simpl in Hlen; lia |].
  rewrite chunks_step. destruct l as [|x [|y l]].
  - constructor; [by left | constructor].
  - constructor; [by right | constructor].
  - constructor; [by left|]. apply IH. simpl. lia.
Qed.

Lemma chunks_count {A} (l : list A) :
  (2 <= length l)%nat ->
  length (merge_trailing (chunks_of_2 l)) = (length l / 2)%nat.
Proof.
  induction l as [| |a b l IH] using pair_ind; intros Hlen;
    [simpl in Hlen; lia | simpl in Hlen; lia |].
  rewrite chunks_step. destruct l as [|x [|y l]]; [done|done|].
  cbn [length] in *. rewrite IH by lia.
  replace (S (S (S (S (length l))))) with (S (S (length l)) + 1 * 2)%nat by lia.
  rewrite Nat.div_add by done. lia.
Qed.

(** *** The chapters built from the ordered ids *)

Lemma by_id_lookup ns : forall k,
  k ∈ map id ns ->
  exists n, foldl (fun m n => <[id n := n]> m) (∅ : gmap str node) ns !! k = Some n ∧ id n = k.
Proof.
  induction ns as [|x ns IH] using rev_ind; intros k Hk.
  - by apply elem_of_nil in Hk.
  - rewrite foldl_app. simpl. destruct (decide (id x = k)) as [<-|Hne].
    + exists x. by rewrite lookup_insert_eq.
    + rewrite lookup_insert_ne by done. apply IH.
      rewrite map_app in Hk. apply elem_of_app in Hk as [Hk|Hk]; [done|].
      simpl in Hk. apply list_elem_of_singleton in Hk. congruence.
Qed.

Lemma omap_by_id (by_id : gmap str node) oids :
  (forall k, k ∈ oids -> exists n, by_id !! k = Some n ∧ id n = k) ->
  map id (omap (fun nid => by_id !! nid) oids) = oids.
Proof.
  induction oids as [|k oids IH]; intros H; [done|].
  destruct (H k) as (n & Hn & Hid); [by left|].
  cbn [omap list_omap]. rewrite Hn. cbn [map]. rewrite Hid. f_equal.
  apply IH. intros k' Hk'. apply H. by right.
Qed.

Lemma node_ids_imap chunks : forall k,
  map node_ids (imap (fun i => build_chapter (k + i)) chunks)
  = map (fun c => map id (filter (fun n => id n ≠ []) c)) chunks.
Proof.
  induction chunks as [|c chunks IH]; intros k; [done|].
  simpl. f_equal. rewrite <- (IH (S k)). f_equal.
  apply imap_ext. intros i x _. simpl. f_equal. lia.
Qed.

Lemma filter_all {A} (P : A -> Prop) `{forall x, Decision (P x)} (l : list A) :
  Forall P l -> filter P l = l.
Proof.
  induction 1 as [|x l Hx _ IH]; [done|].
  rewrite filter_cons, decide_True by done. by rewrite IH.
Qed.

Lemma build_chapters_spec ns oids :
  oids ≠ [] -> (forall k, k ∈ oids -> k ∈ map id ns) -> Forall (fun k => k ≠ []) oids ->
  exists chunks,
    concat chunks = oids ∧
    chunks = merge_trailing (chunks_of_2 oids) ∧
    map node_ids (_build_chapters_from_ordered_nodes ns oids) = chunks.
Proof.
  intros Hne Hin Hids. unfold _build_chapters_from_ordered_nodes. cbv zeta.
  match goal with |- context [match ?o with [] => _ | _ :: _ => _ end] =>
    assert (map id o = oids) as Hmap
      by (apply omap_by_id; intros k Hk; by apply by_id_lookup, Hin);
    revert Hmap; generalize o
  end.
  intros ordered Hmap.
  exists (merge_trailing (chunks_of_2 oids)).
  split_and!; [apply chunks_concat | done |].
  assert (match ordered with [] => ns | _ :: _ => ordered end = ordered) as ->.
  { destruct ordered; [|done]. by destruct oids. }
  rewrite (node_ids_imap _ 0).
  assert (Forall (fun n => id n ≠ []) ordered) as Hall.
  { apply Forall_forall. intros n Hn. rewrite Forall_forall in Hids. apply Hids.
    rewrite <- Hmap. apply list_elem_of_fmap. eauto. }
  revert Hall. rewrite <- Hmap. clear.
  induction ordered as [| |a b l IH] using pair_ind; intros Hall; [done| |].
  - apply Forall_cons in Hall as [Ha _]. simpl.
    rewrite filter_cons, decide_True by done. done.
  - apply Forall_cons in Hall as [Ha Hall]. apply Forall_cons in Hall as [Hb Hall].
    cbn [map]. rewrite !chunks_step.
    destruct l as [|x [|y l]].
    + simpl. rewrite !filter_cons, !decide_True by done. done.
    + apply Forall_cons in Hall as [Hx _]. simpl.
      rewrite !filter_cons, !decide_True by done. done.
    + cbn [map]. rewrite IH by done. cbn [map].
      rewrite !filter_cons, !decide_True by done. done.
Qed.

(** *** What the normalizer returns *)

Lemma pad_appends topic tpls : forall ns ex k,
  (forall t, t ∈ tpls -> t ∈ pad_templates topic) ->
  exists extra, pad tpls ns ex k = ns ++ extra ∧ Forall (padded_from topic) extra.
Proof.
  induction tpls as [|tpl rest IH]; intros ns ex k Hsub; simpl.
  - exists []. by rewrite app_nil_r.
  - case_decide.
    { exists []. by rewrite app_nil_r. }
    assert (forall t, t ∈ rest -> t ∈ pad_templates topic) as Hrest.
    { intros t Ht. apply Hsub. by right. }
    case_decide.
    + by apply IH.
    + destruct (IH (ns ++ [ {| id := n_id k; title := tpl.1; role := tpl.2; note := [] |} ])
                  ({[ tpl.1 ]} ∪ ex) (S k) Hrest) as (extra & -> & Hex).
      eexists (_ :: extra). rewrite <- app_assoc. split; [done|].
      constructor; [|done]. exists k, tpl. split; [|done]. apply Hsub. by left.
Qed.

Lemma cleaned_nodes lower ag :
  Forall (fun n => id n ≠ [] ∧ title n ≠ [] ∧ trimmed (title n)) (cleaned lower ag).
Proof.
  unfold cleaned. apply Forall_forall. intros n Hn.
  apply list_elem_of_omap in Hn as (o & Ho & Hsome). simpl in Hsome. subst o.
  apply elem_of_lookup_imap in Ho as (i & r & Hc & _). symmetry in Hc.
  destruct r as [|rid rtitle rrole rnote]; [done|]. simpl in Hc.
  destruct (strip rtitle) as [|c t] eqn:Ht; [done|]. simpl in Hc.
  injection Hc as <-. simpl. split_and!.
  - destruct rid; simpl; done.
  - done.
  - rewrite <- Ht. apply strip_trimmed.
Qed.

Lemma padded_nodes topic n : padded_from topic n -> id n ≠ [] ∧ title n ≠ [].
Proof.
  intros (k & t & Ht & ->). simpl. split; [done|].
  unfold pad_templates in Ht.
  repeat (apply elem_of_cons in Ht as [->|Ht]); [..|by apply elem_of_nil in Ht];
    simpl; try done; by destruct topic.
Qed.

Lemma clean_edges_filtered (ns : list node) raw :
  filtered ns (omap (clean_edge (list_to_set (map id ns))) raw).
Proof.
  intros e He. apply list_elem_of_omap in He as (r & _ & Hr).
  destruct r as [|rfrom rto]; [done|]. simpl in Hr.
  case_decide as Hd; [|done]. injection Hr as <-. simpl.
  destruct Hd as (H1 & H2 & H3). rewrite !elem_of_list_to_set in *. done.
Qed.

(** The steps of [_normalize_agenda], read off its result. *)
Lemma normalize_shape lower ag topic :
  exists extra es l,
    let ns := take max_nodes (cleaned lower ag) ++ extra in
    _normalize_agenda lower ag topic
    = Returns {| ag_topic := topic; nodes := ns; edges := es; ordered_node_ids := l;
                 chapters := _build_chapters_from_ordered_nodes ns l |} ∧
    Forall (padded_from topic) extra ∧
    ((min_nodes <= length (cleaned lower ag))%nat -> extra = []) ∧
    (min_nodes <= length ns <= max_nodes)%nat ∧
    es = omap (clean_edge (list_to_set (map id ns))) (default [] (raw_edges ag)) ∧
    topological_order ns es = Returns l.
Proof.
  unfold _normalize_agenda. fold (cleaned lower ag).
  set (ns1 := cleaned lower ag).
  assert ((if decide (max_nodes < length ns1)%nat then take max_nodes ns1 else ns1)
          = take max_nodes ns1) as ->.
  { case_decide; [done|]. rewrite take_ge; [done|lia]. }
  set (ns2 := take max_nodes ns1).
  assert (length ns2 <= max_nodes)%nat as H2.
  { subst ns2. rewrite length_take. lia. }
  assert (exists extra,
            (if decide (length ns2 < min_nodes)%nat
             then pad (pad_templates topic) ns2 (list_to_set (map title ns2)) (length ns2 + 1)
             else ns2) = ns2 ++ extra ∧
            Forall (padded_from topic) extra ∧
            ((min_nodes <= length ns1)%nat -> extra = []) ∧
            (min_nodes <= length (ns2 ++ extra) <= max_nodes)%nat)
    as (extra & -> & Hex & Hnone & Hlen).
  { case_decide as Hlt.
    - destruct (pad_appends topic (pad_templates topic) ns2
                  (list_to_set (map title ns2)) (length ns2 + 1)) as (extra & Hp & Hex); [done|].
      exists extra. split; [done|]. split; [done|]. split.
      + intros Hge. subst ns2. rewrite length_take in Hlt.
        unfold min_nodes, max_nodes in *. lia.
      + rewrite <- Hp, pad_reaches_min by done. unfold min_nodes, max_nodes. lia.
    - exists []. rewrite app_nil_r. split; [done|]. split; [done|]. split; [done|lia]. }
  exists extra.
  destruct (ns2 ++ extra) as [|n ns3] eqn:Hns;
    [unfold min_nodes in Hlen; simpl in Hlen; lia|].
  rewrite <- Hns in *.
  set (es := omap _ _).
  destruct (topological_order_total (ns2 ++ extra) es) as (l & Hl & _).
  exists es, l. cbv zeta. rewrite Hns at 1. rewrite <- Hns. rewrite Hl.
  split; [done|]. split; [done|]. split; [done|]. split; [done|]. split; done.
Qed.

(** X2: Whatever the model answered, the agenda that [_normalize_agenda]
    returns is well formed: every node has a non-empty id and a non-empty
    title, every edge joins two different ids of the node list, and
    [ordered_node_ids] holds ids of the node list only. *)
Theorem normalized_agenda_well_formed lower ag topic :
  exists a, _normalize_agenda lower ag topic = Returns a ∧
    Forall (fun n => id n ≠ [] ∧ title n ≠ []) (nodes a) ∧
    filtered (nodes a) (edges a) ∧
    (forall x, x ∈ ordered_node_ids a -> x ∈ map id (nodes a)).
Proof.
  destruct (normalize_shape lower ag topic) as (extra & es & l & Hret & Hex & _ & _ & Hes & Hl).
  cbv zeta in *. eexists. split; [exact Hret|]. cbn [nodes edges ordered_node_ids].
  assert (filtered (take max_nodes (cleaned lower ag) ++ extra) es) as Hf.
  { rewrite Hes. apply clean_edges_filtered. }
  split_and!; [|done|].
  - apply Forall_app. split.
    + apply Forall_take. eapply Forall_impl; [apply cleaned_nodes|]. simpl. tauto.
    + eapply Forall_impl; [exact Hex|]. apply padded_nodes.
  - destruct (topological_order_sub _ _ Hf) as (l' & Hl' & _ & Hsub).
    rewrite Hl in Hl'. injection Hl' as <-. done.
Qed.

Lemma normalized_chapters_spec lower ag topic :
  exists a, _normalize_agenda lower ag topic = Returns a ∧
    concat (map node_ids (chapters a)) = ordered_node_ids a ∧
    Forall (fun c => length (node_ids c) = 2%nat ∨ length (node_ids c) = 3%nat)
           (chapters a) ∧
    (2 <= length (chapters a) <= 3)%nat ∧
    map chapter_id (chapters a) = map c_id (seq 1 (length (chapters a))) ∧
    (forall x, x ∈ ordered_node_ids a -> x ∈ map id (nodes a)) ∧
    Forall (fun c => ch_title c ≠ []) (chapters a).
Proof.
  destruct (normalize_shape lower ag topic) as (extra & es & l & Hret & Hex & _ & Hlen & Hes & Hl).
  cbv zeta in *. eexists. split; [exact Hret|]. cbn [chapters ordered_node_ids].
  set (ns := take max_nodes (cleaned lower ag) ++ extra) in *.
  assert (filtered ns es) as Hf by (rewrite Hes; apply clean_edges_filtered).
  destruct (topological_order_sub _ _ Hf) as (l' & Hl' & Hll & Hsub).
  rewrite Hl in Hl'. injection Hl' as <-.
  assert (Forall (fun n => id n ≠ []) ns) as Hids.
  { apply Forall_app. split.
    - apply Forall_take. eapply Forall_impl; [apply cleaned_nodes|]. simpl. tauto.
    - eapply Forall_impl; [exact Hex|]. intros n Hn. apply padded_nodes in Hn. tauto. }
  destruct (build_chapters_spec ns l) as (chunks & Hcat & Hch & Hmap).
  { intros ->. simpl in Hll. unfold min_nodes in Hlen. lia. }
  { done. }
  { apply Forall_forall. intros k Hk. apply Hsub in Hk.
    apply list_elem_of_fmap in Hk as (n & -> & Hn).
    rewrite Forall_forall in Hids. by apply Hids. }
  assert (length (_build_chapters_from_ordered_nodes ns l) = (length l / 2)%nat) as Hcount.
  { rewrite <- (length_map node_ids), Hmap, Hch. apply chunks_count.
    unfold min_nodes in Hlen. lia. }
  split; [|split; [|split; [|split; [|split]]]].
  - by rewrite Hmap.
  - apply Forall_forall. intros c Hc.
    assert (node_ids c ∈ map node_ids (_build_chapters_from_ordered_nodes ns l)) as Hin
      by (apply list_elem_of_fmap; eauto).
    rewrite Hmap, Hch in Hin.
    assert (2 <= length l)%nat as H2 by (unfold min_nodes in Hlen; lia).
    pose proof (chunks_sizes l H2) as Hsz. rewrite Forall_forall in Hsz.
    by apply Hsz.
  - rewrite Hcount, Hll. unfold min_nodes, max_nodes in Hlen.
    assert (length ns = 5 ∨ length ns = 6 ∨ length ns = 7)%nat as [-> | [-> | ->]] by lia;
      simpl; lia.
  - unfold _build_chapters_from_ordered_nodes.
    match goal with |- context [imap build_chapter ?c] => generalize c end.
    intros cs. rewrite length_imap.
    assert (forall k, map chapter_id (imap (fun i => build_chapter (k + i)) cs)
                      = map c_id (seq (S k) (length cs))) as H.
    { induction cs as [|c cs IH]; intros k; [done|].
      simpl. f_equal; [by rewrite Nat.add_0_r|].
      rewrite <- (IH (S k)). f_equal. apply imap_ext. intros i x _. simpl.
      f_equal. lia. }
    exact (H 0%nat).
  - done.
  - unfold _build_chapters_from_ordered_nodes.
    match goal with |- context [imap build_chapter ?c] => generalize c end.
    intros cs. apply Forall_forall. intros c Hc.
    apply elem_of_lookup_imap in Hc as (i & chunk & -> & _). done.
Qed.

(** X3: The chapters of a normalized agenda partition [ordered_node_ids]:
    read chapter after chapter, their [node_ids] give exactly the ordered
    ids; there are two or three chapters, numbered [c1], [c2], ..., each
    with two or three node ids (a trailing single node is merged into the
    chapter before it). *)
Theorem normalized_chapters_partition lower ag topic :
  exists a, _normalize_agenda lower ag topic = Returns a ∧
    concat (map node_ids (chapters a)) = ordered_node_ids a ∧
    Forall (fun c => length (node_ids c) = 2%nat ∨ length (node_ids c) = 3%nat)
           (chapters a) ∧
    (2 <= length (chapters a) <= 3)%nat ∧
    map chapter_id (chapters a) = map c_id (seq 1 (length (chapters a))).
Proof.
  destruct (normalized_chapters_spec lower ag topic) as (a & H1 & H2 & H3 & H4 & H5 & _).
  exists a. split_and!; (done || lia).
Qed.

(** X4: The normalizer never edits, reorders or drops a usable node of the
    model answer other than by cutting the list after the seventh: the
    first seven usable nodes open the node list in their order, everything
    after them is a padding template, and nothing is appended when the
    answer has five usable nodes or more. *)
Theorem normalizer_keeps_usable_nodes lower ag topic :
  exists a extra, _normalize_agenda lower ag topic = Returns a ∧
    nodes a = take 7 (cleaned lower ag) ++ extra ∧
    Forall (padded_from topic) extra ∧
    ((5 <= length (cleaned lower ag))%nat -> extra = []) ∧
    ((length (cleaned lower ag) < 5)%nat ->
     length extra = (5 - length (cleaned lower ag))%nat).
Proof.
  destruct (normalize_shape lower ag topic) as (extra & es & l & Hret & Hex & Hnone & Hlen & _).
  cbv zeta in *. eexists _, extra. split; [exact Hret|]. cbn [nodes].
  split_and!; [done | done | done |].
  intros Hlt.
  unfold max_nodes, min_nodes in *.
  rewrite take_ge in * by lia.
  (* fewer than five: the pad loop stops at exactly five *)
  revert Hret. unfold _normalize_agenda. fold (cleaned lower ag).
  rewrite (decide_False (P := (max_nodes < _)%nat)) by (unfold max_nodes; lia).
  rewrite (decide_True (P := (_ < min_nodes)%nat)) by (unfold min_nodes; lia).
  pose proof (pad_reaches_min topic (cleaned lower ag)) as Hp.
  unfold min_nodes in Hp. specialize (Hp Hlt).
  destruct (pad _ _ _ _) as [|n ns] eqn:Hpad; [simpl in Hp; lia|].
  destruct (topological_order _ _) as [l'| |]; [|done|done].
  intros [= Hn _ _]. cbn [nodes] in Hn.
  apply (f_equal length) in Hn. rewrite Hp, length_app in Hn. lia.
Qed.

Lemma normalizer_keeps_usable_nodes_witness :
  exists a extra, _normalize_agenda ascii_lower dropped_first_node (lit "AI") = Returns a ∧
    nodes a = take 7 (cleaned ascii_lower dropped_first_node) ++ extra ∧
    Forall (padded_from (lit "AI")) extra ∧
    ((5 <= length (cleaned ascii_lower dropped_first_node))%nat -> extra = []) ∧
    ((length (cleaned ascii_lower dropped_first_node) < 5)%nat ->
     length extra = (5 - length (cleaned ascii_lower dropped_first_node))%nat).
Proof. apply (normalizer_keeps_usable_nodes ascii_lower dropped_first_node (lit "AI")). Defined.

(** *** _truncate *)

(** *** An answer without usable nodes *)

Lemma unusable_shape lower ag topic :
  Forall (fun n => usable n = false) (default [] (raw_nodes ag)) ->
  _normalize_agenda lower ag topic
  = let es := omap (clean_edge (list_to_set template_ids)) (default [] (raw_edges ag)) in
    match topological_order (template_nodes topic) es with
    | Returns l =>
        Returns {| ag_topic := topic; nodes := template_nodes topic; edges := es;
                   ordered_node_ids := l;
                   chapters := _build_chapters_from_ordered_nodes (template_nodes topic) l |}
    | Raises e => Raises e
    | OutOfFuel => OutOfFuel
    end.
Proof.
  intros Hun. unfold _normalize_agenda. cbv zeta.
  rewrite (omap_imap_none (default [] (raw_nodes ag)) (clean_node lower)).
  2:{ intros i x Hx. rewrite Forall_forall in Hun. specialize (Hun x Hx).
      destruct x as [|rid rtitle rrole rnote]; [done|]. simpl in *. by rewrite Hun. }
  rewrite (decide_False (P := (max_nodes < length (@nil node))%nat))
    by (unfold max_nodes; cbn [length]; lia).
  rewrite (decide_True (P := (length (@nil node) < min_nodes)%nat))
    by (unfold min_nodes; cbn [length]; lia).
  change (list_to_set (map title [])) with (∅ : gset str).
  change (length (@nil node) + 1)%nat with 1%nat.
  rewrite pad_from_empty.
  change (map id (template_nodes topic)) with template_ids.
  generalize (omap (clean_edge (list_to_set template_ids)) (default [] (raw_edges ag))).
  intros es. unfold template_nodes, pad_templates. cbn [imap]. reflexivity.
Qed.

(** C6 (as amended): when no candidate node is usable, the normalizer
    returns a five-node agenda, not a four-node one: its nodes are the five
    padding templates [n1 .. n5] of the topic, its edges are the raw edges
    between two different template ids, its order is a rearrangement of
    [n1 .. n5] and its chapters split that order. The candidate nodes have
    no influence at all; when the answer also gives no edge between template
    ids, the agenda is the one of the empty answer, fixed by the topic: no
    edge, the order [n1 .. n5], the chapters [c1] of [n1, n2] and [c2] of
    [n3, n4, n5]. *)
Theorem unusable_input_gets_five_templates lower ag topic :
  Forall (fun n => usable n = false) (default [] (raw_nodes ag)) ->
  exists a, _normalize_agenda lower ag topic = Returns a ∧
    ag_topic a = topic ∧
    nodes a = template_nodes topic ∧
    length (nodes a) = 5%nat ∧
    edges a = omap (clean_edge (list_to_set template_ids)) (default [] (raw_edges ag)) ∧
    ordered_node_ids a ≡ₚ template_ids ∧
    concat (map node_ids (chapters a)) = ordered_node_ids a ∧
    _normalize_agenda lower {| raw_nodes := None; raw_edges := raw_edges ag |} topic
    = Returns a ∧
    (edges a = [] ->
     _normalize_agenda lower {| raw_nodes := None; raw_edges := None |} topic = Returns a ∧
     ordered_node_ids a = template_ids ∧
     map (fun c => (chapter_id c, node_ids c)) (chapters a)
     = [ (c_id 1, [n_id 1; n_id 2]); (c_id 2, [n_id 3; n_id 4; n_id 5]) ]).
Proof.
  intros Hun.
  destruct (normalized_chapters_spec lower ag topic) as (a & Hret & Hcat & _).
  exists a. split; [exact Hret|].
  pose proof (unusable_shape lower ag topic Hun) as Hshape.
  pose proof (unusable_shape lower {| raw_nodes := None; raw_edges := raw_edges ag |}
                topic ltac:(constructor)) as Hshape1.
  pose proof (unusable_shape lower {| raw_nodes := None; raw_edges := None |}
                topic ltac:(constructor)) as Hshape0.
  cbv zeta in Hshape, Hshape1, Hshape0. cbn [raw_edges] in Hshape1, Hshape0.
  rewrite <- Hshape in Hshape1. rewrite Hret in Hshape, Hshape1.
  set (es := omap (clean_edge (list_to_set template_ids)) (default [] (raw_edges ag))) in *.
  destruct (topological_order_perm (template_nodes topic) es) as (l & Hl & Hperm).
  { change (map id (template_nodes topic)) with template_ids. compute_done. }
  { change (list_to_set template_ids)
      with (list_to_set (C := gset str) (map id (template_nodes topic))) in es.
    apply clean_edges_filtered. }
  rewrite Hl in Hshape. injection Hshape as ->.
  cbn [ag_topic nodes edges ordered_node_ids chapters] in *.
  split_and!; try done.
  intros Hnil. rewrite Hnil in Hl.
  assert (topological_order (template_nodes topic) [] = Returns template_ids) as Hl0
    by (vm_compute; reflexivity).
  rewrite Hl0 in Hl. injection Hl as <-.
  change (default [] None) with (@nil raw_edge) in Hshape0.
  change (omap (clean_edge (list_to_set template_ids)) []) with (@nil edge) in Hshape0.
  rewrite Hl0 in Hshape0. rewrite Hnil.
  split_and!; [exact Hshape0 | done |].
  vm_compute. reflexivity.
Qed.

Lemma unusable_input_gets_five_templates_witness :
  exists a, _normalize_agenda ascii_lower unusable_nodes_only (lit "AI") = Returns a ∧
    nodes a = template_nodes (lit "AI") ∧
    edges a = [] ∧
    ordered_node_ids a = template_ids ∧
    _normalize_agenda ascii_lower {| raw_nodes := None; raw_edges := None |} (lit "AI")
    = Returns a.
Proof.
  destruct (unusable_input_gets_five_templates ascii_lower unusable_nodes_only (lit "AI"))
    as (a & Hret & _ & Hn & _ & He & _ & _ & _ & Hfixed).
  - simpl. repeat constructor.
  - assert (edges a = []) as Hnil by (rewrite He; vm_compute; reflexivity).
    destruct (Hfixed Hnil) as (H0 & Ho & _).
    exists a. split_and!; done.
Defined.

(** Raw edges that name template ids survive: with the same topic, two
    answers without usable nodes get different edges, orders and chapters. *)
Lemma raw_edges_survive_without_usable_nodes :
  exists a b,
    _normalize_agenda ascii_lower unusable_nodes_with_edges (lit "AI") = Returns a ∧
    _normalize_agenda ascii_lower unusable_nodes_only (lit "AI") = Returns b ∧
    nodes a = nodes b ∧
    edges a = [ {| from := lit "n2"; to := lit "n1" |} ] ∧ edges b = [] ∧
    ordered_node_ids a = map n_id [2; 3; 4; 5; 1]%nat ∧
    ordered_node_ids b = map n_id [1; 2; 3; 4; 5]%nat ∧
    map node_ids (chapters a) ≠ map node_ids (chapters b).
Proof.
  do 2 eexists. split; [vm_compute; reflexivity|]. split; [vm_compute; reflexivity|].
  cbn [nodes edges ordered_node_ids chapters].
  split_and!; [reflexivity | reflexivity | reflexivity | reflexivity | reflexivity |].
  vm_compute. discriminate.
Qed.

Lemma truncate_spec value max_len :
  0 <= max_len ->
  Z.of_nat (length (_truncate value max_len)) <= max_len + 3 ∧
  (Z.of_nat (length (strip value)) <= max_len -> _truncate value max_len = strip value) ∧
  (max_len < Z.of_nat (length (strip value)) ->
   exists p, _truncate value max_len = p ++ lit "..." ∧ p `prefix_of` strip value ∧
             (forall c, last p = Some c -> is_space c = false)).
Proof.
  intros Hm. unfold _truncate. cbv zeta. split_and!.
  - case_decide; [lia|]. rewrite length_app. simpl.
    pose proof (length_rstrip (py_take max_len (strip value))).
    pose proof (length_py_take max_len (strip value) Hm). lia.
  - intros Hle. by rewrite decide_True.
  - intros Hlt. rewrite decide_False by lia. eexists. split_and!; [done | |].
    + etrans; [apply rstrip_prefix | apply py_take_prefix].
    + apply rstrip_last.
Qed.

(** X5: [_truncate] returns the stripped text when it has at most
    [max_len] characters; otherwise a prefix of the stripped text that does
    not end in white space, followed by three dots. For [max_len >= 0] the
    result has at most [max_len + 3] characters, so up to three more than
    the bound. *)
Theorem truncate_bounds value max_len :
  0 <= max_len ->
  Z.of_nat (length (_truncate value max_len)) <= max_len + 3 ∧
  (Z.of_nat (length (strip value)) <= max_len -> _truncate value max_len = strip value) ∧
  (max_len < Z.of_nat (length (strip value)) ->
   exists p, _truncate value max_len = p ++ lit "..." ∧ p `prefix_of` strip value ∧
             (forall c, last p = Some c -> is_space c = false)).
Proof. apply truncate_spec. Qed.

Lemma truncate_bounds_witness :
  Z.of_nat (length (_truncate (lit "  causes and effects  ") 6)) <= 6 + 3 ∧
  (Z.of_nat (length (strip (lit "  causes and effects  "))) <= 6 ->
   _truncate (lit "  causes and effects  ") 6 = strip (lit "  causes and effects  ")) ∧
  (6 < Z.of_nat (length (strip (lit "  causes and effects  "))) ->
   exists p, _truncate (lit "  causes and effects  ") 6 = p ++ lit "..." ∧
             p `prefix_of` strip (lit "  causes and effects  ") ∧
             (forall c, last p = Some c -> is_space c = false)).
Proof. apply (truncate_bounds (lit "  causes and effects  ") 6). lia. Defined.

(** A text of five characters cut at four comes back with seven. *)
Lemma truncate_can_lengthen :
  _truncate (lit "abcde") 4 = lit "abcd..." ∧
  (length (lit "abcde") < length (_truncate (lit "abcde") 4))%nat.
Proof. split; vm_compute; [reflexivity | lia]. Qed.

(** *** run_pre_research *)

Section Research.
Variable topic : str.
Variable max_results : Z.

Lemma truncate_800 body : (length (_truncate body 800) <= 803)%nat.
Proof. pose proof (truncate_spec body 800). lia. Qed.

Lemma scan_stream_inv q stream : forall collected seen collected' seen' returned,
  q ∈ queries topic ->
  scan_stream max_results q stream collected seen = (collected', seen', returned) ->
  collected_ok topic collected -> still_open max_results collected seen ->
  collected_ok topic collected' ∧
  (if returned then Z.of_nat (length collected') <= Z.max 1 max_results
   else still_open max_results collected' seen').
Proof.
  induction stream as [|item rest IH]; intros collected seen collected' seen' returned Hq Hs Hg Ho;
    simpl in Hs.
  - by injection Hs as <- <- <-.
  - set (url := strip _) in Hs.
    destruct (decide (url = [] ∨ url ∈ seen)) as [Hskip|Hnew]; [by eapply IH|].
    set (x := {| r_query := q; r_title := _; r_url := url; r_snippet := _; r_source := _ |}) in Hs.
    destruct Hg as [Hnd Hwf]. destruct Ho as [Hseen Hopen].
    assert (collected_ok topic (collected ++ [x])) as Hg'.
    { split.
      - rewrite map_app. apply NoDup_app. split_and!; [done | | apply NoDup_singleton].
        intros u Hu ->%list_elem_of_singleton. apply Hnew. right.
        rewrite Hseen. by apply elem_of_list_to_set.
      - apply Forall_app. split; [done|]. constructor; [|done].
        split_and!; simpl; [tauto | apply strip_trimmed | done | apply truncate_800]. }
    case_decide as Hfull.
    + injection Hs as <- <- <-. split; [done|].
      rewrite length_app in *. simpl in *.
      destruct Hopen as [->|Hlt]; simpl; lia.
    + eapply IH; [done | exact Hs | done |]. split.
      * rewrite Hseen, map_app, list_to_set_app_L. simpl.
        rewrite (right_id_L ∅ (∪)). apply (comm_L (∪)).
      * right. lia.
Qed.

Lemma scan_queries_inv text qs : forall collected seen collected' returned,
  (forall q, q ∈ qs -> q ∈ queries topic) ->
  scan_queries max_results text qs collected seen = (collected', returned) ->
  collected_ok topic collected -> still_open max_results collected seen ->
  collected_ok topic collected' ∧
  (if returned then Z.of_nat (length collected') <= Z.max 1 max_results
   else collected' = [] ∨ Z.of_nat (length collected') < max_results).
Proof.
  induction qs as [|q rest IH]; intros collected seen collected' returned Hqs Hs Hg Ho;
    simpl in Hs.
  - injection Hs as <- <-. split; [done|]. apply Ho.
  - destruct (scan_stream max_results q (text q) collected seen) as [[c1 s1] r1] eqn:H1.
    destruct (scan_stream_inv _ _ _ _ _ _ _ (Hqs q ltac:(by left)) H1 Hg Ho) as [Hg1 Hr1].
    destruct r1.
    + injection Hs as <- <-. done.
    + eapply IH; [|exact Hs|done|done]. intros q' Hq'. apply Hqs. by right.
Qed.

End Research.

(** X6: Whatever the search streams yield, [run_pre_research] returns
    items with pairwise distinct, non-empty, stripped urls, each under one
    of the four queries of the topic and with a snippet of at most 803
    characters; it returns at most [max_results] items, but still one item
    when [max_results] is zero or negative. *)
Theorem pre_research_items_distinct_and_capped ddgs topic region max_results :
  let items := run_pre_research ddgs topic region max_results in
  NoDup (map r_url items) ∧
  Forall (well_formed_item topic) items ∧
  Z.of_nat (length items) <= Z.max 1 max_results.
Proof.
  cbv zeta. unfold run_pre_research.
  destruct ddgs as [text|].
  2:{ assert (py_take max_results (@nil research_item) = []) as ->.
      { unfold py_take. case_decide; by rewrite take_nil. }
      split_and!; [constructor | constructor | simpl; lia]. }
  destruct (scan_queries _ _ _ _ _) as [collected returned] eqn:Hs.
  destruct (scan_queries_inv topic max_results _ _ _ _ _ _ (fun q H => H) Hs)
    as [[Hnd Hwf] Hr].
  { split; constructor. }
  { split; [done | by left]. }
  destruct returned; [done|].
  assert (py_take max_results collected = collected) as ->.
  { destruct Hr as [->|Hlt].
    - unfold py_take. case_decide; by rewrite take_nil.
    - apply py_take_all. lia. }
  split_and!; [done | done |]. destruct Hr as [->|Hlt]; simpl; lia.
Qed.

(** With [max_results = 0] the first new url is still returned. *)
Lemma pre_research_zero_cap_returns_one :
  length (run_pre_research
            (Some (fun _ _ _ => [ {| i_href := lit "https://a.example"; i_url := [];
                                     i_title := None; i_body := lit "text";
                                     i_source := None |} ]))
            (lit "AI") (lit "jp-jp") 0) = 1%nat.
Proof. vm_compute. reflexivity. Qed.

End AgendaFacts.

Module ScriptFacts.
Import Generator StrFacts.

(** *** _clean_script_items *)

Lemma clean_item_spec item l :
  clean_item item = Some l ->
  l = mk_line (lit "A") (text l) ∧ text l ≠ [] ∧ trimmed (text l).
Proof.
  destruct item as [|[t|]]; simpl; [done| |done].
  destruct (strip t) as [|c s] eqn:Hs; simpl; [done|].
  intros [= <-]. simpl. split_and!; [done | done |].
  rewrite <- Hs. apply strip_trimmed.
Qed.

Lemma clean_item_fix l :
  text l ≠ [] -> trimmed (text l) -> l = mk_line (lit "A") (text l) ->
  clean_item (as_raw l) = Some l.
Proof.
  intros Hne Ht Hl. unfold as_raw, clean_item.
  rewrite (strip_fix _ Ht). destruct (text l) as [|c s] eqn:Htx; [done|].
  cbn [nonempty]. f_equal. by rewrite Hl.
Qed.

(** X7: [_clean_script_items] returns only lines of speaker A whose text is
    non-empty and stripped, never more lines than the answer had elements,
    and cleaning its own result again changes nothing. *)
Theorem clean_script_items_normal_form script :
  let cleaned := _clean_script_items script in
  Forall (fun l => l = mk_line (lit "A") (text l) ∧ text l ≠ [] ∧ trimmed (text l))
         cleaned ∧
  (length cleaned <= length script)%nat ∧
  _clean_script_items (map as_raw cleaned) = cleaned.
Proof.
  cbv zeta. unfold _clean_script_items.
  assert (Forall (fun l => l = mk_line (lit "A") (text l) ∧ text l ≠ [] ∧ trimmed (text l))
                 (omap clean_item script)) as Hall.
  { apply Forall_forall. intros l Hl.
    apply list_elem_of_omap in Hl as (item & _ & Hc). by eapply clean_item_spec. }
  split_and!; [done | apply length_omap_le |].
  induction Hall as [|l ls (Hl & Hne & Ht) _ IH]; [done|].
  cbn [map omap list_omap]. rewrite (clean_item_fix l Hne Ht Hl). by f_equal.
Qed.

(** *** Question endings *)

Lemma search_suffix_spec alts v :
  search_suffix alts v = true -> exists a, a ∈ alts ∧ a `suffix_of` v.
Proof.
  induction v as [|c v IH]; simpl; [done|].
  intros [Hin%bool_decide_eq_true|Hs]%orb_true_iff.
  - eexists. split; [exact Hin | done].
  - destruct (IH Hs) as (a & Ha & Hsuf). exists a. split; [done|].
    by apply suffix_cons_r.
Qed.

Lemma suffix_last (a v : str) c :
  a `suffix_of` v -> last a = Some c -> last v = Some c.
Proof. intros [k ->] Hl. destruct a; [done|]. by rewrite last_app, Hl. Qed.

Lemma question_suffix_last a : a ∈ question_suffixes -> last a = Some 12363%N.
Proof.
  unfold question_suffixes. intros Ha.
  repeat (apply elem_of_cons in Ha as [->|Ha]; [reflexivity|]).
  by apply elem_of_nil in Ha.
Qed.

Lemma looks_question_last v :
  trimmed v -> _looks_question_ending v = true ->
  last v = Some 63%N ∨ last v = Some 65311%N ∨ last v = Some 12363%N.
Proof.
  intros Ht. unfold _looks_question_ending. rewrite (strip_fix v Ht).
  destruct (nonempty v); [|done]. cbn [negb].
  destruct (endswith v (lit "?")) eqn:H1.
  { intros _. left. by apply (endswith_last _ _ _ H1). }
  destruct (endswith v [65311%N]) eqn:H2.
  { intros _. right. left. by apply (endswith_last _ _ _ H2). }
  cbn [orb]. intros (a & Ha & Hsuf)%search_suffix_spec.
  right. right. eapply suffix_last; [done|]. by apply question_suffix_last.
Qed.

Lemma statement_by_last v c :
  trimmed v -> last v = Some c ->
  c ≠ 63%N -> c ≠ 65311%N -> c ≠ 12363%N ->
  _looks_question_ending v = false.
Proof.
  intros Ht Hl H1 H2 H3.
  destruct (_looks_question_ending v) eqn:Hq; [|done].
  destruct (looks_question_last v Ht Hq) as [H|[H|H]]; congruence.
Qed.

Lemma looks_question_strip t :
  _looks_question_ending (strip t) = _looks_question_ending t.
Proof. unfold _looks_question_ending. by rewrite strip_idem. Qed.

Lemma trimmed_snoc v c : trimmed v -> v ≠ [] -> is_space c = false -> trimmed (v ++ [c]).
Proof.
  intros [Hh Hl] Hne Hc. split.
  - intros a rest Heq. destruct v as [|b v]; [done|].
    simpl in Heq. injection Heq as <- _. by eapply Hh.
  - intros a. rewrite last_snoc. by intros [= <-].
Qed.

Lemma closing_statement_trimmed : trimmed closing_statement.
Proof.
  assert (strip closing_statement = closing_statement) as <- by (vm_compute; reflexivity).
  apply strip_trimmed.
Qed.

(** The result of [_to_statement_ending] is stripped, is empty only for a
    blank text, and does not end like a question. *)
Lemma to_statement_ending_spec t :
  trimmed (_to_statement_ending t) ∧
  (strip t ≠ [] -> _to_statement_ending t ≠ []) ∧
  _looks_question_ending (_to_statement_ending t) = false.
Proof.
  unfold _to_statement_ending. cbv zeta.
  destruct (strip t) as [|c0 v0] eqn:H0.
  { simpl. split_and!; [apply trimmed_nil | done | done]. }
  cbn [nonempty negb].
  set (v := strip (sub_suffix question_suffixes _)).
  assert (trimmed v) as Hv by apply strip_trimmed.
  destruct v as [|c v'] eqn:Hv'.
  { cbn [nonempty negb]. split_and!; [apply closing_statement_trimmed | done |].
    vm_compute. reflexivity. }
  cbn [nonempty negb]. rewrite <- Hv' in *.
  destruct (endswith_any v _) eqn:He.
  - split_and!; [done | by rewrite Hv' |].
    unfold endswith_any in He. cbn [existsb] in He.
    repeat (apply orb_true_iff in He as [He|He]);
      [ | | | | done];
      (eapply statement_by_last; [done | eapply endswith_last; [exact He | reflexivity] | done..]).
  - split_and!.
    + apply trimmed_snoc; [done | by rewrite Hv' | reflexivity].
    + intros _. rewrite Hv'. done.
    + eapply statement_by_last;
        [apply trimmed_snoc; [done | by rewrite Hv' | reflexivity]
        | apply last_snoc | done..].
Qed.

Lemma restate_last_length r : length (restate_last r) = length r.
Proof.
  induction r as [|l r IH]; simpl; [done|].
  destruct (nonempty _); simpl; [|by rewrite IH].
  by destruct (_looks_question_ending _).
Qed.

Lemma restate_last_head r l :
  head (filter (fun l => strip (text l) ≠ []) (restate_last r)) = Some l ->
  _looks_question_ending (text l) = false.
Proof.
  induction r as [|x r IH]; [done|]. cbn [restate_last]. cbv zeta.
  destruct (nonempty (strip (text x))) eqn:Hn; cbn [negb].
  - assert (strip (text x) ≠ []) as Hne by (by destruct (strip (text x))).
    destruct (_looks_question_ending (strip (text x))) eqn:Hq.
    + destruct (to_statement_ending_spec (strip (text x))) as (Ht & Hne' & Hnq).
      rewrite filter_cons, decide_True.
      * simpl. by intros [= <-].
      * simpl. rewrite (strip_fix _ Ht). apply Hne'. by rewrite strip_idem.
    + rewrite filter_cons, decide_True by done.
      simpl. intros [= <-]. by rewrite <- looks_question_strip.
  - assert (strip (text x) = []) as He by (by destruct (strip (text x))).
    rewrite filter_cons, decide_False by (intros H; by apply H). exact IH.
Qed.

(** X8: The conclusion never ends on a question: whatever the model
    produced, and also when it failed, the last line of [generate_conclusion]
    that has any text does not look like a question to
    [_looks_question_ending]; the repair keeps the number of lines. *)
Theorem conclusion_never_ends_on_question chunk l :
  last_spoken (generate_conclusion chunk) = Some l ->
  _looks_question_ending (text l) = false ∧
  (forall script, chunk = Some script ->
     length (generate_conclusion chunk) = length script).
Proof.
  intros Hl. split.
  - destruct chunk as [script|]; simpl in Hl.
    + unfold last_spoken, _ensure_last_line_not_question in Hl.
      rewrite rev_involutive in Hl. by eapply restate_last_head.
    + vm_compute in Hl. injection Hl as <-. vm_compute. reflexivity.
  - intros script ->. simpl. unfold _ensure_last_line_not_question.
    by rewrite length_rev, restate_last_length, length_rev.
Qed.

Lemma conclusion_never_ends_on_question_witness :
  _looks_question_ending
    (text (mk_line (lit "A") [27425; 12399; 20309; 12434; 35211; 12427; 12409; 12365; 12290]%N))
  = false ∧
  (forall script,
     Some [ mk_line (lit "B") (lit "Costs fell.");
            mk_line (lit "B") [27425; 12399; 20309; 12434; 35211; 12427; 12409; 12365;
                               12391; 12375; 12423; 12358; 12363; 65311]%N;
            mk_line (lit "B") (lit "  ") ] = Some script ->
     length (generate_conclusion
               (Some [ mk_line (lit "B") (lit "Costs fell.");
                       mk_line (lit "B") [27425; 12399; 20309; 12434; 35211; 12427; 12409;
                                          12365; 12391; 12375; 12423; 12358; 12363; 65311]%N;
                       mk_line (lit "B") (lit "  ") ]))
     = length script).
Proof.
  apply (conclusion_never_ends_on_question
           (Some [ mk_line (lit "B") (lit "Costs fell.");
                   mk_line (lit "B") [27425; 12399; 20309; 12434; 35211; 12427; 12409; 12365;
                                      12391; 12375; 12423; 12358; 12363; 65311]%N;
                   mk_line (lit "B") (lit "  ") ])).
  vm_compute. reflexivity.
Defined.

End ScriptFacts.

Module BudgetFacts.
Import Generator StrFacts.

Lemma count_snoc out l :
  count_script_chars_text_only (out ++ [l])
  = count_script_chars_text_only out + Z.of_nat (length (text l)).
Proof. unfold count_script_chars_text_only. by rewrite foldl_app. Qed.

Lemma count_nonneg out : 0 <= count_script_chars_text_only out.
Proof.
  induction out as [|l out IH] using rev_ind; [done|]. rewrite count_snoc. lia.
Qed.

Lemma lstrip_snoc l c : is_space c = false -> lstrip (l ++ [c]) = lstrip l ++ [c].
Proof.
  intros Hc. induction l as [|a l IH]; simpl; [by rewrite Hc|].
  destruct (is_space a); [exact IH | done].
Qed.

Lemma strip_cons c rest : is_space c = false -> strip (c :: rest) = c :: rstrip rest.
Proof.
  intros Hc. unfold strip. cbn [lstrip]. rewrite Hc. unfold rstrip.
  cbn [rev]. rewrite lstrip_snoc by done. rewrite rev_app_distr. done.
Qed.

Lemma py_take_cons {A} (k : Z) (a : A) l :
  1 <= k -> exists l', py_take k (a :: l) = a :: l'.
Proof.
  intros Hk. unfold py_take. rewrite decide_True by lia.
  destruct (Z.to_nat k) as [|n] eqn:Hn; [lia|]. simpl. eauto.
Qed.

Lemma budget_loop_spec mcpl target items : forall consumed out,
  0 <= mcpl ->
  consumed = count_script_chars_text_only out -> consumed <= target ->
  within mcpl out ->
  let res := budget_loop mcpl target items consumed out in
  count_script_chars_text_only res <= target ∧ within mcpl res ∧
  (length res <= length out + length items)%nat ∧ out `prefix_of` res.
Proof.
  induction items as [|item rest IH]; intros consumed out Hm Hc Hle Hw; cbn [budget_loop].
  - cbv zeta. split_and!; [lia | done | simpl; lia | done].
  - cbv zeta.
    assert (Hstop : count_script_chars_text_only out <= target ∧ within mcpl out ∧
                    (length out <= length out + length (item :: rest))%nat ∧
                    out `prefix_of` out).
    { split_and!; [lia | done | lia | done]. }
    destruct (nonempty (strip (text item))); cbn [negb].
    2:{ destruct (IH consumed out Hm Hc Hle Hw) as (H1 & H2 & H3 & H4).
        split_and!; [done | done | simpl; lia | done]. }
    case_decide as Hrem; [exact Hstop|].
    set (t1 := strip (py_take mcpl (strip (text item)))) in *.
    set (remain := Z.max 0 (target - consumed)) in *.
    set (t2 := strip (py_take remain t1)).
    destruct (nonempty t2) eqn:Hne; cbn [negb]; [|exact Hstop].
    assert (Z.of_nat (length t2) <= remain) as Hlen2.
    { subst t2. pose proof (length_strip (py_take remain t1)).
      pose proof (length_py_take remain t1). lia. }
    assert (Z.of_nat (length t2) <= mcpl) as Hlen1.
    { subst t2 t1. pose proof (length_strip (py_take remain (strip (py_take mcpl (strip (text item)))))).
      pose proof (prefix_length _ _ (py_take_prefix remain (strip (py_take mcpl (strip (text item)))))).
      pose proof (length_strip (py_take mcpl (strip (text item)))).
      pose proof (length_py_take mcpl (strip (text item)) Hm). lia. }
    assert (within mcpl (out ++ [mk_line (speaker item) t2])) as Hw'.
    { apply Forall_app. split; [done|]. constructor; [|done]. simpl.
      split_and!; [by destruct t2 | apply strip_trimmed | done]. }
    assert (count_script_chars_text_only (out ++ [mk_line (speaker item) t2])
            = consumed + Z.of_nat (length t2)) as Hc'.
    { rewrite count_snoc. simpl. lia. }
    case_decide as Hfull.
    + split_and!; [lia | done | rewrite length_app; simpl; lia | by apply prefix_app_r].
    + destruct (IH (consumed + Z.of_nat (length t2)) (out ++ [mk_line (speaker item) t2]))
        as (H1 & H2 & H3 & H4); [done | done | lia | done |].
      split_and!; [done | done | |].
      * rewrite length_app in H3. simpl in *. lia.
      * etrans; [|exact H4]. by apply prefix_app_r.
Qed.

Lemma budget_loop_prefix mcpl target items : forall consumed out,
  out `prefix_of` budget_loop mcpl target items consumed out.
Proof.
  induction items as [|item rest IH]; intros consumed out; cbn [budget_loop]; [done|].
  cbv zeta. destruct (nonempty (strip (text item))); cbn [negb]; [|apply IH].
  case_decide; [done|].
  destruct (nonempty (strip (py_take _ _))); cbn [negb]; [|done].
  case_decide; [by apply prefix_app_r|].
  etrans; [|apply IH]. by apply prefix_app_r.
Qed.

(** On a clean script with room for one character the loop keeps its first
    line, cut to size. *)
Lemma budget_loop_first mcpl target item rest :
  1 <= mcpl -> 1 <= target ->
  text item ≠ [] -> trimmed (text item) ->
  budget_loop mcpl target (item :: rest) 0 [] ≠ [].
Proof.
  intros Hm Ht Hne Htr. cbn [budget_loop]. cbv zeta.
  rewrite (strip_fix _ Htr).
  destruct (text item) as [|c s] eqn:Htx; [done|]. cbn [nonempty negb].
  assert (is_space c = false) as Hc by (by eapply (proj1 Htr)).
  destruct (py_take_cons mcpl c s Hm) as [s1 ->].
  rewrite (strip_cons c s1 Hc).
  rewrite decide_False by lia.
  replace (Z.max 0 (target - 0)) with target by lia.
  destruct (py_take_cons target c (rstrip s1) Ht) as [s2 ->].
  rewrite (strip_cons c s2 Hc). cbn [nonempty negb app].
  case_decide; [done|].
  intros Hnil.
  pose proof (budget_loop_prefix mcpl target rest (0 + Z.of_nat (length (c :: rstrip s2)))
                [mk_line (speaker item) (c :: rstrip s2)]) as Hpre.
  rewrite Hnil in Hpre. by apply prefix_nil_inv in Hpre.
Qed.

Lemma clamp_bounds lo hi t : lo <= hi -> lo <= Z.max lo (Z.min hi t) <= hi.
Proof. lia. Qed.

Lemma budget_target_bounds target_chars min_chars max_chars :
  let b := _char_budget_constraints target_chars min_chars max_chars in
  min_chars <= b_target_chars b <= b_max_chars b.
Proof.
  unfold _char_budget_constraints. cbv zeta. cbn [b_target_chars b_max_chars].
  apply clamp_bounds. lia.
Qed.

Lemma budget_line_bounds target_chars min_chars max_chars :
  let b := _char_budget_constraints target_chars min_chars max_chars in
  6 <= b_max_lines b <= 20 ∧ 28 <= b_max_chars_per_line b <= 180.
Proof.
  unfold _char_budget_constraints. cbv zeta. cbn [b_max_lines b_max_chars_per_line].
  split; apply clamp_bounds; lia.
Qed.

(** X9: The character budget is enforced on the way out of
    [_apply_char_budget_guardrail]: for a non-empty clean script and a
    minimum of at least one character, the result is not empty, its texts
    add up to at most the target (which lies between the minimum and the
    maximum), it has at most [max_lines] (at most 20) lines, and every line
    is a stripped, non-empty text of at most [max_chars_per_line] (at most
    180) characters. No lower bound is enforced. *)
Theorem char_budget_is_enforced rewritten script target_chars min_chars max_chars :
  1 <= min_chars -> script ≠ [] -> clean script ->
  (forall r, rewritten = Some r -> clean r) ->
  let b := _char_budget_constraints target_chars min_chars max_chars in
  let out := _apply_char_budget_guardrail rewritten script target_chars min_chars max_chars in
  out ≠ [] ∧
  count_script_chars_text_only out <= b_target_chars b ∧
  min_chars <= b_target_chars b <= b_max_chars b ∧
  Z.of_nat (length out) <= b_max_lines b <= 20 ∧
  Forall (fun l => text l ≠ [] ∧ trimmed (text l) ∧
                   Z.of_nat (length (text l)) <= b_max_chars_per_line b) out ∧
  b_max_chars_per_line b <= 180.
Proof.
  intros Hmin Hne Hclean Hrew. cbv zeta.
  unfold _apply_char_budget_guardrail. cbv zeta.
  set (b := _char_budget_constraints target_chars min_chars max_chars).
  assert (min_chars <= b_target_chars b <= b_max_chars b) as Htarget.
  { apply budget_target_bounds. }
  assert (6 <= b_max_lines b <= 20) as Hlines by apply budget_line_bounds.
  assert (28 <= b_max_chars_per_line b <= 180) as Hline by apply budget_line_bounds.
  set (script' := if decide _ then _ else script).
  assert (script' ≠ [] ∧ clean script') as [Hne' Hclean'].
  { subst script'. case_decide; [|done].
    destruct rewritten as [[|l r]|]; [done| |done].
    split; [done|]. by apply Hrew. }
  clearbody script'. clear Hne Hclean Hrew script.
  unfold _truncate_script_to_char_budget.
  destruct script' as [|item rest] eqn:Hs; [done|]. rewrite <- Hs.
  set (items := py_take (Z.max 1 (b_max_lines b)) script').
  assert (exists rest', items = item :: rest') as [rest' Hitems].
  { subst items. rewrite Hs. apply py_take_cons. lia. }
  assert (Z.of_nat (length items) <= b_max_lines b) as Hcount.
  { subst items. pose proof (length_py_take (Z.max 1 (b_max_lines b)) script'). lia. }
  pose proof (budget_loop_spec (b_max_chars_per_line b) (b_target_chars b) items 0 [])
    as Hspec. cbv zeta in Hspec.
  destruct Hspec as (Hsum & Hin & Hlen & _); [lia | done | lia | constructor |].
  assert (budget_loop (b_max_chars_per_line b) (b_target_chars b) items 0 [] ≠ []) as Hout.
  { rewrite Hitems. apply Forall_cons in Hclean' as [[Hi1 Hi2] _].
    apply budget_loop_first; [lia | lia | done | done]. }
  destruct (budget_loop _ _ items 0 []) as [|o out] eqn:Hloop; [done|].
  split_and!; [done | done | lia | lia | simpl in *; lia | lia | done | lia].
Qed.

Lemma char_budget_is_enforced_witness :
  let script := [ mk_line (lit "A") (lit "Prices rose because supply fell.");
                  mk_line (lit "A") (lit "Demand stayed flat.") ] in
  let b := _char_budget_constraints (Some 40) 30 60 in
  let out := _apply_char_budget_guardrail None script (Some 40) 30 60 in
  out ≠ [] ∧
  count_script_chars_text_only out <= b_target_chars b ∧
  30 <= b_target_chars b <= b_max_chars b ∧
  Z.of_nat (length out) <= b_max_lines b <= 20 ∧
  Forall (fun l => text l ≠ [] ∧ trimmed (text l) ∧
                   Z.of_nat (length (text l)) <= b_max_chars_per_line b) out ∧
  b_max_chars_per_line b <= 180.
Proof.
  apply (char_budget_is_enforced None
           [ mk_line (lit "A") (lit "Prices rose because supply fell.");
             mk_line (lit "A") (lit "Demand stayed flat.") ] (Some 40) 30 60).
  - lia.
  - discriminate.
  - repeat constructor; try discriminate; simpl; intros; simplify_eq; reflexivity.
  - discriminate.
Defined.

(** With a target of zero the first line comes back whole: the fallback
    [script[:1]] is outside the budget. *)
Lemma zero_target_returns_first_line :
  _truncate_script_to_char_budget
    [ mk_line (lit "A") (lit "Prices rose."); mk_line (lit "A") (lit "Demand fell.") ]
    6 28 0
  = [ mk_line (lit "A") (lit "Prices rose.") ].
Proof. vm_compute. reflexivity. Qed.

End BudgetFacts.

Module NoveltyFacts.
Import Generator Pipeline GeneratorFacts StrFacts.

(** *** Rounding *)

Lemma round_half_even_bounds x :
  Qfloor x <= round_half_even x <= Qfloor x + 1.
Proof.
  unfold round_half_even. cbv zeta.
  destruct (Qlt_le_dec _ _); [lia|].
  destruct (Qlt_le_dec _ _); [lia|].
  destruct (Z.even _); lia.
Qed.

Lemma round_half_even_Z (z : Z) : round_half_even (inject_Z z) = z.
Proof.
  unfold round_half_even. cbv zeta. rewrite Qfloor_Z.
  destruct (Qlt_le_dec _ _) as [|Hle]; [done|].
  exfalso. revert Hle. unfold Qle, Qminus, Qplus, Qopp, inject_Z. simpl. lia.
Qed.

Lemma round_half_even_mono x y : (x <= y)%Q -> round_half_even x <= round_half_even y.
Proof.
  intros Hxy.
  pose proof (Qfloor_resp_le _ _ Hxy) as Hf.
  pose proof (round_half_even_bounds x) as Hx.
  pose proof (round_half_even_bounds y) as Hy.
  destruct (Z_lt_le_dec (Qfloor x) (Qfloor y)) as [Hlt|Hge]; [lia|].
  assert (Qfloor x = Qfloor y) as He by lia.
  unfold round_half_even in *. cbv zeta in *. rewrite He in *.
  assert (x - inject_Z (Qfloor y) <= y - inject_Z (Qfloor y))%Q as Hr.
  { apply Qplus_le_l. exact Hxy. }
  destruct (Qlt_le_dec (x - _) _) as [Hx1|Hx1].
  { destruct (Qlt_le_dec (y - _) _); [lia|].
    destruct (Qlt_le_dec _ (y - _)); [lia|]. destruct (Z.even _); lia. }
  destruct (Qlt_le_dec _ (x - _)) as [Hx2|Hx2].
  { destruct (Qlt_le_dec (y - _) _) as [Hy1|Hy1].
    - exfalso. apply (Qlt_irrefl (1 # 2)).
      eapply Qlt_le_trans; [exact Hx2|]. eapply Qle_trans; [exact Hr|].
      by apply Qlt_le_weak.
    - destruct (Qlt_le_dec _ (y - _)) as [Hy2|Hy2]; [lia|].
      exfalso. apply (Qlt_irrefl (1 # 2)).
      eapply Qlt_le_trans; [exact Hx2|]. eapply Qle_trans; [exact Hr|]. exact Hy2. }
  destruct (Qlt_le_dec (y - _) _) as [Hy1|Hy1].
  { exfalso. apply (Qlt_irrefl (1 # 2)).
    eapply Qle_lt_trans; [exact Hx1|]. eapply Qle_lt_trans; [exact Hr|]. exact Hy1. }
  destruct (Qlt_le_dec _ (y - _)) as [Hy2|Hy2]; [destruct (Z.even _); lia|].
  lia.
Qed.

Lemma round4_mono x y : (x <= y)%Q -> (round4 x <= round4 y)%Q.
Proof.
  intros Hxy. unfold round4.
  assert (round_half_even (x * 10000) <= round_half_even (y * 10000)) as H.
  { apply round_half_even_mono. apply Qmult_le_compat_r; [done|]. done. }
  unfold Qle. simpl. lia.
Qed.

Lemma round4_range x : (0 <= x)%Q -> (x <= 1)%Q -> (0 <= round4 x)%Q ∧ (round4 x <= 1)%Q.
Proof.
  intros H0 H1.
  assert (round4 0 == 0)%Q as E0 by (vm_compute; reflexivity).
  assert (round4 1 == 1)%Q as E1 by (vm_compute; reflexivity).
  split.
  - rewrite <- E0. by apply round4_mono.
  - rewrite <- E1. by apply round4_mono.
Qed.

(** *** Similarity *)

Lemma ratio_range inter union :
  (inter <= union)%nat -> union ≠ 0%nat -> (0 <= ratio inter union)%Q ∧ (ratio inter union <= 1)%Q.
Proof.
  intros Hle Hne. unfold ratio, Qle. simpl.
  destruct union as [|u]; [done|].
  rewrite <- Pos.of_nat_succ, Zpos_P_of_succ_nat. lia.
Qed.

Lemma similarity_step_range base best p :
  (0 <= best)%Q -> (best <= 1)%Q ->
  (0 <= similarity_step base best p)%Q ∧ (similarity_step base best p <= 1)%Q.
Proof.
  intros H0 H1. unfold similarity_step. cbv zeta.
  case_decide; [done|].
  destruct (Qlt_le_dec best _) as [Hlt|Hle]; [|done].
  case_decide as Hu; [done|].
  apply ratio_range; [|done].
  apply subseteq_size.
  etrans; [apply intersection_subseteq_l | apply union_subseteq_l].
Qed.

Lemma similarity_fold_range base points : forall best,
  (0 <= best)%Q -> (best <= 1)%Q ->
  (0 <= foldl (similarity_step base) best points)%Q ∧
  (foldl (similarity_step base) best points <= 1)%Q.
Proof.
  induction points as [|p points IH]; intros best H0 H1; simpl; [done|].
  destruct (similarity_step_range base best p H0 H1). by apply IH.
Qed.

Lemma max_similarity_range t points :
  (0 <= _max_similarity_to_points t points)%Q ∧ (_max_similarity_to_points t points <= 1)%Q.
Proof.
  unfold _max_similarity_to_points. cbv zeta. case_decide; [done|].
  by apply similarity_fold_range.
Qed.

Lemma max_similarity_more t points more :
  (_max_similarity_to_points t points <= _max_similarity_to_points t (points ++ more))%Q.
Proof.
  unfold _max_similarity_to_points. cbv zeta. case_decide; [done|].
  rewrite foldl_app. apply similarity_fold_mono.
Qed.

Lemma py_max_0_range x : (x <= 1)%Q -> (0 <= py_max 0 x)%Q ∧ (py_max 0 x <= 1)%Q.
Proof.
  intros H1. unfold py_max. destruct (Qlt_le_dec 0 x) as [Hlt|Hle].
  - split; [by apply Qlt_le_weak | done].
  - done.
Qed.

Lemma py_max_0_mono x y : (x <= y)%Q -> (py_max 0 x <= py_max 0 y)%Q.
Proof.
  intros Hxy. unfold py_max.
  destruct (Qlt_le_dec 0 x) as [Hx|Hx]; destruct (Qlt_le_dec 0 y) as [Hy|Hy]; try done.
  - eapply Qle_trans; [exact Hxy | exact Hy].
  - by apply Qlt_le_weak.
Qed.

Lemma one_minus_le m : (0 <= m)%Q -> (1 - m <= 1)%Q.
Proof.
  destruct m as [a b]. unfold Qle, Qminus, Qplus, Qopp. simpl. lia.
Qed.

Lemma novelty_range script covered_points :
  (0 <= compute_section_novelty script covered_points)%Q ∧
  (compute_section_novelty script covered_points <= 1)%Q.
Proof.
  unfold compute_section_novelty. cbv zeta.
  destruct (nonempty (_script_text script)); cbn [negb]; [|done].
  destruct covered_points as [|p ps]; [done|].
  destruct (max_similarity_range (_script_text script) (p :: ps)) as [H0 H1].
  apply round4_range; apply py_max_0_range; by apply one_minus_le.
Qed.

(** X10: The novelty score is always between 0 and 1, whatever the script
    and the covered points are. *)
Theorem novelty_between_0_and_1 script covered_points :
  (0 <= compute_section_novelty script covered_points)%Q ∧
  (compute_section_novelty script covered_points <= 1)%Q.
Proof. apply novelty_range. Qed.

Lemma novelty_more script points more :
  (compute_section_novelty script (points ++ more)
   <= compute_section_novelty script points)%Q.
Proof.
  destruct points as [|p ps].
  { simpl. pose proof (novelty_range script more) as [H0 H1].
    unfold compute_section_novelty in *. cbv zeta in *.
    destruct (nonempty (_script_text script)); cbn [negb] in *; [|done].
    exact H1. }
  unfold compute_section_novelty. cbv zeta.
  destruct (nonempty (_script_text script)); cbn [negb]; [|done].
  cbn [app]. apply round4_mono, py_max_0_mono.
  apply Qplus_le_r, Qopp_le_compat.
  apply (max_similarity_more _ (p :: ps) more).
Qed.

(** *** Coverage memory *)

Lemma cover_point_spec covered point :
  exists added, cover_point covered point = covered ++ added ∧
    (length added <= 1)%nat ∧
    (NoDup covered -> NoDup (covered ++ added)) ∧
    Forall (fun s => s ≠ [] ∧ trimmed s) added.
Proof.
  unfold cover_point. cbv zeta.
  destruct (nonempty (strip point)) eqn:Hne; cbn [andb].
  2:{ exists []. rewrite app_nil_r. split_and!; [done | simpl; lia | done | done]. }
  destruct (bool_decide (strip point ∉ covered)) eqn:Hin.
  2:{ exists []. rewrite app_nil_r. split_and!; [done | simpl; lia | done | done]. }
  apply bool_decide_eq_true in Hin.
  exists [strip point]. split_and!; [done | simpl; lia | |].
  - intros Hnd. apply NoDup_app. split_and!; [done | | apply NoDup_singleton].
    intros x Hx ->%list_elem_of_singleton. done.
  - constructor; [|done]. split; [by destruct (strip point) | apply strip_trimmed].
Qed.

Lemma cover_fold_spec points : forall covered,
  exists added, foldl cover_point covered points = covered ++ added ∧
    (length added <= length points)%nat ∧
    (NoDup covered -> NoDup (covered ++ added)) ∧
    Forall (fun s => s ≠ [] ∧ trimmed s) added.
Proof.
  induction points as [|p points IH]; intros covered; simpl.
  - exists []. rewrite app_nil_r. split_and!; [done | simpl; lia | done | done].
  - destruct (cover_point_spec covered p) as (a1 & -> & Hl1 & Hn1 & Hf1).
    destruct (IH (covered ++ a1)) as (a2 & -> & Hl2 & Hn2 & Hf2).
    exists (a1 ++ a2). rewrite app_assoc. split_and!; [done | | |].
    + rewrite length_app. lia.
    + intros Hnd. auto.
    + by apply Forall_app.
Qed.

(** X11: Coverage memory only grows, by at most two points per section:
    the covered points stay as they were, the points added are stripped,
    not blank and new, so a list without repeats stays without repeats; and
    the novelty of any script against the grown list is never higher than
    against the old one. *)
Theorem coverage_memory_grows new_points covered_points script :
  exists added,
    cover_points new_points covered_points = covered_points ++ added ∧
    (length added <= 2)%nat ∧
    Forall (fun s => s ≠ [] ∧ trimmed s) added ∧
    (NoDup covered_points -> NoDup (cover_points new_points covered_points)) ∧
    (compute_section_novelty script (cover_points new_points covered_points)
     <= compute_section_novelty script covered_points)%Q.
Proof.
  unfold cover_points.
  destruct (cover_fold_spec (take 2 new_points) covered_points) as (added & -> & Hl & Hn & Hf).
  exists added. split_and!; [done | | done | done | apply novelty_more].
  rewrite length_take in Hl. lia.
Qed.

Lemma coverage_memory_grows_witness :
  exists added,
    cover_points [lit " tariffs raise prices "; lit "supply fell"; lit "ignored"]
                 [lit "supply fell"]
    = [lit "supply fell"] ++ added ∧
    (length added <= 2)%nat ∧
    Forall (fun s => s ≠ [] ∧ trimmed s) added ∧
    (NoDup [lit "supply fell"] ->
     NoDup (cover_points [lit " tariffs raise prices "; lit "supply fell"; lit "ignored"]
                         [lit "supply fell"])) ∧
    (compute_section_novelty [mk_line (lit "A") (lit "tariffs raise prices a lot")]
       (cover_points [lit " tariffs raise prices "; lit "supply fell"; lit "ignored"]
                     [lit "supply fell"])
     <= compute_section_novelty [mk_line (lit "A") (lit "tariffs raise prices a lot")]
          [lit "supply fell"])%Q.
Proof.
  apply (coverage_memory_grows
           [lit " tariffs raise prices "; lit "supply fell"; lit "ignored"]
           [lit "supply fell"]
           [mk_line (lit "A") (lit "tariffs raise prices a lot")]).
Defined.

End NoveltyFacts.

Module EndingFacts.
Import Generator StrFacts ScriptFacts.

(** X22: The cadence rule for body sections. When the text of the last
    spoken line of the script that [_stabilize_body_ending] returns looks
    like a question, then at most [max_recent_question_endings] of the
    recent lines of the prior context do, and the script was returned as it
    came. With the limit 0 that the generator passes, a section ends on a
    question only if none of the recent lines does. *)
Theorem question_endings_do_not_repeat script prior_context lookback limit l :
  let out := _stabilize_body_ending script prior_context lookback limit in
  last_spoken out = Some l ->
  _looks_question_ending (text l) = true ->
  out = script ∧
  Z.of_nat (length (filter (fun v => _looks_question_ending v = true)
                           (_recent_tail_lines prior_context lookback))) <= limit ∧
  (limit = 0 ->
   Forall (fun v => _looks_question_ending v = false)
          (_recent_tail_lines prior_context lookback)).
Proof.
  cbv zeta. unfold _stabilize_body_ending. cbv zeta.
  set (recent := _recent_tail_lines prior_context lookback).
  case_decide as Hq.
  - intros Hl Hlq. exfalso.
    unfold last_spoken, _ensure_last_line_not_question in Hl.
    rewrite rev_involutive in Hl. apply restate_last_head in Hl. congruence.
  - intros _ _. split_and!; [done | lia |].
    intros ->. apply Forall_forall. intros v Hv.
    destruct (_looks_question_ending v) eqn:Hvq; [|done]. exfalso.
    assert (v ∈ filter (fun v => _looks_question_ending v = true) recent) as Hin
      by (by apply list_elem_of_filter).
    destruct (filter _ recent); [by apply elem_of_nil in Hin | simpl in Hq; lia].
Qed.

Lemma question_endings_do_not_repeat_witness :
  let script := [ mk_line (lit "A") (lit "Costs fell.");
                  mk_line (lit "A") (lit "Why did demand hold?") ] in
  let out := _stabilize_body_ending script (lit "A: Prices rose." ++ [10%N] ++ lit "A: Supply fell.") 3 0 in
  out = script ∧
  Z.of_nat (length (filter (fun v => _looks_question_ending v = true)
                           (_recent_tail_lines (lit "A: Prices rose." ++ [10%N] ++ lit "A: Supply fell.") 3))) <= 0 ∧
  (0 = 0 ->
   Forall (fun v => _looks_question_ending v = false)
          (_recent_tail_lines (lit "A: Prices rose." ++ [10%N] ++ lit "A: Supply fell.") 3)).
Proof.
  apply (question_endings_do_not_repeat
           [ mk_line (lit "A") (lit "Costs fell.");
             mk_line (lit "A") (lit "Why did demand hold?") ]
           (lit "A: Prices rose." ++ [10%N] ++ lit "A: Supply fell.") 3 0 (mk_line (lit "A") (lit "Why did demand hold?"))).
  - vm_compute. reflexivity.
  - vm_compute. reflexivity.
Defined.

(** A question at the end of the prior context turns the question that
    ends the section into a statement. *)
Lemma repeated_question_is_restated :
  map text (_stabilize_body_ending
              [ mk_line (lit "A") (lit "Costs fell.");
                mk_line (lit "A") (lit "Why did demand hold?") ]
              (lit "A: Prices rose." ++ [10%N] ++ lit "A: What comes next?") 3 0)
  = [ lit "Costs fell."; lit "Why did demand hold" ++ [12290%N] ].
Proof. vm_compute. reflexivity. Qed.

(** *** Anchor keywords *)

Lemma flush_spec k cur t :
  (k = Other -> cur = []) ->
  Forall (fun c => class_of c = k) cur ->
  t ∈ flush cur -> (2 <= length t)%nat ∧ one_class t.
Proof.
  intros Hk Hall. unfold flush. case_decide as Hlen; [|by intros ?%elem_of_nil].
  intros ->%list_elem_of_singleton. split; [done|].
  destruct k; [by left | by right |].
  rewrite Hk in Hlen by done. simpl in Hlen. lia.
Qed.

Lemma runs_spec s : forall k cur t,
  (k = Other -> cur = []) ->
  Forall (fun c => class_of c = k) cur ->
  t ∈ runs k cur s -> (2 <= length t)%nat ∧ one_class t.
Proof.
  induction s as [|c rest IH]; intros k cur t Hk Hall; cbn [runs]; cbv zeta.
  - by apply (flush_spec k).
  - case_decide as Ho.
    { intros [Ht|Ht]%elem_of_app; [by eapply (flush_spec k)|].
      eapply (IH Other []); [done | constructor | done]. }
    case_decide as Hsame.
    { apply IH.
      - intros ->. congruence.
      - apply Forall_app. split; [done|]. by constructor. }
    intros [Ht|Ht]%elem_of_app; [by eapply (flush_spec k)|].
    eapply (IH (class_of c) [c]); [done | by constructor | done].
Qed.

Section AnchorFacts.
Variable lower : str -> str.

Lemma keep_new_spec raw : forall seen,
  let out := keep_new lower raw seen in
  NoDup (map lower out) ∧
  Forall (fun t => (lower t ∉ stop_words) ∧ (lower t ∉ seen) ∧ t ∈ raw) out.
Proof.
  induction raw as [|token rest IH]; intros seen; cbn [keep_new]; cbv zeta.
  - split; constructor.
  - assert (forall out : list str,
              Forall (fun t => (lower t ∉ stop_words) ∧ (lower t ∉ seen) ∧ t ∈ rest) out ->
              Forall (fun t => (lower t ∉ stop_words) ∧ (lower t ∉ seen) ∧ t ∈ token :: rest) out)
      as Hweak.
    { intros out H. eapply Forall_impl; [exact H|].
      intros t (H1 & H2 & H3). split_and!; [done|done|by right]. }
    case_decide as Hstop.
    { destruct (IH seen) as [H1 H2]. split; [done | by apply Hweak]. }
    case_decide as Hseen.
    { destruct (IH seen) as [H1 H2]. split; [done | by apply Hweak]. }
    destruct (IH ({[ lower token ]} ∪ seen)) as [H1 H2]. cbv zeta in *. split.
    + cbn [map]. constructor; [|done].
      intros Hin. apply list_elem_of_fmap in Hin as (t & Heq & Ht).
      rewrite Forall_forall in H2. destruct (H2 t Ht) as (_ & Hn & _).
      apply Hn. rewrite <- Heq. apply elem_of_union. left. by apply elem_of_singleton.
    + constructor; [split_and!; [done | done | by left]|].
      eapply Forall_impl; [exact H2|]. intros t (F1 & F2 & F3).
      split_and!; [done | | by right].
      intros Hin. apply F2. apply elem_of_union. by right.
Qed.

(** X23: [_extract_anchor_keywords] returns at most eight keywords; no two
    of them are equal after lower-casing, none is a stop word after
    lower-casing, and each is a run of at least two code points that are
    all ASCII letters and digits or all kana and kanji. *)
Theorem anchor_keywords_are_distinct_and_few node_title node_note :
  let ks := _extract_anchor_keywords lower node_title node_note in
  (length ks <= 8)%nat ∧
  NoDup (map lower ks) ∧
  Forall (fun k => (lower k ∉ stop_words) ∧ (2 <= length k)%nat ∧ one_class k) ks.
Proof.
  cbv zeta. unfold _extract_anchor_keywords. cbv zeta.
  set (text := strip _).
  destruct (keep_new_spec (findall_tokens text) ∅) as [Hnd Hall]. cbv zeta in *.
  destruct (py_take_prefix 8 (keep_new lower (findall_tokens text) ∅)) as [k Hk].
  rewrite Hk in Hnd, Hall. rewrite map_app in Hnd.
  apply NoDup_app in Hnd as (Hnd & _ & _). apply Forall_app in Hall as [Hall _].
  split_and!; [|done|].
  - pose proof (length_py_take 8 (keep_new lower (findall_tokens text) ∅)). lia.
  - eapply Forall_impl; [exact Hall|]. intros t (H1 & _ & H3).
    split; [done|]. eapply (runs_spec text Other []); [done | constructor | exact H3].
Qed.

End AnchorFacts.

(** With ASCII lower-casing: the title's two words and the note's kanji run
    are kept, the repeated word and the stop word are dropped. *)
Lemma anchor_keywords_example :
  _extract_anchor_keywords Planner.ascii_lower
    (lit "Rates and RATES") (lit "node " ++ [37329; 21033]%N)
  = [lit "Rates"; lit "and"; [37329; 21033]%N].
Proof. vm_compute. reflexivity. Qed.

End EndingFacts.

Module PipelineFacts.
Import Generator Pipeline StrFacts ReadyChunkFacts.

(** *** _safe_stem *)

Lemma sub_unsafe_chars s : forall in_run, Forall (fun c => is_stem_char c = true) (sub_unsafe in_run s).
Proof.
  induction s as [|c s IH]; intros in_run; simpl; [constructor|].
  destruct (is_stem_char c) eqn:Hc; [by constructor|].
  destruct in_run; [apply IH|]. constructor; [reflexivity | apply IH].
Qed.

Lemma sub_unsafe_all_unsafe s :
  Forall (fun c => is_stem_char c = false) s ->
  sub_unsafe true s = [] ∧ (s ≠ [] -> sub_unsafe false s = [95%N]).
Proof.
  induction 1 as [|c s Hc _ [IH1 IH2]]; [done|]. simpl. rewrite Hc. split; [done|].
  intros _. by rewrite IH1.
Qed.

Lemma sub_unsafe_nonempty s : s ≠ [] -> sub_unsafe false s ≠ [].
Proof. destruct s as [|c s]; [done|]. intros _. simpl. by destruct (is_stem_char c). Qed.

(** X12: [_safe_stem] always returns a usable file-name stem: 1 to 40
    characters, all of them ASCII letters, digits, [_] or [-]. A blank text
    gives [podcast]; a text without a single such character (any title
    written in kana or kanji only) gives the one-character stem [_]. *)
Theorem safe_stem_is_safe text :
  Forall (fun c => is_stem_char c = true) (_safe_stem text) ∧
  (1 <= length (_safe_stem text) <= 40)%nat ∧
  (strip text = [] -> _safe_stem text = lit "podcast") ∧
  (strip text ≠ [] -> Forall (fun c => is_stem_char c = false) (strip text) ->
   _safe_stem text = lit "_").
Proof.
  unfold _safe_stem. cbv zeta.
  pose proof (sub_unsafe_chars (strip text) false) as Hall.
  pose proof (length_py_take 40 (sub_unsafe false (strip text))) as Hlen.
  pose proof (py_take_prefix 40 (sub_unsafe false (strip text))) as [k Hk].
  split_and!.
  - destruct (py_take 40 _) as [|c r] eqn:Ht; [by vm_compute; repeat constructor|].
    rewrite Hk in Hall. by apply Forall_app in Hall as [? _].
  - destruct (py_take 40 _) as [|c r] eqn:Ht; [simpl; lia|]. simpl in *. lia.
  - destruct (py_take 40 _) as [|c r] eqn:Ht; [simpl; lia|]. simpl in *. lia.
  - intros ->. reflexivity.
  - intros Hne Hun. destruct (sub_unsafe_all_unsafe _ Hun) as [_ ->]; done.
Qed.

Lemma safe_stem_is_safe_witness :
  Forall (fun c => is_stem_char c = true) (_safe_stem [20154; 24037; 30693; 33021]%N) ∧
  (1 <= length (_safe_stem [20154; 24037; 30693; 33021]%N) <= 40)%nat ∧
  (strip [20154; 24037; 30693; 33021]%N = [] ->
   _safe_stem [20154; 24037; 30693; 33021]%N = lit "podcast") ∧
  (strip [20154; 24037; 30693; 33021]%N ≠ [] ->
   Forall (fun c => is_stem_char c = false) (strip [20154; 24037; 30693; 33021]%N) ->
   _safe_stem [20154; 24037; 30693; 33021]%N = lit "_").
Proof. apply (safe_stem_is_safe [20154; 24037; 30693; 33021]%N). Defined.

(** *** Character budgets *)

Lemma clamped_budget_stable lo hi0 t :
  let hi := if decide (hi0 < lo) then lo else hi0 in
  stable_budget {| min_chars := lo; max_chars := hi;
                   target_chars := Z.max lo (Z.min hi t) |}.
Proof.
  cbv zeta. unfold stable_budget, Generator._char_budget_constraints. cbv zeta.
  cbn [min_chars max_chars target_chars Generator.b_target_chars
       Generator.b_min_chars Generator.b_max_chars].
  set (hi := if decide (hi0 < lo) then lo else hi0).
  assert (lo <= hi) as Hlh by (subst hi; case_decide; lia).
  clearbody hi. lia.
Qed.

Lemma int_half_exact n : Z.abs n < 2 ^ 53 -> int_half n = Some (Z.quot n 2).
Proof. intros Hn. unfold int_half. cbv zeta. by rewrite decide_True. Qed.

Lemma moderate_env_int env name default :
  name ∈ budget_variables -> moderate env -> Z.abs default < 2 ^ 52 ->
  Z.abs (_env_int env name default) < 2 ^ 52.
Proof.
  intros Hin Hm Hd. unfold moderate in Hm. rewrite Forall_forall in Hm.
  specialize (Hm name Hin). unfold _env_int. by destruct (env name).
Qed.

Lemma budget_returned_clamped lo hi0 t b :
  Some {| min_chars := lo; max_chars := if decide (hi0 < lo) then lo else hi0;
          target_chars := Z.max lo (Z.min (if decide (hi0 < lo) then lo else hi0) t) |}
  = Some b ->
  min_chars b <= target_chars b <= max_chars b.
Proof. intros [= <-]. simpl. case_decide; lia. Qed.

(** X13: A budget that the pipeline returns satisfies [min <= target <= max],
    whatever the environment holds. When the budget variables that are set
    are below [2 ^ 52] in absolute value, both budgets are returned (no
    [OverflowError] from the float quotient of the default target), and the
    generator's own clamp [_char_budget_constraints] leaves their three
    numbers as they are: the budget reported in the metrics is the one the
    generator enforces. *)
Theorem pipeline_budget_is_stable env :
  (forall b, _section_char_budget env = Some b ∨ _intro_char_budget env = Some b ->
     min_chars b <= target_chars b <= max_chars b) ∧
  (moderate env ->
   exists bs bi,
     _section_char_budget env = Some bs ∧ _intro_char_budget env = Some bi ∧
     stable_budget bs ∧ stable_budget bi).
Proof.
  split.
  - intros b [Hb|Hb]; revert Hb; unfold _section_char_budget, _intro_char_budget;
      cbv zeta; (destruct (int_half _) as [d|]; [|done]);
      apply budget_returned_clamped.
  - intros Hm.
    pose proof (moderate_env_int env (lit "SCRIPT_SECTION_MIN_CHARS") 300
                  ltac:(compute_done) Hm ltac:(done)) as H1.
    pose proof (moderate_env_int env (lit "SCRIPT_SECTION_MAX_CHARS") 750
                  ltac:(compute_done) Hm ltac:(done)) as H2.
    pose proof (moderate_env_int env (lit "SCRIPT_INTRO_MIN_CHARS") 500
                  ltac:(compute_done) Hm ltac:(done)) as H3.
    pose proof (moderate_env_int env (lit "SCRIPT_INTRO_MAX_CHARS") 750
                  ltac:(compute_done) Hm ltac:(done)) as H4.
    unfold _section_char_budget, _intro_char_budget. cbv zeta.
    assert (forall lo hi0, Z.abs lo < 2 ^ 52 -> Z.abs hi0 < 2 ^ 52 ->
              Z.abs (lo + (if decide (hi0 < lo) then lo else hi0)) < 2 ^ 53) as Hsum.
    { intros lo hi0 Hlo Hhi. change (2 ^ 53) with (2 * 2 ^ 52). case_decide; lia. }
    rewrite !int_half_exact by (by apply Hsum).
    do 2 eexists. split; [reflexivity|]. split; [reflexivity|].
    split; apply clamped_budget_stable.
Qed.

Lemma pipeline_budget_is_stable_witness :
  exists bs bi,
    _section_char_budget swapped_env = Some bs ∧ _intro_char_budget swapped_env = Some bi ∧
    stable_budget bs ∧ stable_budget bi.
Proof.
  apply (proj2 (pipeline_budget_is_stable swapped_env)).
  unfold moderate. repeat constructor.
Defined.

(** Beyond [2 ^ 53] the default target is the float nearest to the mean and
    not the mean cut to an integer; bounds that no float holds raise. *)
Lemma default_target_is_a_float :
  option_map target_chars (_section_char_budget wide_env) = Some (2 ^ 52 + 2) ∧
  Z.quot (0 + (2 ^ 53 + 3)) 2 = 2 ^ 52 + 1 ∧
  _section_char_budget huge_env = None.
Proof. split_and!; vm_compute; reflexivity. Qed.

(** *** Counters of ready chunks *)

Lemma length_sorted_keys {V} (d : gmap Z V) : length (sorted_keys d) = size d.
Proof.
  unfold sorted_keys. rewrite merge_sort_Permutation, length_map.
  by rewrite length_map_to_list.
Qed.

Lemma length_ordered_pairs d : length (ordered_pairs d) = size d.
Proof.
  pose proof (ordered_pairs_spec d) as H. apply Forall2_length in H.
  by rewrite <- H, length_sorted_keys.
Qed.

Lemma counts_agree_publish meta so st :
  counts_agree st -> counts_agree (publish_chunk meta so st).
Proof.
  intros (H1 & H2 & H3 & H4). unfold counts_agree, publish_chunk. cbv zeta. simpl.
  rewrite !length_map, !length_ordered_pairs.
  destruct (ready_chunks_by_index st !! m_section_index meta) eqn:Hl.
  - rewrite map_size_insert_Some by eauto. by split_and!.
  - rewrite map_size_insert_None by done. split_and!; (done || lia).
Qed.

Lemma counts_agree_step st s : counts_agree st -> counts_agree (run_step st s).
Proof.
  intros Hc. destruct s as [future meta | future res]; simpl; [done|].
  destruct (pending_tts st !! future) as [meta|]; [|done].
  destruct res as [|so [|]]; simpl.
  - by case_decide.
  - by apply counts_agree_publish.
  - by case_decide.
Qed.

Lemma counts_agree_steps steps : forall st,
  counts_agree st -> counts_agree (run_steps steps st).
Proof.
  induction steps as [|s steps IH]; intros st Hc; simpl; [done|].
  by apply IH, counts_agree_step.
Qed.

(** X14: At every point of a job, [synthesized_sections] is the number of
    distinct section indexes with a ready chunk: it equals the size of the
    ready map and the length of both ready lists, and [ready_chunk_count]
    in the metrics, once written, is that number too. A section that
    becomes ready twice is counted once. *)
Theorem synthesized_sections_counts_ready_chunks sections steps :
  let st := run_steps steps (initial sections) in
  synthesized_sections st = size (ready_chunks_by_index st) ∧
  length (ready_chunk_filenames st) = synthesized_sections st ∧
  length (ready_chunk_paths st) = synthesized_sections st ∧
  (forall n, metrics_ready_chunk_count st = Some n -> n = synthesized_sections st).
Proof.
  cbv zeta.
  destruct (counts_agree_steps steps (initial sections)) as (H1 & H2 & H3 & H4).
  { by split_and!. }
  split_and!; [done | congruence | congruence |].
  intros n Hn. rewrite Hn in H4. simpl in H4. congruence.
Qed.

Lemma synthesized_sections_counts_ready_chunks_witness :
  let st := run_steps
              [ Submit 0 intro_meta; Submit 1 intro_meta;
                Complete 0 (TtsReturned (stats None 800) true);
                Complete 1 (TtsReturned (stats None 800) true) ]
              (initial []) in
  synthesized_sections st = size (ready_chunks_by_index st) ∧
  length (ready_chunk_filenames st) = synthesized_sections st ∧
  length (ready_chunk_paths st) = synthesized_sections st ∧
  (forall n, metrics_ready_chunk_count st = Some n -> n = synthesized_sections st).
Proof. apply synthesized_sections_counts_ready_chunks. Defined.

(** *** The script under synthesis *)

Lemma merge_line_timings_view ls : forall ts,
  map (fun l => (speaker l, text l)) (merge_line_timings ls ts)
  = map (fun l => (speaker l, text l)) ls.
Proof.
  induction ls as [|l ls IH]; intros [|[[s e]|] ts]; simpl; try done; by rewrite IH.
Qed.

Lemma mark_ready_view so sec : script_view (mark_ready so sec) = script_view sec.
Proof.
  unfold mark_ready, script_view. cbv zeta.
  destruct (line_timings so) as [ts|]; case_decide; simpl;
    by rewrite ?merge_line_timings_view.
Qed.

Lemma alter_at_view (f : section -> section) i secs :
  (forall sec, script_view (f sec) = script_view sec) ->
  map script_view (alter_at f i secs) = map script_view secs.
Proof.
  intros Hf. unfold alter_at. destruct (secs !! i) as [sec|] eqn:Hi; [|done].
  rewrite list_fmap_insert, Hf. apply list_insert_id.
  by rewrite list_lookup_fmap, Hi.
Qed.

Lemma script_view_step st s :
  map script_view (transcript_sections (run_step st s))
  = map script_view (transcript_sections st).
Proof.
  destruct s as [future meta | future res]; simpl; [done|].
  destruct (pending_tts st !! future) as [meta|]; [|done].
  destruct res as [|so [|]]; simpl.
  - by case_decide.
  - apply alter_at_view, mark_ready_view.
  - by case_decide.
Qed.

(** X24: Synthesis never touches the script: whatever tasks are submitted
    and however they end, every transcript section keeps its index, its
    title and the speaker and text of each of its lines, in the same order;
    completions only add status, timings and audio length. *)
Theorem synthesis_keeps_the_script sections steps :
  map script_view (transcript_sections (run_steps steps (initial sections)))
  = map script_view sections.
Proof.
  change sections with (transcript_sections (initial sections)) at 2.
  generalize (initial sections). induction steps as [|s steps IH]; intros st; [done|].
  simpl. by rewrite IH, script_view_step.
Qed.

(** *** timings_ready *)

Lemma timings_ready_step st s :
  timings_ready st = false -> timings_ready (run_step st s) = false.
Proof.
  intros Hf. destruct s as [future meta | future res]; simpl; [done|].
  destruct (pending_tts st !! future) as [meta|]; [|done].
  destruct res as [|so fe]; simpl.
  - by case_decide.
  - assert (timings_ready (absorb_stats so (pop_pending future st)) = false) as Ha.
    { simpl. rewrite Hf. by destruct (line_timings_ready so), (timings_deferred so). }
    destruct fe; simpl; [done|]. by case_decide.
Qed.

Lemma timings_ready_steps steps : forall st,
  timings_ready st = false -> timings_ready (run_steps steps st) = false.
Proof.
  induction steps as [|s steps IH]; intros st Hf; simpl; [done|].
  by apply IH, timings_ready_step.
Qed.

(** X15: [timings_ready] starts true and is cleared for good by the first
    pending task that returns reporting missing or deferred line timings,
    whether or not its audio file exists. A task that raises leaves the
    flag as it is, although its section gets no line timings. *)
Theorem timings_ready_is_cleared_for_good st future meta so file_exists steps :
  pending_tts st !! future = Some meta ->
  lacks_timings so = true ->
  timings_ready
    (run_steps (Complete future (TtsReturned so file_exists) :: steps) st) = false ∧
  timings_ready (run_step st (Complete future TtsRaised)) = timings_ready st.
Proof.
  intros Hp Hl. split.
  - simpl. apply timings_ready_steps. rewrite Hp.
    assert (timings_ready (absorb_stats so (pop_pending future st)) = false) as Ha.
    { simpl. unfold lacks_timings in Hl.
      destruct (line_timings_ready so), (timings_deferred so); done. }
    destruct file_exists; simpl; [done|]. by case_decide.
  - simpl. rewrite Hp. by case_decide.
Qed.

Lemma timings_ready_is_cleared_for_good_witness :
  timings_ready
    (run_steps
       (Complete 1 (TtsReturned
                      {| cache_hits := 0; cache_misses := 1; line_timings_ready := true;
                         timings_deferred := true; line_timings := None;
                         stat_audio_ms := 900 |} true)
        :: [Complete 0 (TtsReturned (stats None 800) true)])
       (run_steps [Submit 0 intro_meta; Submit 1 (body_meta 1 "ai_sec01.wav")] (initial [])))
  = false ∧
  timings_ready
    (run_step (run_steps [Submit 0 intro_meta; Submit 1 (body_meta 1 "ai_sec01.wav")]
                 (initial []))
       (Complete 1 TtsRaised))
  = timings_ready
      (run_steps [Submit 0 intro_meta; Submit 1 (body_meta 1 "ai_sec01.wav")] (initial [])).
Proof.
  apply (timings_ready_is_cleared_for_good _ 1%nat (body_meta 1 "ai_sec01.wav")).
  - vm_compute. reflexivity.
  - reflexivity.
Defined.

(** *** What the timing pass leaves alone *)

Lemma without_global_time_section c sec :
  without_global (time_section c sec).1 = without_global sec.
Proof.
  rewrite TimingFacts.time_section_spec. unfold without_global. simpl. f_equal.
  rewrite map_map. apply map_ext. intros l. done.
Qed.

Lemma without_global_time_sections secs : forall c,
  map without_global (time_sections c secs) = map without_global secs.
Proof.
  induction secs as [|sec secs IH]; intros c; [done|].
  cbn [time_sections]. pose proof (without_global_time_section c sec) as Hs.
  destruct (time_section c sec) as [sec' c']. simpl in *. by rewrite Hs, IH.
Qed.

(** X16: The timing pass only writes global time stamps: with the global
    stamps blanked, the timed transcript is the input transcript sorted by
    section index; no section or line is lost, added or otherwise changed. *)
Theorem global_timing_only_writes_stamps ts :
  map without_global (global_timing ts) = map without_global (ordered_sections ts) ∧
  map without_global (global_timing ts) ≡ₚ map without_global ts ∧
  Sorted index_le (ordered_sections ts).
Proof.
  unfold global_timing. rewrite without_global_time_sections. split_and!; [done | |].
  - apply fmap_Permutation. unfold ordered_sections. apply merge_sort_Permutation.
  - unfold ordered_sections. apply Sorted_merge_sort. intros a b. unfold index_le. lia.
Qed.

End PipelineFacts.

Module ChapterFacts.
Import Planner PipelineChapters StrFacts AgendaFacts.

Lemma keep_all (by_id : gmap str node) cs : forall k,
  Forall (fun c => node_ids c ≠ [] ∧ chapter_id c ≠ [] ∧ ch_title c ≠ [] ∧
                   forall x, x ∈ node_ids c -> is_Some (by_id !! x)) cs ->
  omap (fun x => x) (imap (fun i => keep_chapter by_id (k + i)) cs) = cs.
Proof.
  induction cs as [|c cs IH]; intros k Hall; [done|].
  apply Forall_cons in Hall as [(Hn & Hi & Ht & Hk) Hall].
  cbn [imap omap list_omap]. unfold keep_chapter at 1. cbv zeta.
  rewrite AgendaFacts.filter_all by (by apply Forall_forall).
  destruct c as [cid ct ids]. cbn [node_ids chapter_id ch_title] in *.
  destruct ids as [|x ids]; [done|].
  destruct cid as [|a1 s1]; [done|]. destruct ct as [|a2 s2]; [done|].
  cbn [nonempty]. f_equal. rewrite <- (IH (S k) Hall) at 2. f_equal.
  apply imap_ext. intros i y _. simpl. f_equal. lia.
Qed.

(** X17: For every agenda that the planner's normalizer returns, the
    pipeline's [_ordered_chapters] takes the planner's chapters as they
    are: same chapter ids, titles and node ids, in the same order; the
    rebuilding fallback is not used. *)
Theorem pipeline_keeps_planner_chapters lower ag topic :
  exists a, _normalize_agenda lower ag topic = Returns a ∧
            _ordered_chapters a = chapters a.
Proof.
  destruct (normalized_chapters_spec lower ag topic)
    as (a & Hret & Hcat & Hsz & Hcnt & Hids & Hsub & Htitles).
  exists a. split; [done|]. unfold _ordered_chapters. cbv zeta.
  assert (omap (fun x => x) (imap (keep_chapter (_agenda_node_map (nodes a))) (chapters a))
          = chapters a) as ->.
  2:{ destruct (chapters a); [simpl in Hcnt; lia | done]. }
  refine (keep_all (_agenda_node_map (nodes a)) (chapters a) 0 _).
  apply Forall_forall. intros c Hc.
  rewrite Forall_forall in Hsz, Htitles.
  assert (chapter_id c ∈ map chapter_id (chapters a)) as Hcid
    by (apply list_elem_of_fmap; eauto).
  rewrite Hids in Hcid. apply list_elem_of_fmap in Hcid as (k & -> & _).
  split_and!.
  - destruct (Hsz c Hc) as [H|H]; by destruct (node_ids c).
  - done.
  - by apply Htitles.
  - intros x Hx.
    destruct (by_id_lookup (nodes a) x) as (n & Hn & _); [|unfold _agenda_node_map; eauto].
    apply Hsub. rewrite <- Hcat. apply (elem_of_concat _ (node_ids c)); [done|].
    apply list_elem_of_fmap. eauto.
Qed.

End ChapterFacts.

Module StoreFacts.
Import JobStore JobStoreFacts StrFacts.

(** *** Updates are local to their job *)

Lemma apply_call_None jobs c jid :
  jobs !! jid = None -> apply_call jobs c !! jid = None.
Proof.
  intros Hn. unfold apply_call, update.
  destruct (jobs !! c_job c) as [r|] eqn:Hr; [|done].
  simpl. rewrite lookup_insert_ne; [done|]. intros Heq. rewrite Heq in Hr. congruence.
Qed.

Lemma apply_calls_snoc cs c jobs :
  apply_calls (cs ++ [c]) jobs = apply_call (apply_calls cs jobs) c.
Proof. unfold apply_calls. by rewrite foldl_app. Qed.

Lemma apply_calls_local cs : forall jobs jid,
  match jobs !! jid with
  | None => apply_calls cs jobs !! jid = None
  | Some r =>
      exists r', apply_calls cs jobs !! jid = Some r' ∧
        job_id r' = job_id r ∧ topic r' = topic r ∧ created_at r' = created_at r ∧
        ((forall c, c ∈ cs -> c_job c ≠ jid) -> r' = r)
  end.
Proof.
  induction cs as [|c cs IH] using rev_ind; intros jobs jid.
  - unfold apply_calls. simpl. destruct (jobs !! jid) as [r|]; [|done].
    exists r. by split_and!.
  - rewrite apply_calls_snoc. specialize (IH jobs jid).
    destruct (jobs !! jid) as [r|].
    + destruct IH as (r1 & Hr1 & H1 & H2 & H3 & H4).
      rewrite (apply_call_lookup _ c jid r1 Hr1).
      eexists. split; [done|].
      destruct (update_record_fields (c_now c) (c_args c) r1) as (F1 & F2 & F3 & _).
      cbv zeta in *.
      case_decide as Hc.
      * split_and!; [congruence | congruence | congruence |].
        intros Hno. exfalso. apply (Hno c); [|done]. apply elem_of_app. right. by left.
      * split_and!; [done | done | done |].
        intros Hno. apply H4. intros c' Hc'. apply Hno. apply elem_of_app. by left.
    + by apply apply_call_None.
Qed.

(** X18: Updates are local to their job. [update] on an unknown job id
    raises [KeyError] and leaves the store as it was; no series of updates
    creates or removes a job or alters a job that none of the calls names;
    and a job keeps its [job_id], [topic] and [created_at] through any
    series of updates. *)
Theorem updates_are_local :
  (forall now jid a jobs, jobs !! jid = None ->
     update now jid a jobs = None ∧
     apply_call jobs {| c_now := now; c_job := jid; c_args := a |} = jobs) ∧
  (forall cs jobs jid, is_Some (apply_calls cs jobs !! jid) <-> is_Some (jobs !! jid)) ∧
  (forall cs jobs jid, (forall c, c ∈ cs -> c_job c ≠ jid) ->
     apply_calls cs jobs !! jid = jobs !! jid) ∧
  (forall cs jobs jid r r', jobs !! jid = Some r -> apply_calls cs jobs !! jid = Some r' ->
     job_id r' = job_id r ∧ topic r' = topic r ∧ created_at r' = created_at r).
Proof.
  split_and!.
  - intros now jid a jobs Hn. unfold apply_call, update. simpl. by rewrite Hn.
  - intros cs jobs jid. pose proof (apply_calls_local cs jobs jid) as H.
    destruct (jobs !! jid) as [r|].
    + destruct H as (r' & -> & _). split; eauto.
    + rewrite H. done.
  - intros cs jobs jid Hno. pose proof (apply_calls_local cs jobs jid) as H.
    destruct (jobs !! jid) as [r|]; [|done].
    destruct H as (r' & -> & _ & _ & _ & Heq). by rewrite Heq.
  - intros cs jobs jid r r' Hr Hr'. pose proof (apply_calls_local cs jobs jid) as H.
    rewrite Hr in H. destruct H as (r1 & H1 & F1 & F2 & F3 & _).
    rewrite Hr' in H1. injection H1 as <-. done.
Qed.

Lemma updates_are_local_witness :
  update 9 (lit "j2") no_args {[ lit "j1" := failed_job ]} = None ∧
  apply_call {[ lit "j1" := failed_job ]}
    {| c_now := 9; c_job := lit "j2"; c_args := no_args |}
  = {[ lit "j1" := failed_job ]}.
Proof.
  apply (proj1 updates_are_local). reflexivity.
Defined.

(** *** Slices of the event list *)

Lemma py_drop_neg {A} (limit : Z) (l : list A) :
  0 < limit -> py_drop (- limit) l = drop (length l - Z.to_nat limit) l.
Proof.
  intros Hl. unfold py_drop. rewrite decide_False by lia.
  by rewrite Z.opp_involutive.
Qed.

(** X19: [list_all(limit)] and [list_user_events(user_id, limit)] return
    the newest [limit] events in insertion order when [limit >= 1] (all of
    them when there are fewer), but with [limit = 0] they return every
    event instead of none. [list_user_events] returns events of that user
    only. *)
Theorem event_limits events user_id :
  (forall limit, 0 < limit ->
     list_all limit events `suffix_of` events ∧
     length (list_all limit events) = Nat.min (Z.to_nat limit) (length events)) ∧
  list_all 0 events = events ∧
  (forall limit, 0 < limit ->
     list_user_events user_id limit events `suffix_of` list_by_user user_id events ∧
     length (list_user_events user_id limit events)
     = Nat.min (Z.to_nat limit) (length (list_by_user user_id events))) ∧
  list_user_events user_id 0 events = list_by_user user_id events ∧
  (forall limit e, e ∈ list_user_events user_id limit events ->
     e ∈ events ∧ e !! lit "user_id" = Some (PStr user_id)).
Proof.
  split_and!.
  - intros limit Hl. unfold list_all. split; [apply py_drop_suffix|].
    rewrite py_drop_neg by done. rewrite length_drop. lia.
  - reflexivity.
  - intros limit Hl. unfold list_user_events. split; [apply py_drop_suffix|].
    rewrite py_drop_neg by done. rewrite length_drop. lia.
  - reflexivity.
  - intros limit e He. unfold list_user_events in He.
    destruct (py_drop_suffix (- limit) (list_by_user user_id events)) as [k Hk].
    assert (e ∈ list_by_user user_id events) as Hin.
    { rewrite Hk. apply elem_of_app. by right. }
    apply list_elem_of_filter in Hin as [Hu Hin]. split; [done|].
    unfold user_is in Hu. destruct (e !! lit "user_id") as [[| | |s| |]|]; try done.
    by apply bool_decide_eq_true in Hu as ->.
Qed.

Lemma event_limits_witness :
  list_all 2 [ {[ lit "event_id" := PStr (lit "e1") ]};
               {[ lit "event_id" := PStr (lit "e2") ]};
               {[ lit "event_id" := PStr (lit "e3") ]} ]
    `suffix_of` [ {[ lit "event_id" := PStr (lit "e1") ]};
                  {[ lit "event_id" := PStr (lit "e2") ]};
                  {[ lit "event_id" := PStr (lit "e3") ]} ] ∧
  length (list_all 2 [ {[ lit "event_id" := PStr (lit "e1") ]};
                       {[ lit "event_id" := PStr (lit "e2") ]};
                       {[ lit "event_id" := PStr (lit "e3") ]} ])
  = Nat.min (Z.to_nat 2) 3.
Proof.
  apply (proj1 (event_limits [ {[ lit "event_id" := PStr (lit "e1") ]};
                               {[ lit "event_id" := PStr (lit "e2") ]};
                               {[ lit "event_id" := PStr (lit "e3") ]} ] [])).
  lia.
Defined.

(** *** Profiles and episodes *)

Lemma if_truthy_spec {V} (d : gmap str V) :
  (d = ∅ -> if_truthy d = None) ∧ (d ≠ ∅ -> if_truthy d = Some d).
Proof.
  unfold if_truthy. split.
  - intros ->. by rewrite map_size_empty.
  - intros Hne. rewrite decide_False; [done|]. intros Hz.
    by apply map_size_empty_iff in Hz.
Qed.

(** X20: [InMemoryUserStore.upsert] merges at the top level and keeps what
    it does not overwrite: every key of the new profile takes the new
    value, every other key of the stored profile stays, other users are
    untouched, and repeating the same upsert changes nothing. [get] returns
    the merged profile, except that a profile without any key reads as
    absent. *)
Theorem user_upsert_merges user_id profile users :
  let old := default ∅ (users !! user_id) in
  let '(users', merged) := user_upsert user_id profile users in
  (forall k, merged !! k = match profile !! k with Some v => Some v | None => old !! k end) ∧
  (forall k, is_Some (old !! k) -> is_Some (merged !! k)) ∧
  (forall other, other ≠ user_id -> users' !! other = users !! other) ∧
  user_upsert user_id profile users' = (users', merged) ∧
  (merged ≠ ∅ -> user_get user_id users' = Some merged) ∧
  (merged = ∅ -> user_get user_id users' = None).
Proof.
  cbv zeta. unfold user_upsert. cbv zeta.
  set (old := default ∅ (users !! user_id)).
  assert (forall k, dict_update old profile !! k
                    = match profile !! k with Some v => Some v | None => old !! k end) as Hk.
  { intros k. apply dict_update_lookup. }
  split_and!.
  - done.
  - intros k [v Hv]. rewrite Hk. destruct (profile !! k); eauto.
  - intros other Hne. by rewrite lookup_insert_ne.
  - rewrite lookup_insert_eq. simpl.
    assert (dict_update (dict_update old profile) profile = dict_update old profile) as ->.
    { apply map_eq. intros k. rewrite !dict_update_lookup. by destruct (profile !! k). }
    by rewrite insert_insert_eq.
  - intros Hne. unfold user_get. rewrite lookup_insert_eq. by apply if_truthy_spec.
  - intros He. unfold user_get. rewrite lookup_insert_eq. by apply if_truthy_spec.
Qed.

Lemma user_upsert_merges_witness :
  let old := default ∅ (({[ lit "u1" := {[ lit "lang" := PStr (lit "ja") ]} ]}
                          : gmap str (gmap str pyval)) !! lit "u1") in
  let '(users', merged) :=
    user_upsert (lit "u1") {[ lit "speed" := PInt 2 ]}
      {[ lit "u1" := {[ lit "lang" := PStr (lit "ja") ]} ]} in
  (forall k, merged !! k
             = match ({[ lit "speed" := PInt 2 ]} : gmap str pyval) !! k with
               | Some v => Some v | None => old !! k end) ∧
  (forall k, is_Some (old !! k) -> is_Some (merged !! k)) ∧
  (forall other, other ≠ lit "u1" ->
     users' !! other
     = ({[ lit "u1" := {[ lit "lang" := PStr (lit "ja") ]} ]}
          : gmap str (gmap str pyval)) !! other) ∧
  user_upsert (lit "u1") {[ lit "speed" := PInt 2 ]} users' = (users', merged) ∧
  (merged ≠ ∅ -> user_get (lit "u1") users' = Some merged) ∧
  (merged = ∅ -> user_get (lit "u1") users' = None).
Proof.
  apply (user_upsert_merges (lit "u1") {[ lit "speed" := PInt 2 ]}
           {[ lit "u1" := {[ lit "lang" := PStr (lit "ja") ]} ]}).
Defined.

(** X21: [InMemoryEpisodeStore.upsert] replaces the stored episode (it does
    not merge), leaves other episodes alone, and [get] reads back exactly
    what was stored, except that an episode stored as an empty mapping
    reads as absent. *)
Theorem episode_round_trip episode_id episode episodes :
  let episodes' := episode_upsert episode_id episode episodes in
  (episode ≠ ∅ -> episode_get episode_id episodes' = Some episode) ∧
  (episode = ∅ -> episode_get episode_id episodes' = None) ∧
  (forall other, other ≠ episode_id ->
     episode_get other episodes' = episode_get other episodes) ∧
  (forall newer, episode_upsert episode_id newer episodes'
                 = episode_upsert episode_id newer episodes).
Proof.
  cbv zeta. unfold episode_upsert, episode_get. split_and!.
  - intros Hne. rewrite lookup_insert_eq. by apply if_truthy_spec.
  - intros He. rewrite lookup_insert_eq. by apply if_truthy_spec.
  - intros other Hne. by rewrite lookup_insert_ne.
  - intros newer. by rewrite insert_insert_eq.
Qed.

Lemma episode_round_trip_witness :
  let episodes' := episode_upsert (lit "ep1") ∅ {[ lit "ep1" := {[ lit "topic" := PStr (lit "AI") ]} ]} in
  episode_get (lit "ep1") episodes' = None.
Proof.
  apply (proj1 (proj2 (episode_round_trip (lit "ep1") ∅
                         {[ lit "ep1" := {[ lit "topic" := PStr (lit "AI") ]} ]}))).
  reflexivity.
Defined.

End StoreFacts.
